(** * go-mage-shared: subprocess executor and the option builders on top of it

    A shallow embedding of the Go packages [execx], [golang], [kox] and
    [helmx], followed by the properties of their natural-language
    specification.

    Conventions of the embedding.
    - A Go [error] is a value of the inductive type [error]; the [nil]
      error is [None] in [option error].
    - [fmt.Errorf] is kept structured: the format string, the rendered
      non-error operands and (for a [%w] verb) the wrapped error.
    - Functions that call the logging sink or an [execx.Executor] are
      written in a small state monad over the record [World], which keeps
      the log records and the executor calls in the order they happen. *)

From Stdlib Require Import List String Ascii ZArith Lia Bool Arith.
From Stdlib Require Import Strings.Byte.
Import ListNotations.
Local Open Scope string_scope.
Local Open Scope list_scope.

(** ** Go errors *)

Inductive error : Type :=
| io_EOF                                   (* io.EOF *)
| io_ErrNoProgress                         (* io.ErrNoProgress *)
| bufio_ErrTooLong                         (* bufio.ErrTooLong *)
| context_Canceled                         (* context.Canceled *)
| context_DeadlineExceeded                 (* context.DeadlineExceeded *)
| external_error (msg : string)            (* raised outside this repository *)
| Errorf (format : string) (args : list string)
| Errorf_w (format : string) (args : list string) (wrapped : error).

(** [errors.Unwrap]. *)
Definition Unwrap (e : error) : option error :=
  match e with
  | Errorf_w _ _ w => Some w
  | _ => None
  end.

(** ** Structured logging ([log/slog]) *)

Module slog.

Inductive Level : Type := LevelDebug | LevelInfo | LevelWarn | LevelError.

(** Attribute values.  A [time.Duration] is measured by the clock, which
    the embedding does not model: it is kept as an opaque value. *)
Inductive Value : Type :=
| StringValue (s : string)
| BoolValue (b : bool)
| StringsValue (l : list string)
| ErrorValue (e : option error)
| DurationValue.

Record Record : Type := mkRecord {
  level : Level;
  message : string;
  attrs : list (string * Value)
}.

End slog.

(** ** Package [iox]: readers

    [iox.Reader] is an interface; the embedding fixes what an
    implementation delivers.  A reader hands out its bytes in the chunks
    listed in [pending] (a read never crosses a chunk, as reads of a pipe
    never cross what has been written so far) and, once they are used up,
    fails every read with the error [closing] ([io.EOF] at a regular end of
    stream). *)

Module iox.

Record Reader : Type := mkReader {
  pending : list (list byte);
  closing : error
}.

Fixpoint read_chunks (cs : list (list byte)) (n : nat)
  : option (list byte * list (list byte)) :=
  match cs with
  | [] => None
  | [] :: cs' => read_chunks cs' n
  | c :: cs' => Some (firstn n c, skipn n c :: cs')
  end.

(** [Read(p)] with [len(p) = n]: the bytes stored into [p], the error,
    and the reader afterwards. *)
Definition Read (r : Reader) (n : Z) : list byte * option error * Reader :=
  match read_chunks (pending r) (Z.to_nat n) with
  | Some (bs, cs) => (bs, None, mkReader cs (closing r))
  | None => ([], Some (closing r), mkReader [] (closing r))
  end.

(** All the bytes the reader has still to deliver. *)
Definition unread (r : Reader) : list byte := List.concat (pending r).

End iox.

(** ** [bufio.Scanner] with the [bufio.ScanLines] split function

    The scanner of the Go standard library, as [streamToSlog] configures
    it.  The byte slice [s.buf] is represented by its length [buf_len], the
    index [start] and the bytes [data] held in [s.buf[s.start:s.end]]. *)

Module bufio.

Local Open Scope Z_scope.

Definition LF : byte := x0a.
Definition CR : byte := x0d.

Definition maxInt : Z := 9223372036854775807.
Definition startBufSize : Z := 4096.

(** [bytes.IndexByte]. *)
Fixpoint IndexByte (data : list byte) (c : byte) : option nat :=
  match data with
  | [] => None
  | b :: rest =>
      if Byte.eqb b c then Some O else option_map S (IndexByte rest c)
  end.

Definition dropCR (data : list byte) : list byte :=
  if (0 <? List.length data)%nat && Byte.eqb (last data x00) CR
  then removelast data else data.

(** [ScanLines(data, atEOF)]: the advance and the token ([None] for a
    [nil] token); it never returns an error. *)
Definition ScanLines (data : list byte) (atEOF : bool)
  : nat * option (list byte) :=
  if atEOF && (List.length data =? 0)%nat then (O, None)
  else match IndexByte data LF with
       | Some i => (i + 1, Some (dropCR (firstn i data)))%nat
       | None => if atEOF then (List.length data, Some (dropCR data))
                 else (O, None)
       end.

Record Scanner : Type := mkScanner {
  r : iox.Reader;
  maxTokenSize : Z;
  token : list byte;
  buf_len : Z;
  start : Z;
  data : list byte;
  err : option error
}.

Definition end_ (s : Scanner) : Z := start s + Z.of_nat (List.length (data s)).

(** [NewScanner(r)] followed by [Buffer(buf, max)] with [cap(buf) = n]. *)
Definition NewScanner_Buffer (rd : iox.Reader) (n max : Z) : Scanner :=
  mkScanner rd max [] n 0 [] None.

Definition setErr (s : Scanner) (e : error) : Scanner :=
  match err s with
  | None | Some io_EOF =>
      mkScanner (r s) (maxTokenSize s) (token s) (buf_len s) (start s)
                (data s) (Some e)
  | Some _ => s
  end.

Definition isSome {A} (o : option A) : bool :=
  match o with Some _ => true | None => false end.

(** The read at the end of one pass of the loop of [Scan]: the reader
    fills [s.buf[s.end:len(s.buf)]].  A reader that delivers no byte and
    no error is asked again and again until [io.ErrNoProgress]. *)
Definition fill (s : Scanner) : Scanner :=
  let '(bs, e, rd) := iox.Read (r s) (buf_len s - end_ s) in
  let s' := mkScanner rd (maxTokenSize s) (token s) (buf_len s) (start s)
                      (data s ++ bs) (err s) in
  match e with
  | Some e' => setErr s' e'
  | None => match bs with
            | [] => setErr s' io_ErrNoProgress
            | _ :: _ => s'
            end
  end.

Definition set_token (s : Scanner) (t : list byte) : Scanner :=
  mkScanner (r s) (maxTokenSize s) t (buf_len s) (start s) (data s) (err s).

Definition set_buf (s : Scanner) (n st : Z) : Scanner :=
  mkScanner (r s) (maxTokenSize s) (token s) n st (data s) (err s).

(** One pass of the loop [for { ... }] of [Scan]: [inl] when [Scan]
    returns, [inr] when the loop goes round again.  [ScanLines] returns no
    error and an advance within its data, and a token at the end of the
    stream only with a positive advance, so the branches of [Scan] for a
    split error, for [ErrFinalToken], for a bad advance and for too many
    empty tokens are never taken and are left out, as is the flag
    [s.done], which only the first two of them set. *)
Definition Scan_pass (s : Scanner) : (bool * Scanner) + Scanner :=
  let called := (start s <? end_ s) || isSome (err s) in
  let '(advance, tok) :=
    if called then ScanLines (data s) (isSome (err s)) else (O, None) in
  match tok with
  | Some t =>
      inl (true, mkScanner (r s) (maxTokenSize s) t (buf_len s)
                           (start s + Z.of_nat advance)
                           (skipn advance (data s)) (err s))
  | None =>
      let s := if called then set_token s [] else s in
      if isSome (err s) then
        inl (false, mkScanner (r s) (maxTokenSize s) (token s) (buf_len s)
                              0 [] (err s))
      else
        let s :=
          if (0 <? start s)
             && ((end_ s =? buf_len s) || (buf_len s / 2 <? start s))
          then set_buf s (buf_len s) 0 else s in
        if end_ s =? buf_len s then
          if (maxTokenSize s <=? buf_len s) || (maxInt / 2 <? buf_len s)
          then inl (false, setErr s bufio_ErrTooLong)
          else
            let newSize := buf_len s * 2 in
            let newSize := if newSize =? 0 then startBufSize else newSize in
            let newSize := Z.min newSize (maxTokenSize s) in
            inr (fill (set_buf s newSize 0))
        else inr (fill s)
  end.

Fixpoint Scan_loop (fuel : nat) (s : Scanner) : option (bool * Scanner) :=
  match fuel with
  | O => None
  | S fuel' =>
      match Scan_pass s with
      | inl res => Some res
      | inr s' => Scan_loop fuel' s'
      end
  end.

(** [Scan]: the loop runs at most once per unread byte, plus the pass
    that meets the end of the stream and the pass that reports it
    ([Scan_total] below shows that this is enough). *)
Definition Scan (s : Scanner) : bool * Scanner :=
  match Scan_loop (List.length (iox.unread (r s)) + 2)%nat s with
  | Some res => res
  | None => (false, s)
  end.

Definition Bytes (s : Scanner) : list byte := token s.

Definition Text (s : Scanner) : string := string_of_list_byte (token s).

Definition Err (s : Scanner) : option error :=
  match err s with
  | Some io_EOF => None
  | e => e
  end.

End bufio.

(** ** Package [execx]: the process executor

    [Exec.Run] starts two goroutines and then waits for the subprocess, so
    a call of [Run] is modelled as a small machine: the state holds the
    program point of the calling goroutine, the two stream consumers, the
    cancellation state of [ctx] and what has been observed so far (the
    calls made on the [Commander], the log records and the bytes written to
    the terminal).  A schedule, a list of labels, says which goroutine
    takes the next step and when the context is cancelled. *)

Module execx.

Local Open Scope Z_scope.

(** A [Commander] is an interface too: the embedding fixes what each of
    the methods called by [Run] answers. *)
Record Commander : Type := mkCommander {
  StdoutPipe : iox.Reader + error;
  StderrPipe : iox.Reader + error;
  Start : option error;
  Wait : option error
}.

(** [CommandCreator.CommandContext(ctx, name, args...)]. *)
Definition CommandCreator : Type := string -> list string -> Commander.

(** The calls [Run] makes on the creator and on the command. *)
Inductive Method : Type :=
| CallCommandContext (name : string) (args : list string)
| CallSetStdin
| CallStdoutPipe
| CallStderrPipe
| CallStart
| CallWait.

Inductive Tid : Type := Caller | StdoutDrain | StderrDrain.

(** The terminal streams [os.Stdout] and [os.Stderr]. *)
Inductive File : Type := os_Stdout | os_Stderr.

Inductive Effect : Type :=
| Log (rec : slog.Record)
| Write (dst : File) (bs : list byte).

(** Program points of the goroutine that calls [Run]. *)
Inductive CallerPc : Type :=
| AtEntry
| AtStdoutPipe
| AtStderrPipe (stdout : iox.Reader)
| AtStart (stdout stderr : iox.Reader)
| AtGoStdout (stdout stderr : iox.Reader)
| AtGoStderr (stderr : iox.Reader)
| AtWait
| AtCtxErr (err : error)             (* [Wait] returned [err], not nil *)
| Returned (result : option error).

(** Program points of a stream consumer: [streamToSlog], or the
    function literal around [io.Copy]. *)
Inductive Drain : Type :=
| NotStarted
| AtScan (level : slog.Level) (scanner : bufio.Scanner)
| AtSelect (level : slog.Level) (scanner : bufio.Scanner)
| AtCopy (dst : File) (src : iox.Reader)
| Finished.

Definition maxCapacity : Z := 1024 * 1024.

(** Entry of [streamToSlog(ctx, r, level)]. *)
Definition streamToSlog (rd : iox.Reader) (level : slog.Level) : Drain :=
  AtScan level (bufio.NewScanner_Buffer rd (64 * 1024) maxCapacity).

(** Size of the buffer [io.Copy] allocates. *)
Definition copyBufSize : Z := 32 * 1024.

(** One step of a consumer, given [ctx.Err()] at that moment: the next
    program point and the effects of the step.
    - [AtScan]: [scanner.Scan()]; when it returns false the loop is left
      and [scanner.Err()] is reported if it is not nil.
    - [AtSelect]: the [select] on [ctx.Done()] with its [default] case.
    - [AtCopy]: one read and write of the loop of [io.Copy]; writes to
      the terminal are taken to succeed. *)
Definition drain_step (ctxErr : option error) (d : Drain)
  : Drain * list Effect :=
  match d with
  | NotStarted => (NotStarted, [])
  | AtScan level sc =>
      let (more, sc') := bufio.Scan sc in
      if more then (AtSelect level sc', [])
      else match bufio.Err sc' with
           | Some e =>
               (Finished,
                [Log (slog.mkRecord slog.LevelError "failed to read stream"
                                    [("err", slog.ErrorValue (Some e))])])
           | None => (Finished, [])
           end
  | AtSelect level sc =>
      match ctxErr with
      | Some c =>
          (Finished,
           [Log (slog.mkRecord slog.LevelWarn "stream canceled"
                               [("reason", slog.ErrorValue (Some c))])])
      | None =>
          (AtScan level sc, [Log (slog.mkRecord level (bufio.Text sc) [])])
      end
  | AtCopy dst src =>
      let '(bs, er, src') := iox.Read src copyBufSize in
      let written := match bs with [] => [] | _ :: _ => [Write dst bs] end in
      match er with
      | Some _ => (Finished, written)
      | None => (AtCopy dst src', written)
      end
  | Finished => (Finished, [])
  end.

Record State : Type := mkState {
  caller : CallerPc;
  stdout_drain : Drain;
  stderr_drain : Drain;
  ctx_Err : option error;              (* [ctx.Err()] *)
  effects : list (Tid * Effect);       (* oldest first *)
  calls : list Method                  (* oldest first *)
}.

Inductive Label : Type :=
| Go (t : Tid)                         (* goroutine [t] takes a step *)
| Cancel (cause : error).              (* [ctx] is cancelled *)

Section Run.

Variable creator : CommandCreator.
Variable command : string.
Variable streamToLog : bool.
Variable args : list string.

Definition cmd : Commander := creator command args.

Definition initial : State :=
  mkState AtEntry NotStarted NotStarted None [] [].

Definition goto (s : State) (pc : CallerPc) (ms : list Method) : State :=
  mkState pc (stdout_drain s) (stderr_drain s) (ctx_Err s) (effects s)
          (calls s ++ ms).

(** One statement of [Run]. *)
Definition caller_step (s : State) : State :=
  match caller s with
  | AtEntry =>
      goto s AtStdoutPipe [CallCommandContext command args; CallSetStdin]
  | AtStdoutPipe =>
      match StdoutPipe cmd with
      | inr err =>
          goto s (Returned (Some (Errorf_w "failed to get stdout pipe: %w"
                                           [] err)))
               [CallStdoutPipe]
      | inl stdout => goto s (AtStderrPipe stdout) [CallStdoutPipe]
      end
  | AtStderrPipe stdout =>
      match StderrPipe cmd with
      | inr err =>
          goto s (Returned (Some (Errorf_w "failed to get stderr pipe: %w"
                                           [] err)))
               [CallStderrPipe]
      | inl stderr => goto s (AtStart stdout stderr) [CallStderrPipe]
      end
  | AtStart stdout stderr =>
      match Start cmd with
      | Some err =>
          goto s (Returned (Some (Errorf_w "failed to start command %q: %w"
                                           [command] err)))
               [CallStart]
      | None => goto s (AtGoStdout stdout stderr) [CallStart]
      end
  | AtGoStdout stdout stderr =>
      mkState (AtGoStderr stderr)
              (if streamToLog then streamToSlog stdout slog.LevelInfo
               else AtCopy os_Stdout stdout)
              (stderr_drain s) (ctx_Err s) (effects s) (calls s)
  | AtGoStderr stderr =>
      mkState AtWait (stdout_drain s)
              (if streamToLog then streamToSlog stderr slog.LevelError
               else AtCopy os_Stderr stderr)
              (ctx_Err s) (effects s) (calls s)
  | AtWait =>
      match Wait cmd with
      | Some err => goto s (AtCtxErr err) [CallWait]
      | None => goto s (Returned None) [CallWait]
      end
  | AtCtxErr err =>
      match ctx_Err s with
      | Some cause =>
          goto s (Returned (Some (Errorf_w "command %q canceled: %w"
                                           [command] cause))) []
      | None =>
          goto s (Returned (Some (Errorf_w "command %q failed: %w"
                                           [command] err))) []
      end
  | Returned _ => s
  end.

Definition tag (t : Tid) (es : list Effect) : list (Tid * Effect) :=
  map (fun e => (t, e)) es.

Definition step (l : Label) (s : State) : State :=
  match l with
  | Go Caller => caller_step s
  | Go StdoutDrain =>
      let (d, es) := drain_step (ctx_Err s) (stdout_drain s) in
      mkState (caller s) d (stderr_drain s) (ctx_Err s)
              (effects s ++ tag StdoutDrain es) (calls s)
  | Go StderrDrain =>
      let (d, es) := drain_step (ctx_Err s) (stderr_drain s) in
      mkState (caller s) (stdout_drain s) d (ctx_Err s)
              (effects s ++ tag StderrDrain es) (calls s)
  | Cancel cause =>
      match ctx_Err s with
      | Some _ => s
      | None =>
          mkState (caller s) (stdout_drain s) (stderr_drain s) (Some cause)
                  (effects s) (calls s)
      end
  end.

(** The state a schedule leads to. *)
Definition run (sched : list Label) (s : State) : State :=
  fold_left (fun s l => step l s) sched s.

End Run.

Definition Tid_eqb (a b : Tid) : bool :=
  match a, b with
  | Caller, Caller | StdoutDrain, StdoutDrain | StderrDrain, StderrDrain => true
  | _, _ => false
  end.

(** The effects of goroutine [t] among [eff]. *)
Definition by_goroutine (t : Tid) (eff : list (Tid * Effect)) : list Effect :=
  map snd (filter (fun te => Tid_eqb (fst te) t) eff).

(** What goroutine [t] has done so far. *)
Definition effects_of (t : Tid) (s : State) : list Effect :=
  by_goroutine t (effects s).

End execx.

(** ** The executor interface and the monad of the option builders *)

Module exec_iface.

(** One call [Run(ctx, command, streamToLog, args...)]. *)
Record Call : Type := mkCall {
  command : string;
  streamToLog : bool;
  args : list string
}.

(** [execx.Executor]: an implementation answers a call knowing the
    calls made before it. *)
Definition Executor : Type := list Call -> Call -> option error.

Record World : Type := mkWorld {
  logged : list slog.Record;       (* records sent to the default logger *)
  ran : list Call;                 (* calls of [Executor.Run], oldest first *)
  mkdirs : list string             (* directories passed to [os.MkdirAll] *)
}.

Definition M (A : Type) : Type := World -> A * World.

Definition ret {A} (a : A) : M A := fun w => (a, w).

Definition bind {A B} (c : M A) (k : A -> M B) : M B :=
  fun w => let (a, w') := c w in k a w'.

Definition Info (msg : string) (kv : list (string * slog.Value)) : M unit :=
  fun w => (tt, mkWorld (logged w ++ [slog.mkRecord slog.LevelInfo msg kv])
                        (ran w) (mkdirs w)).

Definition Executor_Run (ex : Executor) (cmd : string) (toLog : bool)
           (argv : list string) : M (option error) :=
  fun w => let c := mkCall cmd toLog argv in
           (ex (ran w) c, mkWorld (logged w) (ran w ++ [c]) (mkdirs w)).

(** [for _, x := range xs { if err := body(x); err != nil { return err } }]:
    the first non-nil error leaves the loop and the function. *)
Fixpoint for_range {A} (xs : list A) (body : A -> M (option error))
  : M (option error) :=
  match xs with
  | [] => ret None
  | x :: rest =>
      bind (body x) (fun err =>
        match err with
        | Some e => ret (Some e)
        | None => for_range rest body
        end)
  end.

End exec_iface.

Import exec_iface.

Declare Scope go_scope.
Delimit Scope go_scope with go.
Notation "x <- c ;; k" := (bind c (fun x => k))
  (at level 61, c at next level, right associativity) : go_scope.
Notation "c ;; k" := (bind c (fun _ => k))
  (at level 61, right associativity) : go_scope.
Local Open Scope go_scope.

(** ** Package [golang] *)

Module golang.

Record GoRunner : Type := mkGoRunner { executor : Executor }.

Definition RunTests (g : GoRunner) (args : list string) : M (option error) :=
  Info "🧪 Running Go Tests..." [] ;;
  let defaultArgs := ["test"; "./..."] in
  err <- Executor_Run (executor g) "go" false (defaultArgs ++ args) ;;
  match err with
  | Some e => ret (Some e)
  | None => Info "✅ Tests passed" [("duration", slog.DurationValue)] ;; ret None
  end.

Definition RunLint (g : GoRunner) (args : list string) : M (option error) :=
  Info "🔍 Running Go Linter..." [] ;;
  let defaultArgs := ["run"; "--timeout=5m"] in
  err <- Executor_Run (executor g) "golangci-lint" false (defaultArgs ++ args) ;;
  match err with
  | Some e => ret (Some e)
  | None => Info "✅ Lint passed" [("duration", slog.DurationValue)] ;; ret None
  end.

Definition RunInstall (g : GoRunner) (pkgs : list string) (args : list string)
  : M (option error) :=
  if Nat.eqb (List.length pkgs) 0 then
    ret (Some (Errorf "no package specified for installation" []))
  else
    Info "📦 Installing Go packages individually..."
         [("packages", slog.StringsValue pkgs)] ;;
    err <- for_range pkgs (fun pkg =>
             let cmdArgs := ["install"; pkg] ++ args in
             err <- Executor_Run (executor g) "go" false cmdArgs ;;
             match err with
             | Some e => ret (Some (Errorf_w "failed to install %s: %w" [pkg] e))
             | None => ret None
             end) ;;
    match err with
    | Some e => ret (Some e)
    | None =>
        Info "✅ Installation complete" [("duration", slog.DurationValue)] ;;
        ret None
    end.

Definition RunModTasks (g : GoRunner) : M (option error) :=
  Info "📦 Running Go module maintenance (tidy & verify)..." [] ;;
  let commands := [["mod"; "tidy"]; ["mod"; "verify"]] in
  err <- for_range commands (fun args =>
           Info "🔧 Executing"
                [("command", slog.StringValue ("go " ++ String.concat " " args)%string)] ;;
           err <- Executor_Run (executor g) "go" false args ;;
           match err with
           | Some e =>
               ret (Some (Errorf_w "failed to run 'go %s': %w"
                                   [String.concat " " args] e))
           | None => ret None
           end) ;;
  match err with
  | Some e => ret (Some e)
  | None =>
      Info "✅ Module maintenance completed successfully"
           [("duration", slog.DurationValue)] ;;
      ret None
  end.

(** [GoRunner.Run]: runs [go mod tidy]. *)
Definition Run (g : GoRunner) : M (option error) :=
  Info "🧪 Running Go Mod Tidy..." [] ;;
  let defaultArgs := ["mod"; "tidy"] in
  err <- Executor_Run (executor g) "go" false defaultArgs ;;
  match err with
  | Some e => ret (Some e)
  | None => Info "✅ Tests passed" [("duration", slog.DurationValue)] ;; ret None
  end.

Definition RunTestsWithCoverage (g : GoRunner) (args : list string)
  : M (option error) :=
  Info "🧪 Running tests with coverage..." [] ;;
  let defaultArgs := ["test"; "-cover"; "-coverprofile=coverage.out"; "./..."] in
  err <- Executor_Run (executor g) "go" false (defaultArgs ++ args) ;;
  match err with
  | Some e => ret (Some e)
  | None =>
      Info "✅ Tests with coverage passed" [("duration", slog.DurationValue)] ;;
      ret None
  end.

Definition RunVet (g : GoRunner) (args : list string) : M (option error) :=
  Info "🔍 Running go vet..." [] ;;
  let defaultArgs := ["vet"; "./..."] in
  err <- Executor_Run (executor g) "go" false (defaultArgs ++ args) ;;
  match err with
  | Some e => ret (Some e)
  | None => Info "✅ Go vet passed" [("duration", slog.DurationValue)] ;; ret None
  end.

Definition RunFormat (g : GoRunner) (args : list string) : M (option error) :=
  Info "✨ Formatting Go files..." [] ;;
  let defaultArgs := ["-w"; "."] in
  err <- Executor_Run (executor g) "gofmt" false (defaultArgs ++ args) ;;
  match err with
  | Some e => ret (Some e)
  | None =>
      Info "✅ Formatting complete" [("duration", slog.DurationValue)] ;; ret None
  end.

Definition RunFormatImports (g : GoRunner) (args : list string)
  : M (option error) :=
  Info "✨ Formatting Go imports..." [] ;;
  let defaultArgs := ["-w"; "."] in
  err <- Executor_Run (executor g) "goimports" false (defaultArgs ++ args) ;;
  match err with
  | Some e => ret (Some e)
  | None =>
      Info "✅ Import formatting complete" [("duration", slog.DurationValue)] ;;
      ret None
  end.

Record BuildOptions : Type := mkBuildOptions {
  Binary : string;
  Version : string;
  OS : string;
  Arch : string;
  Debug : bool;
  Packages : list string;
  DestinationDir : string
}.

Section RunBuild.

(** [path/filepath.Join] and the outcome of [os.MkdirAll] belong to the
    Go library and the file system; [RunBuild] is parametric in them. *)
Variable filepath_Join : list string -> string.
Variable os_MkdirAll : string -> option error.

Definition MkdirAll (path : string) : M (option error) :=
  fun w => (os_MkdirAll path,
            mkWorld (logged w) (ran w) (mkdirs w ++ [path])).

Definition RunBuild (g : GoRunner) (opts : BuildOptions) : M (option error) :=
  if String.eqb (Binary opts) "" then
    ret (Some (Errorf "binary name is required" []))
  else
    let Packages' :=
      if Nat.eqb (List.length (Packages opts)) 0 then ["."] else Packages opts in
    let destDir :=
      if String.eqb (DestinationDir opts) "" then "dist/binaries"
      else DestinationDir opts in
    Info "🏗️ Building Go binary..."
         [("binary", slog.StringValue (Binary opts));
          ("os", slog.StringValue (OS opts));
          ("arch", slog.StringValue (Arch opts));
          ("debug", slog.BoolValue (Debug opts))] ;;
    let ldflags := ("-X main.version=" ++ Version opts)%string in
    let ldflags :=
      if negb (Debug opts) then (ldflags ++ " -s -w")%string else ldflags in
    let outDir := filepath_Join [destDir; (OS opts ++ "_" ++ Arch opts)%string] in
    err <- MkdirAll outDir ;;
    match err with
    | Some e => ret (Some e)
    | None =>
        let outPath := filepath_Join [outDir; Binary opts] in
        let buildArgs :=
          [("GOOS=" ++ OS opts)%string;
           ("GOARCH=" ++ Arch opts)%string;
           "CGO_ENABLED=0";
           "go";
           "build";
           "-ldflags"; ldflags;
           "-o"; outPath] in
        let buildArgs := buildArgs ++ Packages' in
        err <- Executor_Run (executor g) "env" false buildArgs ;;
        match err with
        | Some e => ret (Some e)
        | None =>
            Info "✅ Build completed"
                 [("output", slog.StringValue outPath);
                  ("duration", slog.DurationValue)] ;;
            ret None
        end
    end.

End RunBuild.

End golang.

(** ** Package [kox] *)

Module kox.

Record KoRunner : Type := mkKoRunner { executor : Executor }.

Module BuildOptions.
Record t : Type := mk {
  ImportPath : string;
  Tags : list string;
  Platform : list string;
  BaseImage : string;
  Bare : bool;
  Local_ : bool;                 (* the field [Local] *)
  Push : bool;
  PreserveImportPaths : bool
}.
End BuildOptions.

Definition Build (k : KoRunner) (opts : BuildOptions.t) : M (option error) :=
  if String.eqb (BuildOptions.ImportPath opts) "" then
    ret (Some (Errorf "import path is required" []))
  else
    Info "🐳 Building container image with ko..."
         [("importPath", slog.StringValue (BuildOptions.ImportPath opts));
          ("local", slog.BoolValue (BuildOptions.Local_ opts));
          ("push", slog.BoolValue (BuildOptions.Push opts))] ;;
    let args := ["build"; BuildOptions.ImportPath opts] in
    let args :=
      fold_left (fun args tag => args ++ ["--tags"; tag])
                (BuildOptions.Tags opts) args in
    let args :=
      fold_left (fun args platform => args ++ ["--platform"; platform])
                (BuildOptions.Platform opts) args in
    let args :=
      if negb (String.eqb (BuildOptions.BaseImage opts) "")
      then args ++ ["--base-import-paths"; BuildOptions.BaseImage opts]
      else args in
    let args := if BuildOptions.Bare opts then args ++ ["--bare"] else args in
    let args := if BuildOptions.Local_ opts then args ++ ["--local"] else args in
    let args := if BuildOptions.Push opts then args ++ ["--push"] else args in
    let args :=
      if BuildOptions.PreserveImportPaths opts
      then args ++ ["--preserve-import-paths"] else args in
    err <- Executor_Run (executor k) "ko" false args ;;
    match err with
    | Some e => ret (Some e)
    | None =>
        Info "✅ Container image built" [("duration", slog.DurationValue)] ;;
        ret None
    end.

Module ApplyOptions.
Record t : Type := mk {
  Filenames : list string;
  Recursive : bool;
  Selector : string;
  BaseImage : string;
  Platform : list string;
  Local_ : bool;                 (* the field [Local] *)
  Bare : bool;
  PreserveImportPaths : bool
}.
End ApplyOptions.

Definition Apply (k : KoRunner) (opts : ApplyOptions.t) : M (option error) :=
  if Nat.eqb (List.length (ApplyOptions.Filenames opts)) 0 then
    ret (Some (Errorf "at least one filename is required" []))
  else
    Info "🚀 Building and applying with ko..."
         [("files", slog.StringsValue (ApplyOptions.Filenames opts));
          ("local", slog.BoolValue (ApplyOptions.Local_ opts))] ;;
    let args := ["apply"] in
    let args :=
      fold_left (fun args filename => args ++ ["-f"; filename])
                (ApplyOptions.Filenames opts) args in
    let args :=
      if ApplyOptions.Recursive opts then args ++ ["--recursive"] else args in
    let args :=
      if negb (String.eqb (ApplyOptions.Selector opts) "")
      then args ++ ["--selector"; ApplyOptions.Selector opts] else args in
    let args :=
      if negb (String.eqb (ApplyOptions.BaseImage opts) "")
      then args ++ ["--base-import-paths"; ApplyOptions.BaseImage opts]
      else args in
    let args :=
      fold_left (fun args platform => args ++ ["--platform"; platform])
                (ApplyOptions.Platform opts) args in
    let args := if ApplyOptions.Local_ opts then args ++ ["--local"] else args in
    let args := if ApplyOptions.Bare opts then args ++ ["--bare"] else args in
    let args :=
      if ApplyOptions.PreserveImportPaths opts
      then args ++ ["--preserve-import-paths"] else args in
    err <- Executor_Run (executor k) "ko" false args ;;
    match err with
    | Some e => ret (Some e)
    | None =>
        Info "✅ Images built and manifests applied"
             [("duration", slog.DurationValue)] ;;
        ret None
    end.

Module DeleteOptions.
Record t : Type := mk {
  Filenames : list string;
  Recursive : bool;
  Selector : string
}.
End DeleteOptions.

Definition Delete (k : KoRunner) (opts : DeleteOptions.t) : M (option error) :=
  if Nat.eqb (List.length (DeleteOptions.Filenames opts)) 0 then
    ret (Some (Errorf "at least one filename is required" []))
  else
    Info "🗑️  Deleting resources with ko..."
         [("files", slog.StringsValue (DeleteOptions.Filenames opts))] ;;
    let args := ["delete"] in
    let args :=
      fold_left (fun args filename => args ++ ["-f"; filename])
                (DeleteOptions.Filenames opts) args in
    let args :=
      if DeleteOptions.Recursive opts then args ++ ["--recursive"] else args in
    let args :=
      if negb (String.eqb (DeleteOptions.Selector opts) "")
      then args ++ ["--selector"; DeleteOptions.Selector opts] else args in
    err <- Executor_Run (executor k) "ko" false args ;;
    match err with
    | Some e => ret (Some e)
    | None =>
        Info "✅ Resources deleted" [("duration", slog.DurationValue)] ;;
        ret None
    end.

Definition Resolve (k : KoRunner) (importPaths : list string)
           (args : list string) : M (option error) :=
  if Nat.eqb (List.length importPaths) 0 then
    ret (Some (Errorf "at least one import path is required" []))
  else
    Info "🔍 Resolving import paths..."
         [("paths", slog.StringsValue importPaths)] ;;
    let cmdArgs := ["resolve"] in
    let cmdArgs := cmdArgs ++ args in
    let cmdArgs := cmdArgs ++ importPaths in
    err <- Executor_Run (executor k) "ko" false cmdArgs ;;
    match err with
    | Some e => ret (Some e)
    | None =>
        Info "✅ Import paths resolved" [("duration", slog.DurationValue)] ;;
        ret None
    end.

Definition Publish (k : KoRunner) (importPath : string)
           (args : list string) : M (option error) :=
  if String.eqb importPath "" then
    ret (Some (Errorf "import path is required" []))
  else
    Info "📤 Publishing image..." [("importPath", slog.StringValue importPath)] ;;
    let cmdArgs := ["publish"; importPath] in
    let cmdArgs := cmdArgs ++ args in
    err <- Executor_Run (executor k) "ko" false cmdArgs ;;
    match err with
    | Some e => ret (Some e)
    | None =>
        Info "✅ Image published" [("duration", slog.DurationValue)] ;;
        ret None
    end.

End kox.

(** ** Package [helmx] *)

Module helmx.

Record HelmRunner : Type := mkHelmRunner { executor : Executor }.

Module InstallOptions.
Record t : Type := mk {
  ReleaseName : string;
  Chart : string;
  Namespace : string;
  Values : list string;
  Set_ : list string;            (* the field [Set] *)
  CreateNamespace : bool;
  Wait : bool;
  Timeout_ : string              (* the field [Timeout] *)
}.
End InstallOptions.

Definition Install (h : HelmRunner) (opts : InstallOptions.t)
  : M (option error) :=
  if String.eqb (InstallOptions.ReleaseName opts) "" then
    ret (Some (Errorf "release name is required" []))
  else if String.eqb (InstallOptions.Chart opts) "" then
    ret (Some (Errorf "chart is required" []))
  else
    Info "📦 Installing Helm chart..."
         [("release", slog.StringValue (InstallOptions.ReleaseName opts));
          ("chart", slog.StringValue (InstallOptions.Chart opts));
          ("namespace", slog.StringValue (InstallOptions.Namespace opts))] ;;
    let args :=
      ["install"; InstallOptions.ReleaseName opts; InstallOptions.Chart opts] in
    let args :=
      if negb (String.eqb (InstallOptions.Namespace opts) "")
      then args ++ ["--namespace"; InstallOptions.Namespace opts] else args in
    let args :=
      if InstallOptions.CreateNamespace opts
      then args ++ ["--create-namespace"] else args in
    let args :=
      fold_left (fun args valuesFile => args ++ ["--values"; valuesFile])
                (InstallOptions.Values opts) args in
    let args :=
      fold_left (fun args setValue => args ++ ["--set"; setValue])
                (InstallOptions.Set_ opts) args in
    let args := if InstallOptions.Wait opts then args ++ ["--wait"] else args in
    let args :=
      if negb (String.eqb (InstallOptions.Timeout_ opts) "")
      then args ++ ["--timeout"; InstallOptions.Timeout_ opts] else args in
    err <- Executor_Run (executor h) "helm" false args ;;
    match err with
    | Some e => ret (Some e)
    | None =>
        Info "✅ Helm chart installed" [("duration", slog.DurationValue)] ;;
        ret None
    end.

Module UpgradeOptions.
Record t : Type := mk {
  ReleaseName : string;
  Chart : string;
  Namespace : string;
  Values : list string;
  Set_ : list string;            (* the field [Set] *)
  Install : bool;
  Wait : bool;
  Timeout_ : string              (* the field [Timeout] *)
}.
End UpgradeOptions.

Definition Upgrade (h : HelmRunner) (opts : UpgradeOptions.t)
  : M (option error) :=
  if String.eqb (UpgradeOptions.ReleaseName opts) "" then
    ret (Some (Errorf "release name is required" []))
  else if String.eqb (UpgradeOptions.Chart opts) "" then
    ret (Some (Errorf "chart is required" []))
  else
    Info "🔄 Upgrading Helm release..."
         [("release", slog.StringValue (UpgradeOptions.ReleaseName opts));
          ("chart", slog.StringValue (UpgradeOptions.Chart opts));
          ("namespace", slog.StringValue (UpgradeOptions.Namespace opts))] ;;
    let args :=
      ["upgrade"; UpgradeOptions.ReleaseName opts; UpgradeOptions.Chart opts] in
    let args :=
      if negb (String.eqb (UpgradeOptions.Namespace opts) "")
      then args ++ ["--namespace"; UpgradeOptions.Namespace opts] else args in
    let args :=
      if UpgradeOptions.Install opts then args ++ ["--install"] else args in
    let args :=
      fold_left (fun args valuesFile => args ++ ["--values"; valuesFile])
                (UpgradeOptions.Values opts) args in
    let args :=
      fold_left (fun args setValue => args ++ ["--set"; setValue])
                (UpgradeOptions.Set_ opts) args in
    let args := if UpgradeOptions.Wait opts then args ++ ["--wait"] else args in
    let args :=
      if negb (String.eqb (UpgradeOptions.Timeout_ opts) "")
      then args ++ ["--timeout"; UpgradeOptions.Timeout_ opts] else args in
    err <- Executor_Run (executor h) "helm" false args ;;
    match err with
    | Some e => ret (Some e)
    | None =>
        Info "✅ Helm release upgraded" [("duration", slog.DurationValue)] ;;
        ret None
    end.

Definition Uninstall (h : HelmRunner) (releaseName namespace : string)
           (args : list string)
  : M (option error) :=
  if String.eqb releaseName "" then
    ret (Some (Errorf "release name is required" []))
  else
  Info "🗑️  Uninstalling Helm release..."
       [("release", slog.StringValue releaseName);
    ("namespace", slog.StringValue namespace)] ;;
  let cmdArgs := ["uninstall"; releaseName] in
  let cmdArgs := if negb (String.eqb namespace "")
    then cmdArgs ++ ["--namespace"; namespace] else cmdArgs in
  let cmdArgs := cmdArgs ++ args in
  err <- Executor_Run (executor h) "helm" false cmdArgs ;;
  match err with
  | Some e => ret (Some e)
  | None =>
      Info "✅ Helm release uninstalled" [("duration", slog.DurationValue)] ;;
      ret None
  end.

Definition List (h : HelmRunner) (namespace : string) (args : list string)
  : M (option error) :=
  Info "📋 Listing Helm releases..."
       [("namespace", slog.StringValue namespace)] ;;
  let cmdArgs := ["list"] in
  let cmdArgs := if negb (String.eqb namespace "")
    then cmdArgs ++ ["--namespace"; namespace]
    else cmdArgs ++ ["--all-namespaces"] in
  let cmdArgs := cmdArgs ++ args in
  err <- Executor_Run (executor h) "helm" false cmdArgs ;;
  match err with
  | Some e => ret (Some e)
  | None =>
      Info "✅ Helm releases listed" [("duration", slog.DurationValue)] ;;
      ret None
  end.

Definition Status (h : HelmRunner) (releaseName namespace : string)
           (args : list string)
  : M (option error) :=
  if String.eqb releaseName "" then
    ret (Some (Errorf "release name is required" []))
  else
  Info "📊 Getting Helm release status..."
       [("release", slog.StringValue releaseName);
    ("namespace", slog.StringValue namespace)] ;;
  let cmdArgs := ["status"; releaseName] in
  let cmdArgs := if negb (String.eqb namespace "")
    then cmdArgs ++ ["--namespace"; namespace] else cmdArgs in
  let cmdArgs := cmdArgs ++ args in
  err <- Executor_Run (executor h) "helm" false cmdArgs ;;
  match err with
  | Some e => ret (Some e)
  | None =>
      Info "✅ Helm release status retrieved" [("duration", slog.DurationValue)] ;;
      ret None
  end.

Definition Template (h : HelmRunner) (releaseName chart : string)
           (args : list string)
  : M (option error) :=
  if String.eqb releaseName "" then
    ret (Some (Errorf "release name is required" []))
  else
  if String.eqb chart "" then
    ret (Some (Errorf "chart is required" []))
  else
  Info "📝 Rendering Helm templates..."
       [("release", slog.StringValue releaseName);
    ("chart", slog.StringValue chart)] ;;
  let cmdArgs := ["template"; releaseName; chart] in
  let cmdArgs := cmdArgs ++ args in
  err <- Executor_Run (executor h) "helm" false cmdArgs ;;
  match err with
  | Some e => ret (Some e)
  | None =>
      Info "✅ Helm templates rendered" [("duration", slog.DurationValue)] ;;
      ret None
  end.

Definition Lint (h : HelmRunner) (chart : string) (args : list string)
  : M (option error) :=
  if String.eqb chart "" then
    ret (Some (Errorf "chart path is required" []))
  else
  Info "🔍 Linting Helm chart..."
       [("chart", slog.StringValue chart)] ;;
  let cmdArgs := ["lint"; chart] in
  let cmdArgs := cmdArgs ++ args in
  err <- Executor_Run (executor h) "helm" false cmdArgs ;;
  match err with
  | Some e => ret (Some e)
  | None =>
      Info "✅ Helm chart linted" [("duration", slog.DurationValue)] ;;
      ret None
  end.

Definition Package (h : HelmRunner) (chart : string) (args : list string)
  : M (option error) :=
  if String.eqb chart "" then
    ret (Some (Errorf "chart path is required" []))
  else
  Info "📦 Packaging Helm chart..."
       [("chart", slog.StringValue chart)] ;;
  let cmdArgs := ["package"; chart] in
  let cmdArgs := cmdArgs ++ args in
  err <- Executor_Run (executor h) "helm" false cmdArgs ;;
  match err with
  | Some e => ret (Some e)
  | None =>
      Info "✅ Helm chart packaged" [("duration", slog.DurationValue)] ;;
      ret None
  end.

Definition RepoAdd (h : HelmRunner) (name url : string) (args : list string)
  : M (option error) :=
  if String.eqb name "" then
    ret (Some (Errorf "repository name is required" []))
  else
  if String.eqb url "" then
    ret (Some (Errorf "repository URL is required" []))
  else
  Info "➕ Adding Helm repository..."
       [("name", slog.StringValue name);
    ("url", slog.StringValue url)] ;;
  let cmdArgs := ["repo"; "add"; name; url] in
  let cmdArgs := cmdArgs ++ args in
  err <- Executor_Run (executor h) "helm" false cmdArgs ;;
  match err with
  | Some e => ret (Some e)
  | None =>
      Info "✅ Helm repository added" [("duration", slog.DurationValue)] ;;
      ret None
  end.


End helmx.

(** * Properties *)

(** ** Sequences of executor calls *)

(** The answer of the executor to the [i]-th call of a plan, when the calls
    before it have been made on top of the history [h]. *)
Definition answer (ex : Executor) (h plan : list Call) (i : nat) : option error :=
  match nth_error plan i with
  | Some c => ex (h ++ firstn i plan) c
  | None => None
  end.

(** [out] is the outcome of running the calls of [plan] in order from the
    world [w], stopping at the first call that fails: exactly the first [n]
    calls were made, all but the last of them succeeded, and the result is
    either nil after the whole plan succeeded or the wrapping of the error
    of the [n]-th call. *)
Definition stops_at_first_failure (ex : Executor) (plan : list Call)
           (wrap : nat -> error -> error) (w : World)
           (out : option error * World) : Prop :=
  exists n : nat,
    (n <= List.length plan)%nat /\
    ran (snd out) = ran w ++ firstn n plan /\
    (forall i, (i + 1 < n)%nat -> answer ex (ran w) plan i = None) /\
    match fst out with
    | None =>
        n = List.length plan /\
        (forall i, (i < n)%nat -> answer ex (ran w) plan i = None)
    | Some e =>
        exists e0, (0 < n)%nat /\
                   answer ex (ran w) plan (n - 1) = Some e0 /\
                   e = wrap (n - 1)%nat e0
    end.

Lemma answer_cons ex h c plan i :
  answer ex h (c :: plan) (S i) = answer ex (h ++ [c]) plan i.
Proof.
  unfold answer. simpl. destruct (nth_error plan i); [|reflexivity].
  now rewrite <- app_assoc.
Qed.

Lemma answer_head ex h c plan : answer ex h (c :: plan) 0 = ex h c.
Proof. unfold answer. simpl. now rewrite app_nil_r. Qed.

Lemma stops_at_first_failure_cons_ok ex c plan wrap w w1 out :
  ex (ran w) c = None ->
  ran w1 = ran w ++ [c] ->
  stops_at_first_failure ex plan (fun i => wrap (S i)) w1 out ->
  stops_at_first_failure ex (c :: plan) wrap w out.
Proof.
  intros Hc Hw (n & Hn & Hran & Hbefore & Hres).
  exists (S n). repeat split.
  - simpl. lia.
  - rewrite Hran, Hw. simpl. now rewrite <- app_assoc.
  - intros [|i] Hi; [now rewrite answer_head|].
    rewrite answer_cons, <- Hw. apply Hbefore. lia.
  - destruct (fst out) as [e|].
    + destruct Hres as (e0 & Hpos & Hans & He). exists e0.
      split; [lia|].
      replace (S n - 1)%nat with (S (n - 1)) by lia.
      rewrite answer_cons, <- Hw. now split.
    + destruct Hres as [Hlen Hall]. split; [simpl; congruence|].
      intros [|i] Hi; [now rewrite answer_head|].
      rewrite answer_cons, <- Hw. apply Hall. lia.
Qed.

Lemma stops_at_first_failure_cons_err ex c plan wrap w w1 e0 :
  ex (ran w) c = Some e0 ->
  ran w1 = ran w ++ [c] ->
  stops_at_first_failure ex (c :: plan) wrap w (Some (wrap 0%nat e0), w1).
Proof.
  intros Hc Hw. exists 1%nat. repeat split.
  - simpl. lia.
  - simpl. now rewrite Hw.
  - intros i Hi. lia.
  - simpl. exists e0. repeat split; [lia|]. now rewrite answer_head.
Qed.

Lemma stops_at_first_failure_nil ex wrap w :
  stops_at_first_failure ex [] wrap w (None, w).
Proof.
  exists 0%nat. simpl. rewrite app_nil_r.
  repeat split; intros; lia.
Qed.

(** The loop of [RunInstall]. *)
Lemma install_loop_sequenced ex args pkgs :
  forall (wrap : nat -> error -> error) w,
    (forall i pkg e, nth_error pkgs i = Some pkg ->
                     wrap i e = Errorf_w "failed to install %s: %w" [pkg] e) ->
    stops_at_first_failure ex
      (map (fun pkg => mkCall "go" false (["install"; pkg] ++ args)) pkgs)
      wrap w
      (for_range pkgs (fun pkg =>
         let cmdArgs := ["install"; pkg] ++ args in
         err <- Executor_Run ex "go" false cmdArgs ;;
         match err with
         | Some e => ret (Some (Errorf_w "failed to install %s: %w" [pkg] e))
         | None => ret None
         end) w).
Proof.
  induction pkgs as [|pkg rest IH]; intros wrap w Hwrap.
  - apply stops_at_first_failure_nil.
  - cbn [for_range map]. unfold bind at 1. unfold bind at 1.
    unfold Executor_Run at 1.
    destruct (ex (ran w) (mkCall "go" false (["install"; pkg] ++ args)))
      as [e0|] eqn:Hans.
    + unfold ret. rewrite <- (Hwrap 0%nat pkg e0 eq_refl).
      now apply stops_at_first_failure_cons_err.
    + apply stops_at_first_failure_cons_ok
        with (w1 := mkWorld (logged w)
                            (ran w ++ [mkCall "go" false (["install"; pkg] ++ args)])
                            (mkdirs w));
        [exact Hans|reflexivity|].
      apply IH. intros i p e Hi. now apply (Hwrap (S i)).
Qed.

Lemma bind_eq {A B} (c : M A) (k : A -> M B) (w : World) :
  bind c k w = k (fst (c w)) (snd (c w)).
Proof. unfold bind. now destruct (c w). Qed.

Lemma stops_at_first_failure_ext ex plan wrap w w0 out out0 :
  ran w = ran w0 -> fst out = fst out0 -> ran (snd out) = ran (snd out0) ->
  stops_at_first_failure ex plan wrap w0 out0 ->
  stops_at_first_failure ex plan wrap w out.
Proof.
  unfold stops_at_first_failure. intros -> -> ->. exact (fun H => H).
Qed.

(** C8: the multi-step routines run their steps in order and stop at the
    first failing one.  [RunModTasks] runs [go mod tidy] and then
    [go mod verify]; [RunInstall] installs the packages in the order given.
    In both, the calls made are a prefix of the planned calls, every call
    but the last made succeeded, and the result is nil when the whole plan
    succeeded and otherwise the wrapped error of the call that failed, after
    which no later step is run. *)
Theorem multi_step_routines_stop_at_first_failure :
  forall (ex : Executor) (w : World),
    stops_at_first_failure ex
      [mkCall "go" false ["mod"; "tidy"]; mkCall "go" false ["mod"; "verify"]]
      (fun i e => Errorf_w "failed to run 'go %s': %w"
                           [nth i ["mod tidy"; "mod verify"] ""] e)
      w (golang.RunModTasks (golang.mkGoRunner ex) w)
    /\
    (forall pkgs args, pkgs <> [] ->
       stops_at_first_failure ex
         (map (fun pkg => mkCall "go" false ("install" :: pkg :: args)) pkgs)
         (fun i e => Errorf_w "failed to install %s: %w" [nth i pkgs ""] e)
         w (golang.RunInstall (golang.mkGoRunner ex) pkgs args w)).
Proof.
  intros ex w. split.
  - unfold golang.RunModTasks. cbn [for_range golang.executor].
    unfold bind, Info, Executor_Run, ret. cbn [ran logged mkdirs].
    destruct (ex (ran w) (mkCall "go" false ["mod"; "tidy"])) as [e1|] eqn:H1;
      cbn -[answer].
    + exists 1%nat. cbn -[answer]. repeat split; try lia.
      exists e1. repeat split; try lia. now rewrite answer_head.
    + destruct (ex (ran w ++ [mkCall "go" false ["mod"; "tidy"]])
                   (mkCall "go" false ["mod"; "verify"])) as [e2|] eqn:H2;
        cbn -[answer].
      * exists 2%nat. cbn -[answer]. repeat split; try lia.
        -- now rewrite <- app_assoc.
        -- intros [|i] Hi; [now rewrite answer_head|lia].
        -- exists e2. repeat split; try lia.
           now rewrite answer_cons, answer_head.
      * exists 2%nat. cbn -[answer]. repeat split; try lia.
        -- now rewrite <- app_assoc.
        -- intros [|i] Hi; [now rewrite answer_head|lia].
        -- intros [|[|i]] Hi; [now rewrite answer_head| |lia].
           now rewrite answer_cons, answer_head.
  - intros pkgs args Hne. unfold golang.RunInstall.
    destruct pkgs as [|p ps]; [congruence|]. cbn [List.length Nat.eqb].
    cbn [golang.executor]. rewrite !bind_eq. cbn [Info fst snd].
    match goal with
    | |- context [for_range ?l ?b ?w1] =>
        pose proof (install_loop_sequenced ex args l
                      (fun i e => Errorf_w "failed to install %s: %w"
                                           [nth i l ""] e) w1) as Hloop;
        destruct (for_range l b w1) as [r w2]
    end.
    eapply stops_at_first_failure_ext; [| | |apply Hloop].
    + reflexivity.
    + destruct r; reflexivity.
    + destruct r; reflexivity.
    + intros i pkg e Hi. f_equal. f_equal. now apply nth_error_nth.
Qed.

(** A run of [RunInstall] on two packages. *)
Lemma multi_step_routines_stop_at_first_failure_witness :
  stops_at_first_failure (fun _ _ => None)
    (map (fun pkg => mkCall "go" false ("install" :: pkg :: ["-v"])) ["a"; "b"])
    (fun i e => Errorf_w "failed to install %s: %w" [nth i ["a"; "b"] ""] e)
    (mkWorld [] [] [])
    (golang.RunInstall (golang.mkGoRunner (fun _ _ => None)) ["a"; "b"] ["-v"]
                       (mkWorld [] [] [])).
Proof.
  apply (proj2 (multi_step_routines_stop_at_first_failure
                  (fun _ _ => None) (mkWorld [] [] []))).
  discriminate.
Defined.

(** ** Validation of required fields *)

(** The operation [c] is refused by validation: from every world it
    returns a fresh error and leaves the world as it was, so nothing has
    been logged and [Executor.Run] has not been called. *)
Definition validation_error (c : M (option error)) : Prop :=
  forall w : World, exists msg : string, c w = (Some (Errorf msg []), w).

Ltac refuse :=
  intros; intro w;
  repeat match goal with
         | H : _ = "" |- _ => rewrite H; clear H
         | H : _ = @nil _ |- _ => rewrite H; clear H
         end;
  cbn;
  repeat match goal with
         | |- context [String.eqb ?x ""] => destruct (String.eqb x "")
         end;
  eexists; reflexivity.

(** C7: every operation with a required field returns a validation error
    when that field is empty, before it logs anything and before it calls
    the executor: the world, and with it the list of executor calls, is
    unchanged.  This covers the operations of [kox] ([Build], [Apply],
    [Delete], [Resolve], [Publish]), of [helmx] ([Install], [Upgrade],
    [Uninstall], [Status], [Template], [Lint], [Package], [RepoAdd]) and of
    [golang] ([RunInstall], [RunBuild]). *)
Theorem validation_precedes_execution :
  forall ex : Executor,
    (forall opts, kox.BuildOptions.ImportPath opts = "" ->
                  validation_error (kox.Build (kox.mkKoRunner ex) opts)) /\
    (forall opts, kox.ApplyOptions.Filenames opts = [] ->
                  validation_error (kox.Apply (kox.mkKoRunner ex) opts)) /\
    (forall opts, kox.DeleteOptions.Filenames opts = [] ->
                  validation_error (kox.Delete (kox.mkKoRunner ex) opts)) /\
    (forall args, validation_error (kox.Resolve (kox.mkKoRunner ex) [] args)) /\
    (forall args, validation_error (kox.Publish (kox.mkKoRunner ex) "" args)) /\
    (forall opts, helmx.InstallOptions.ReleaseName opts = "" \/
                  helmx.InstallOptions.Chart opts = "" ->
                  validation_error (helmx.Install (helmx.mkHelmRunner ex) opts)) /\
    (forall opts, helmx.UpgradeOptions.ReleaseName opts = "" \/
                  helmx.UpgradeOptions.Chart opts = "" ->
                  validation_error (helmx.Upgrade (helmx.mkHelmRunner ex) opts)) /\
    (forall ns args,
        validation_error (helmx.Uninstall (helmx.mkHelmRunner ex) "" ns args)) /\
    (forall ns args,
        validation_error (helmx.Status (helmx.mkHelmRunner ex) "" ns args)) /\
    (forall rel chart args, rel = "" \/ chart = "" ->
        validation_error (helmx.Template (helmx.mkHelmRunner ex) rel chart args)) /\
    (forall args, validation_error (helmx.Lint (helmx.mkHelmRunner ex) "" args)) /\
    (forall args, validation_error (helmx.Package (helmx.mkHelmRunner ex) "" args)) /\
    (forall name url args, name = "" \/ url = "" ->
        validation_error (helmx.RepoAdd (helmx.mkHelmRunner ex) name url args)) /\
    (forall args, validation_error (golang.RunInstall (golang.mkGoRunner ex) [] args)) /\
    (forall join mkdir opts, golang.Binary opts = "" ->
        validation_error (golang.RunBuild join mkdir (golang.mkGoRunner ex) opts)).
Proof.
  intro ex.
  repeat match goal with |- _ /\ _ => split end.
  - unfold kox.Build; refuse.
  - unfold kox.Apply; refuse.
  - unfold kox.Delete; refuse.
  - unfold kox.Resolve; refuse.
  - unfold kox.Publish; refuse.
  - unfold helmx.Install; intros opts [H|H]; revert H; refuse.
  - unfold helmx.Upgrade; intros opts [H|H]; revert H; refuse.
  - unfold helmx.Uninstall; refuse.
  - unfold helmx.Status; refuse.
  - unfold helmx.Template; intros rel chart args [H|H]; revert H; refuse.
  - unfold helmx.Lint; refuse.
  - unfold helmx.Package; refuse.
  - unfold helmx.RepoAdd; intros name url args [H|H]; revert H; refuse.
  - unfold golang.RunInstall; refuse.
  - unfold golang.RunBuild; refuse.
Qed.

(** The three operations the claim names, each at an input with the
    required field empty. *)
Lemma validation_precedes_execution_witness :
  validation_error
    (kox.Build (kox.mkKoRunner (fun _ _ => None))
               (kox.BuildOptions.mk "" ["latest"] [] "" false true false false)) /\
  validation_error
    (helmx.Install (helmx.mkHelmRunner (fun _ _ => None))
                   (helmx.InstallOptions.mk "example" "" "default" [] [] true
                                            true "")) /\
  validation_error (golang.RunInstall (golang.mkGoRunner (fun _ _ => None)) [] []).
Proof.
  destruct (validation_precedes_execution (fun _ _ => None))
    as (HBuild & _ & _ & _ & _ & HInstall & _ & _ & _ & _ & _ & _ & _ &
        HRunInstall & _).
  split; [apply HBuild; reflexivity|].
  split; [apply HInstall; right; reflexivity|].
  apply HRunInstall.
Defined.

(** ** The argument list of [ko] *)

(** [x] immediately followed by [y] somewhere in [l]. *)
Definition adjacent {A} (x y : A) (l : list A) : Prop :=
  exists pre post, l = pre ++ x :: y :: post.

(** The single executor call of an operation that passed validation. *)
Definition calls_once (c : M (option error)) (w : World) (call : Call) : Prop :=
  ran (snd (c w)) = ran w ++ [call].

Lemma adjacent_app_r {A} (x y : A) l m : adjacent x y l -> adjacent x y (l ++ m).
Proof.
  intros (pre & post & ->). exists pre, (post ++ m).
  now rewrite <- app_assoc.
Qed.

Lemma adjacent_if {A} (x y : A) (b : bool) l m :
  adjacent x y l -> adjacent x y (if b then l ++ m else l).
Proof. destruct b; [apply adjacent_app_r|exact (fun H => H)]. Qed.

Lemma fold_left_append {A B} (g : B -> list A) (xs : list B) :
  forall init, fold_left (fun a x => a ++ g x) xs init = init ++ flat_map g xs.
Proof.
  induction xs as [|x xs IH]; intro init; simpl.
  - now rewrite app_nil_r.
  - now rewrite IH, <- app_assoc.
Qed.

Lemma adjacent_fold_left {A B} (x y : A) (g : B -> list A) xs init :
  adjacent x y init -> adjacent x y (fold_left (fun a b => a ++ g b) xs init).
Proof. intro H. rewrite fold_left_append. now apply adjacent_app_r. Qed.

Lemma adjacent_here {A} (x y : A) l : adjacent x y (l ++ [x; y]).
Proof. now exists l, []. Qed.

Lemma eqb_empty_false s : s <> "" -> String.eqb s "" = false.
Proof. intro H. now apply String.eqb_neq. Qed.

(** The executor call of an operation that passed validation does not
    depend on what the executor answers. *)
Lemma ran_after_call ex cmd argv (k : option error -> M (option error)) w :
  (forall o w', ran (snd (k o w')) = ran w') ->
  ran (snd (bind (Executor_Run ex cmd false argv) k w))
  = ran w ++ [mkCall cmd false argv].
Proof. intro Hk. rewrite bind_eq. now rewrite Hk. Qed.

(** C9: when [Build] or [Apply] invokes [ko] (that is, once validation has
    passed), a non-empty [BaseImage] appears in the argument list as the
    adjacent pair [--base-import-paths], value; independently,
    [PreserveImportPaths] set puts [--preserve-import-paths] at the end of
    the list. *)
Theorem base_image_is_passed_as_base_import_paths :
  forall (ex : Executor) (w : World),
    (forall opts, kox.BuildOptions.ImportPath opts <> "" ->
       exists argv,
         calls_once (kox.Build (kox.mkKoRunner ex) opts) w (mkCall "ko" false argv) /\
         (kox.BuildOptions.BaseImage opts <> "" ->
          adjacent "--base-import-paths" (kox.BuildOptions.BaseImage opts) argv) /\
         (kox.BuildOptions.PreserveImportPaths opts = true ->
          exists pre, argv = pre ++ ["--preserve-import-paths"])) /\
    (forall opts, kox.ApplyOptions.Filenames opts <> [] ->
       exists argv,
         calls_once (kox.Apply (kox.mkKoRunner ex) opts) w (mkCall "ko" false argv) /\
         (kox.ApplyOptions.BaseImage opts <> "" ->
          adjacent "--base-import-paths" (kox.ApplyOptions.BaseImage opts) argv) /\
         (kox.ApplyOptions.PreserveImportPaths opts = true ->
          exists pre, argv = pre ++ ["--preserve-import-paths"])).
Proof.
  intros ex w. split; intros opts Hvalid.
  - unfold kox.Build, calls_once. rewrite (eqb_empty_false _ Hvalid).
    cbn [kox.executor]. eexists. split; [|split].
    + rewrite bind_eq. cbn [Info fst snd]. rewrite ran_after_call.
      * reflexivity.
      * intros [e|] w'; reflexivity.
    + intro Hbase. rewrite (eqb_empty_false _ Hbase). cbn [negb].
      repeat apply adjacent_if. apply adjacent_here.
    + intros ->. eexists. reflexivity.
  - unfold kox.Apply, calls_once.
    destruct (kox.ApplyOptions.Filenames opts) as [|f fs] eqn:Hf; [congruence|].
    cbn [List.length Nat.eqb kox.executor]. eexists. split; [|split].
    + rewrite bind_eq. cbn [Info fst snd]. rewrite ran_after_call.
      * reflexivity.
      * intros [e|] w'; reflexivity.
    + intro Hbase. rewrite (eqb_empty_false _ Hbase). cbn [negb].
      repeat apply adjacent_if. apply adjacent_fold_left. apply adjacent_here.
    + intros ->. eexists. reflexivity.
Qed.

(** [Build] and [Apply] with a base image and preserved import paths. *)
Lemma base_image_is_passed_as_base_import_paths_witness :
  (exists argv,
     calls_once (kox.Build (kox.mkKoRunner (fun _ _ => None))
                   (kox.BuildOptions.mk "./cmd/app" ["latest"] ["linux/amd64"]
                                        "distroless" false true false true))
                (mkWorld [] [] []) (mkCall "ko" false argv) /\
     adjacent "--base-import-paths" "distroless" argv /\
     exists pre, argv = pre ++ ["--preserve-import-paths"]) /\
  (exists argv,
     calls_once (kox.Apply (kox.mkKoRunner (fun _ _ => None))
                   (kox.ApplyOptions.mk ["k8s/deployment.yaml"] false ""
                                        "distroless" ["linux/amd64"] false false
                                        true))
                (mkWorld [] [] []) (mkCall "ko" false argv) /\
     adjacent "--base-import-paths" "distroless" argv /\
     exists pre, argv = pre ++ ["--preserve-import-paths"]).
Proof.
  destruct (base_image_is_passed_as_base_import_paths
              (fun _ _ => None) (mkWorld [] [] [])) as [HBuild HApply].
  split.
  - destruct (HBuild (kox.BuildOptions.mk "./cmd/app" ["latest"] ["linux/amd64"]
                        "distroless" false true false true))
      as (argv & Hcall & Hbase & Hpres); [discriminate|].
    exists argv. split; [exact Hcall|].
    split; [apply Hbase; discriminate|apply Hpres; reflexivity].
  - destruct (HApply (kox.ApplyOptions.mk ["k8s/deployment.yaml"] false ""
                        "distroless" ["linux/amd64"] false false true))
      as (argv & Hcall & Hbase & Hpres); [discriminate|].
    exists argv. split; [exact Hcall|].
    split; [apply Hbase; discriminate|apply Hpres; reflexivity].
Defined.

(** ** The calling goroutine of [Exec.Run] *)

Import execx.

(** Number of steps the schedule gives to the goroutine that calls [Run]. *)
Fixpoint caller_steps (sched : list Label) : nat :=
  match sched with
  | [] => 0
  | Go Caller :: rest => S (caller_steps rest)
  | _ :: rest => caller_steps rest
  end.

Lemma Label_is_caller (l : Label) : l = Go Caller \/ l <> Go Caller.
Proof. destruct l as [[| |]|cause]; (now left) || (right; discriminate). Qed.

Section Machine.

Variable creator : CommandCreator.
Variable command : string.
Variable streamToLog : bool.
Variable args : list string.

Local Notation "'run'" := (execx.run creator command streamToLog args).
Local Notation "'step'" := (execx.step creator command streamToLog args).
Local Notation "'cmd'" := (execx.cmd creator command args).

Lemma run_app sched1 sched2 s : run (sched1 ++ sched2) s = run sched2 (run sched1 s).
Proof. unfold execx.run. apply fold_left_app. Qed.

Lemma run_snoc sched l s : run (sched ++ [l]) s = step l (run sched s).
Proof. now rewrite run_app. Qed.

Lemma caller_steps_app sched1 sched2 :
  caller_steps (sched1 ++ sched2) = (caller_steps sched1 + caller_steps sched2)%nat.
Proof.
  induction sched1 as [|[[| |]|cause] rest IH]; simpl; auto.
Qed.

(** Induction on a schedule, one more step at its end. *)
Lemma schedule_ind (P : list Label -> State -> Prop) (s0 : State) :
  P [] s0 ->
  (forall sched l, P sched (run sched s0) ->
                   P (sched ++ [l]) (step l (run sched s0))) ->
  forall sched, P sched (run sched s0).
Proof.
  intros H0 Hstep sched. induction sched as [|l sched IH] using rev_ind.
  - exact H0.
  - rewrite run_snoc. now apply Hstep.
Qed.

(** Only the calling goroutine moves its own program point and calls the
    command; the consumers and the cancellation leave both alone. *)
Lemma step_other_caller l s :
  l <> Go Caller -> caller (step l s) = caller s /\ calls (step l s) = calls s.
Proof.
  destruct l as [[| |]|cause]; intro Hl; try congruence; simpl.
  - now destruct (drain_step (ctx_Err s) (stdout_drain s)).
  - now destruct (drain_step (ctx_Err s) (stderr_drain s)).
  - now destruct (ctx_Err s).
Qed.

Lemma step_returned l s r : caller s = Returned r -> caller (step l s) = Returned r.
Proof.
  intro H. destruct l as [[| |]|cause]; simpl.
  - unfold caller_step. now rewrite H.
  - now destruct (drain_step (ctx_Err s) (stdout_drain s)).
  - now destruct (drain_step (ctx_Err s) (stderr_drain s)).
  - now destruct (ctx_Err s).
Qed.

Lemma run_returned sched s r : caller s = Returned r -> caller (run sched s) = Returned r.
Proof.
  revert s. induction sched as [|l sched IH]; intros s H; [exact H|].
  simpl. apply IH. now apply step_returned.
Qed.

(** A consumer that has not been started does nothing. *)
Lemma step_drains_not_started l s :
  l <> Go Caller ->
  stdout_drain s = NotStarted -> stderr_drain s = NotStarted ->
  stdout_drain (step l s) = NotStarted /\ stderr_drain (step l s) = NotStarted /\
  effects (step l s) = effects s.
Proof.
  destruct l as [[| |]|cause]; intros Hl Ho He; try congruence; simpl.
  - rewrite Ho. simpl. now rewrite app_nil_r.
  - rewrite He. simpl. now rewrite app_nil_r.
  - now destruct (ctx_Err s).
Qed.

End Machine.

(** A step of a goroutine other than the caller, while no consumer has been
    started, changes nothing the caller or the observer can see. *)
Ltac idle_step Ho He :=
  match goal with
  | |- context [execx.step ?cr ?cm ?st ?ar ?l ?s] =>
      let H := fresh "Hl" in
      assert (H : l <> Go Caller) by discriminate;
      let Ho' := fresh "Ho'" in
      let He' := fresh "He'" in
      let Heff' := fresh "Heff'" in
      let Hc' := fresh "Hc'" in
      let Hcalls' := fresh "Hcalls'" in
      destruct (step_drains_not_started cr cm st ar l s H Ho He)
        as (Ho' & He' & Heff');
      destruct (step_other_caller cr cm st ar l s H) as (Hc' & Hcalls');
      rewrite ?Ho', ?He', ?Heff', ?Hc', ?Hcalls'
  end.

(** ** Failure before the command runs *)

(** What holds of a state when [Run] has given up with the error [wrapped]
    before calling the method [never] of the command: the method has not
    been called, no consumer has been launched, nothing has been logged or
    written, and the only result [Run] can have returned is [wrapped]. *)
Definition gave_up (never : Method) (wrapped : error) (s : State) : Prop :=
  ~ In never (calls s) /\
  stdout_drain s = NotStarted /\ stderr_drain s = NotStarted /\
  effects s = [] /\
  (forall r, caller s = Returned r -> r = Some wrapped).

(** The program point after [k] steps along the path [pcs] that ends in
    the return of [wrapped]. *)
Definition on_path (pcs : list CallerPc) (wrapped : error) (k : nat) : CallerPc :=
  nth k pcs (Returned (Some wrapped)).

Section SetupFailure.

Variable creator : CommandCreator.
Variable command : string.
Variable streamToLog : bool.
Variable args : list string.

Local Notation "'run'" := (execx.run creator command streamToLog args).
Local Notation "'step'" := (execx.step creator command streamToLog args).
Local Notation "'cmd'" := (execx.cmd creator command args).

Variable never : Method.
Variable wrapped : error.
Variable pcs : list CallerPc.

(** Each statement on the path leads to the next program point, touches
    neither the consumers nor the log, and does not call [never]. *)
Hypothesis path_step :
  forall k s, (k < List.length pcs)%nat -> caller s = on_path pcs wrapped k ->
    let s' := caller_step creator command streamToLog args s in
    caller s' = on_path pcs wrapped (S k) /\
    stdout_drain s' = stdout_drain s /\ stderr_drain s' = stderr_drain s /\
    effects s' = effects s /\
    (In never (calls s') -> In never (calls s)).

Hypothesis path_start : on_path pcs wrapped 0 = AtEntry.

Hypothesis path_result :
  forall k r, on_path pcs wrapped k = Returned r -> r = Some wrapped.

Lemma setup_failure sched :
  let s := run sched initial in
  gave_up never wrapped s /\ caller s = on_path pcs wrapped (caller_steps sched).
Proof.
  cbv zeta.
  set (P := fun (sched : list Label) (s : State) =>
              gave_up never wrapped s /\
              caller s = on_path pcs wrapped (caller_steps sched)).
  change (P sched (run sched initial)). apply schedule_ind; unfold P.
  - split; [|cbn [caller_steps]; now rewrite path_start].
    unfold gave_up. simpl. intuition congruence.
  - clear sched P. intros sched l ((Hcalls & Ho & He & Heff & Hret) & Hpc).
    rewrite caller_steps_app. unfold gave_up.
    destruct l as [[| |]|cause].
    2-4: idle_step Ho He; simpl caller_steps; rewrite Nat.add_0_r;
      repeat split; auto.
    simpl caller_steps. rewrite Nat.add_1_r. cbn [execx.step].
    destruct (Nat.lt_ge_cases (caller_steps sched) (List.length pcs)) as [Hk|Hk].
    + destruct (path_step _ _ Hk Hpc) as (Hpc' & Ho' & He' & Heff' & Hcalls').
      rewrite Hpc', Ho', He', Heff'. repeat split; auto.
      intros r Hr. now apply path_result in Hr.
    + assert (Hret' : caller (run sched initial) = Returned (Some wrapped)).
      { rewrite Hpc. unfold on_path. now apply nth_overflow. }
      unfold caller_step. rewrite Hret'.
      unfold on_path. rewrite nth_overflow by lia.
      repeat split; auto.
Qed.

End SetupFailure.

Ltac path_case :=
  cbn; repeat split; auto;
  try (rewrite in_app_iff; cbn; intuition congruence).

(** C10: when [StdoutPipe] or [StderrPipe] fails, [Run] returns the wrapped
    error without calling [Start]: under every schedule [Start] has not
    been called, no consumer has been launched and nothing has been logged
    or written; the only result [Run] returns is the wrapped error, and it
    has returned it once the calling goroutine has taken three steps. *)
Theorem pipe_failure_never_starts :
  forall creator command streamToLog args e sched wrapped,
    let c := execx.cmd creator command args in
    let s := execx.run creator command streamToLog args sched initial in
    (StdoutPipe c = inr e /\
     wrapped = Errorf_w "failed to get stdout pipe: %w" [] e) \/
    (StderrPipe c = inr e /\ (exists stdout, StdoutPipe c = inl stdout) /\
     wrapped = Errorf_w "failed to get stderr pipe: %w" [] e) ->
    gave_up CallStart wrapped s /\
    (3 <= caller_steps sched -> caller s = Returned (Some wrapped))%nat.
Proof.
  intros creator command streamToLog args e sched wrapped c s
         [[Hout ->]|(Herr & [stdout Hout] & ->)]; subst c s.
  - destruct (setup_failure creator command streamToLog args CallStart
                (Errorf_w "failed to get stdout pipe: %w" [] e)
                [AtEntry; AtStdoutPipe]) with (sched := sched) as [Hgave Hpc].
    + intros [|[|k]] s Hk Hs; [| |cbn in Hk; lia];
        unfold caller_step; rewrite Hs; cbn [on_path nth].
      * path_case.
      * rewrite Hout. path_case.
    + reflexivity.
    + intros [|[|[|k]]] r; cbn; congruence.
    + split; [exact Hgave|]. intro Hn. rewrite Hpc.
      unfold on_path. apply nth_overflow. cbn. lia.
  - destruct (setup_failure creator command streamToLog args CallStart
                (Errorf_w "failed to get stderr pipe: %w" [] e)
                [AtEntry; AtStdoutPipe; AtStderrPipe stdout])
      with (sched := sched) as [Hgave Hpc].
    + intros [|[|[|k]]] s Hk Hs; [| | |cbn in Hk; lia];
        unfold caller_step; rewrite Hs; cbn [on_path nth].
      * path_case.
      * rewrite Hout. path_case.
      * rewrite Herr. path_case.
    + reflexivity.
    + intros [|[|[|[|k]]]] r; cbn; congruence.
    + split; [exact Hgave|]. intro Hn. rewrite Hpc.
      unfold on_path. apply nth_overflow. cbn. lia.
Qed.

(** A run in which [StdoutPipe] fails at once. *)
Lemma pipe_failure_never_starts_witness :
  let creator : CommandCreator := fun _ _ =>
    mkCommander (inr (external_error "too many open files"))
                (inl (iox.mkReader [] io_EOF)) None None in
  let sched := [Go Caller; Go StdoutDrain; Go Caller; Cancel context_Canceled;
                Go Caller; Go StderrDrain] in
  let wrapped := Errorf_w "failed to get stdout pipe: %w" []
                          (external_error "too many open files") in
  let s := execx.run creator "ko" false ["build"] sched initial in
  gave_up CallStart wrapped s /\ caller s = Returned (Some wrapped).
Proof.
  cbv zeta.
  match goal with
  | |- gave_up _ ?w (execx.run ?cr ?cm ?st ?ar ?sc initial) /\ _ =>
      destruct (pipe_failure_never_starts cr cm st ar
                  (external_error "too many open files") sc w) as [Hgave Hret]
  end.
  - left. split; reflexivity.
  - split; [exact Hgave|]. apply Hret. cbn. lia.
Defined.

(** C3: when [Start] fails (the program cannot be found or spawned), [Run]
    returns an error that wraps the program name and the error of [Start].
    Under every schedule [Wait] has not been called, no consumer has been
    launched and nothing has been logged or written; the only result [Run]
    returns is that error (so never one of the run-failure form), and it
    has returned it once the calling goroutine has taken four steps. *)
Theorem start_failure_never_waits :
  forall creator command streamToLog args stdout stderr e sched,
    let c := execx.cmd creator command args in
    let s := execx.run creator command streamToLog args sched initial in
    let wrapped := Errorf_w "failed to start command %q: %w" [command] e in
    StdoutPipe c = inl stdout -> StderrPipe c = inl stderr -> Start c = Some e ->
    gave_up CallWait wrapped s /\
    (forall r e', caller s = Returned r ->
                  r <> Some (Errorf_w "command %q failed: %w" [command] e')) /\
    (4 <= caller_steps sched -> caller s = Returned (Some wrapped))%nat.
Proof.
  intros creator command streamToLog args stdout stderr e sched c s wrapped
         Hout Herr Hstart; subst c s wrapped.
  destruct (setup_failure creator command streamToLog args CallWait
              (Errorf_w "failed to start command %q: %w" [command] e)
              [AtEntry; AtStdoutPipe; AtStderrPipe stdout; AtStart stdout stderr])
    with (sched := sched) as [Hgave Hpc].
  - intros [|[|[|[|k]]]] s Hk Hs; [| | | |cbn in Hk; lia];
      unfold caller_step; rewrite Hs; cbn [on_path nth].
    + path_case.
    + rewrite Hout. path_case.
    + rewrite Herr. path_case.
    + rewrite Hstart. path_case.
  - reflexivity.
  - intros [|[|[|[|[|k]]]]] r; cbn; congruence.
  - split; [exact Hgave|]. split.
    + intros r e' Hr. destruct Hgave as (_ & _ & _ & _ & Hres).
      rewrite (Hres r Hr). discriminate.
    + intro Hn. rewrite Hpc. unfold on_path. apply nth_overflow. cbn. lia.
Qed.

(** [execute(ctx, "doesnotexist123")]. *)
Lemma start_failure_never_waits_witness :
  let notfound :=
    external_error "exec: doesnotexist123: executable file not found in $PATH" in
  let creator : CommandCreator := fun _ _ =>
    mkCommander (inl (iox.mkReader [] io_EOF)) (inl (iox.mkReader [] io_EOF))
                (Some notfound) (Some (external_error "exec: not started")) in
  let sched := [Go Caller; Go Caller; Go StdoutDrain; Go Caller; Go Caller;
                Go Caller; Go StderrDrain; Go Caller] in
  let wrapped := Errorf_w "failed to start command %q: %w" ["doesnotexist123"]
                          notfound in
  let s := execx.run creator "doesnotexist123" true [] sched initial in
  gave_up CallWait wrapped s /\ caller s = Returned (Some wrapped).
Proof.
  cbv zeta.
  match goal with
  | |- gave_up _ (Errorf_w _ _ ?e) (execx.run ?cr ?cm ?st ?ar ?sc initial) /\ _ =>
      destruct (start_failure_never_waits cr cm st ar
                  (iox.mkReader [] io_EOF) (iox.mkReader [] io_EOF) e sc
                  eq_refl eq_refl eq_refl) as (Hgave & _ & Hret)
  end.
  split; [exact Hgave|]. apply Hret. cbn. lia.
Defined.

(** ** After a successful start *)

(** A consumer that has been launched. *)
Definition launched (d : Drain) : Prop := d <> NotStarted.

Lemma drain_step_launched ctxErr d :
  fst (drain_step ctxErr d) = NotStarted <-> d = NotStarted.
Proof.
  destruct d as [|level sc|level sc|dst src|]; simpl;
    repeat match goal with
           | |- context [match ?x with _ => _ end] => destruct x
           | |- context [let (_, _) := ?x in _] => destruct x
           end;
    simpl; split; intro; congruence.
Qed.

Section Started.

Variable creator : CommandCreator.
Variable command : string.
Variable streamToLog : bool.
Variable args : list string.

Local Notation "'run'" := (execx.run creator command streamToLog args).
Local Notation "'step'" := (execx.step creator command streamToLog args).
Local Notation "'cmd'" := (execx.cmd creator command args).

Variables stdout stderr : iox.Reader.
Hypothesis pipe_out : StdoutPipe cmd = inl stdout.
Hypothesis pipe_err : StderrPipe cmd = inl stderr.
Hypothesis started : Start cmd = None.

(** The program points of [Run] up to the call of [Wait]. *)
Definition to_wait : list CallerPc :=
  [AtEntry; AtStdoutPipe; AtStderrPipe stdout; AtStart stdout stderr;
   AtGoStdout stdout stderr; AtGoStderr stderr; AtWait].

(** Where the caller and the consumers are after [k] steps of the caller:
    the consumer of standard output is launched by the fifth step, that of
    standard error by the sixth, and [Wait] is called by the seventh. *)
Definition progress (k : nat) (s : State) : Prop :=
  ((k < 7)%nat -> caller s = nth k to_wait AtWait) /\
  ((7 <= k)%nat -> (exists err, caller s = AtCtxErr err /\ Wait cmd = Some err) \/
                   (exists r, caller s = Returned r)) /\
  (stdout_drain s = NotStarted <-> (k < 5)%nat) /\
  (stderr_drain s = NotStarted <-> (k < 6)%nat) /\
  (In CallWait (calls s) <-> (7 <= k)%nat).

Lemma started_progress sched : progress (caller_steps sched) (run sched initial).
Proof.
  apply (schedule_ind creator command streamToLog args
           (fun sched s => progress (caller_steps sched) s)).
  - unfold progress. cbn. repeat split; intros; try lia; try tauto.
  - clear sched. intros sched l (Hpc & Hpast & Ho & He & Hw).
    rewrite caller_steps_app.
    destruct l as [[| |]|cause].
    + cbn [caller_steps]. rewrite Nat.add_1_r. cbn [execx.step].
      unfold progress, caller_step.
      destruct (Nat.lt_ge_cases (caller_steps sched) 7) as [Hk|Hk].
      * specialize (Hpc Hk). rewrite Hpc.
        destruct (caller_steps sched) as [|[|[|[|[|[|[|k]]]]]]];
          cbn [nth to_wait]; try lia;
          rewrite ?pipe_out, ?pipe_err, ?started;
          try match goal with
              | |- context [match Wait cmd with _ => _ end] =>
                  destruct (Wait cmd) as [err|] eqn:Hwait
              end;
          cbn; repeat split; intros; try lia; try reflexivity;
          try solve [apply Ho; lia | apply He; lia];
          try solve [match goal with
                     | H : stdout_drain _ = NotStarted |- _ => apply Ho in H; lia
                     | H : stderr_drain _ = NotStarted |- _ => apply He in H; lia
                     | H : In CallWait (calls _) |- _ => apply Hw in H; lia
                     end];
          try solve [destruct streamToLog; discriminate];
          try solve [rewrite in_app_iff in *; cbn in *;
                     intuition (try congruence; try lia)].
        -- left. now exists err.
        -- right. now exists None.
      * destruct (Hpast Hk) as [(err & Hc & Hwait)|(r & Hc)]; rewrite Hc;
          destruct (ctx_Err (run sched initial)); cbn;
          repeat split; intros; try lia;
          try solve [right; eexists; reflexivity];
          try solve [apply Ho; lia | apply He; lia];
          try solve [match goal with
                     | H : stdout_drain _ = NotStarted |- _ => apply Ho in H; lia
                     | H : stderr_drain _ = NotStarted |- _ => apply He in H; lia
                     | H : In CallWait (calls _) |- _ => apply Hw in H; lia
                     end];
          try solve [rewrite ?app_nil_r in *; intuition lia].
    + cbn [caller_steps]. rewrite Nat.add_0_r. cbn [execx.step].
      destruct (drain_step (ctx_Err (run sched initial))
                           (stdout_drain (run sched initial))) as [d es] eqn:Hd.
      unfold progress. cbn. repeat split; try tauto.
      * intro H. apply Ho.
        apply (drain_step_launched (ctx_Err (run sched initial))).
        now rewrite Hd.
      * intro H. apply Ho in H.
        apply (drain_step_launched (ctx_Err (run sched initial))) in H.
        now rewrite Hd in H.
    + cbn [caller_steps]. rewrite Nat.add_0_r. cbn [execx.step].
      destruct (drain_step (ctx_Err (run sched initial))
                           (stderr_drain (run sched initial))) as [d es] eqn:Hd.
      unfold progress. cbn. repeat split; try tauto.
      * intro H. apply He.
        apply (drain_step_launched (ctx_Err (run sched initial))).
        now rewrite Hd.
      * intro H. apply He in H.
        apply (drain_step_launched (ctx_Err (run sched initial))) in H.
        now rewrite Hd in H.
    + cbn [caller_steps]. rewrite Nat.add_0_r. cbn [execx.step].
      unfold progress. destruct (ctx_Err (run sched initial)); cbn;
        repeat split; try tauto.
Qed.

End Started.

(** ** The result after [Wait] *)

(** The error [Run] returns after [Wait] has failed with [err], given
    [ctx.Err()] at the moment [Run] looks at it. *)
Definition classified (command : string) (ctxErr : option error) (err : error)
  : error :=
  match ctxErr with
  | Some cause => Errorf_w "command %q canceled: %w" [command] cause
  | None => Errorf_w "command %q failed: %w" [command] err
  end.

Section WaitFailure.

Variable creator : CommandCreator.
Variable command : string.
Variable streamToLog : bool.
Variable args : list string.

Local Notation "'run'" := (execx.run creator command streamToLog args).
Local Notation "'step'" := (execx.step creator command streamToLog args).
Local Notation "'cmd'" := (execx.cmd creator command args).

Variables stdout stderr : iox.Reader.
Variable e : error.
Hypothesis pipe_out : StdoutPipe cmd = inl stdout.
Hypothesis pipe_err : StderrPipe cmd = inl stderr.
Hypothesis started : Start cmd = None.
Hypothesis waited : Wait cmd = Some e.

(** [Run] has returned [r] by looking at the context in the state reached
    by the prefix [pre] of the schedule. *)
Definition classified_at (sched : list Label) (r : option error) : Prop :=
  exists pre post,
    sched = pre ++ Go Caller :: post /\
    caller (run pre initial) = AtCtxErr e /\
    r = Some (classified command (ctx_Err (run pre initial)) e).

Lemma wait_failure sched :
  let s := run sched initial in
  (forall r, caller s = Returned r -> classified_at sched r) /\
  ((8 <= caller_steps sched)%nat -> exists r, caller s = Returned r).
Proof.
  cbv zeta.
  apply (schedule_ind creator command streamToLog args
           (fun sched s =>
              (forall r, caller s = Returned r -> classified_at sched r) /\
              ((8 <= caller_steps sched)%nat -> exists r, caller s = Returned r))).
  - split; [discriminate|cbn; lia].
  - clear sched. intros sched l [Hret Hdone].
    pose proof (started_progress creator command streamToLog args stdout stderr
                  pipe_out pipe_err started sched) as (Hpc & Hpast & _).
    rewrite caller_steps_app.
    assert (Hkeep : forall r, classified_at sched r ->
                              classified_at (sched ++ [l]) r).
    { intros r (pre & post & -> & Hat & Hr).
      exists pre, (post ++ [l]). now rewrite <- app_assoc. }
    destruct (Label_is_caller l) as [->|Hl].
    + cbn [caller_steps]. rewrite Nat.add_1_r. cbn [execx.step].
      destruct (Nat.lt_ge_cases (caller_steps sched) 7) as [Hk|Hk].
      * split; [|lia]. intros r. unfold caller_step. rewrite (Hpc Hk).
        destruct (caller_steps sched) as [|[|[|[|[|[|[|k]]]]]]];
          cbn [nth to_wait]; try lia;
          rewrite ?pipe_out, ?pipe_err, ?started, ?waited; cbn; discriminate.
      * destruct (Hpast Hk) as [(err & Hc & Hwait)|(r0 & Hc)].
        -- assert (err = e) by congruence. subst err.
           unfold caller_step. rewrite Hc. split.
           ++ intros r Hr. exists sched, []. repeat split; auto.
              unfold classified.
              destruct (ctx_Err (run sched initial)); cbn in Hr; congruence.
           ++ intros _. destruct (ctx_Err (run sched initial)); cbn; eauto.
        -- unfold caller_step. rewrite Hc. split; [|eauto].
           intros r Hr. apply Hkeep, Hret. congruence.
    + destruct (step_other_caller creator command streamToLog args l
                  (run sched initial) Hl) as [Hc _].
      rewrite Hc. split.
      * intros r Hr. now apply Hkeep, Hret.
      * intro Hk. apply Hdone.
        destruct l as [[| |]|cause]; cbn [caller_steps] in Hk; try congruence; lia.
Qed.

End WaitFailure.

(** Once cancelled, a context stays cancelled, with the same error. *)
Lemma ctx_Err_stable creator command streamToLog args sched s cause :
  ctx_Err s = Some cause ->
  ctx_Err (execx.run creator command streamToLog args sched s) = Some cause.
Proof.
  revert s. induction sched as [|l sched IH]; intros s H; [exact H|].
  simpl. apply IH. destruct l as [[| |]|cause']; simpl.
  - unfold caller_step, goto.
    destruct (caller s); simpl; auto;
      repeat match goal with
             | |- context [match ?x with _ => _ end] => destruct x; simpl; auto
             end.
  - now destruct (drain_step (ctx_Err s) (stdout_drain s)).
  - now destruct (drain_step (ctx_Err s) (stderr_drain s)).
  - now rewrite H.
Qed.

(** C1: when [Wait] returns an error [e], the result of [Run] is decided by
    [ctx.Err()] at the moment [Run] looks at it, after [Wait] has returned:
    if the context is cancelled the result wraps the program name and
    [ctx.Err()], whatever [e] is; otherwise it wraps the program name and
    [e].  In particular a context cancelled at any moment before [Run]
    returns gives the cancelled form.  [Run] has returned once the calling
    goroutine has taken eight steps. *)
Theorem wait_error_is_classified_by_context :
  forall creator command streamToLog args stdout stderr e sched,
    let c := execx.cmd creator command args in
    let run := execx.run creator command streamToLog args in
    let s := run sched initial in
    StdoutPipe c = inl stdout -> StderrPipe c = inl stderr ->
    Start c = None -> Wait c = Some e ->
    (forall r, caller s = Returned r ->
       exists pre post,
         sched = pre ++ Go Caller :: post /\
         caller (run pre initial) = AtCtxErr e /\
         (forall cause, ctx_Err (run pre initial) = Some cause ->
            r = Some (Errorf_w "command %q canceled: %w" [command] cause)) /\
         (ctx_Err (run pre initial) = None ->
            r = Some (Errorf_w "command %q failed: %w" [command] e))) /\
    (forall r before after cause,
       caller s = Returned r -> sched = before ++ after ->
       ctx_Err (run before initial) = Some cause ->
       (forall r0, caller (run before initial) <> Returned r0) ->
       r = Some (Errorf_w "command %q canceled: %w" [command] cause)) /\
    ((8 <= caller_steps sched)%nat -> exists r, caller s = Returned r).
Proof.
  intros creator command streamToLog args stdout stderr e sched c run s
         Hout Herr Hstart Hwait; subst c run s.
  destruct (wait_failure creator command streamToLog args stdout stderr e
              Hout Herr Hstart Hwait sched) as [Hret Hdone].
  split; [|split; [|exact Hdone]].
  - intros r Hr. destruct (Hret r Hr) as (pre & post & Hsched & Hat & Hres).
    exists pre, post. repeat split; auto.
    + intros cause Hc. now rewrite Hres, Hc.
    + intros Hc. now rewrite Hres, Hc.
  - intros r before after cause Hr Hsched Hc Hnot.
    destruct (Hret r Hr) as (pre & post & Hsched' & Hat & Hres).
    rewrite Hsched in Hsched'.
    apply app_eq_app in Hsched'.
    destruct Hsched' as (mid & [[Hb Ha]|[Hb Ha]]).
    + destruct mid as [|l mid].
      * rewrite app_nil_r in Hb. subst before.
        now rewrite Hres, Hc.
      * cbn in Ha. injection Ha as Hl Hpost. subst l. exfalso.
        rewrite Hb in Hnot.
        replace (pre ++ Go Caller :: mid) with ((pre ++ [Go Caller]) ++ mid)
          in Hnot by now rewrite <- app_assoc.
        rewrite run_app, run_snoc in Hnot.
        assert (Hs : exists r0,
                   caller (execx.step creator command streamToLog args
                             (Go Caller)
                             (execx.run creator command streamToLog args pre
                                        initial)) = Returned r0).
        { cbn. unfold caller_step. rewrite Hat.
          destruct (ctx_Err (execx.run creator command streamToLog args pre
                                       initial)); cbn; eauto. }
        destruct Hs as [r0 Hs].
        apply (Hnot r0). now apply run_returned.
    + subst pre. rewrite run_app in Hres.
      rewrite (ctx_Err_stable _ _ _ _ mid _ cause Hc) in Hres.
      exact Hres.
Qed.

(** [execute(ctx, "false")] with the context cancelled while the command
    runs: the result is the cancelled form although the command failed. *)
Lemma wait_error_is_classified_by_context_witness :
  let creator : CommandCreator := fun _ _ =>
    mkCommander (inl (iox.mkReader [] io_EOF)) (inl (iox.mkReader [] io_EOF))
                None (Some (external_error "exit status 1")) in
  let before := [Go Caller; Go Caller; Go Caller; Go Caller; Go Caller;
                 Go Caller; Cancel context_Canceled; Go Caller] in
  let s := execx.run creator "false" true [] (before ++ [Go Caller]) initial in
  caller s =
  Returned (Some (Errorf_w "command %q canceled: %w" ["false"] context_Canceled)).
Proof.
  cbv zeta.
  match goal with
  | |- caller (execx.run ?cr ?cm ?st ?ar (?b ++ ?a) initial) = _ =>
      destruct (wait_error_is_classified_by_context cr cm st ar
                  (iox.mkReader [] io_EOF) (iox.mkReader [] io_EOF)
                  (external_error "exit status 1") (b ++ a)
                  eq_refl eq_refl eq_refl eq_refl) as (_ & Hcancel & Hdone);
      destruct Hdone as [r Hr]; [cbn; lia|];
      rewrite Hr; f_equal;
      apply (Hcancel r b a context_Canceled Hr eq_refl eq_refl)
  end.
  intros r0. cbn. discriminate.
Defined.

(** ** Success *)

Section Success.

Variable creator : CommandCreator.
Variable command : string.
Variable streamToLog : bool.
Variable args : list string.

Local Notation "'run'" := (execx.run creator command streamToLog args).
Local Notation "'cmd'" := (execx.cmd creator command args).

Variables stdout stderr : iox.Reader.
Hypothesis pipe_out : StdoutPipe cmd = inl stdout.
Hypothesis pipe_err : StderrPipe cmd = inl stderr.
Hypothesis started : Start cmd = None.
Hypothesis waited : Wait cmd = None.

Lemma success_result sched r : caller (run sched initial) = Returned r -> r = None.
Proof.
  revert r.
  apply (schedule_ind creator command streamToLog args
           (fun sched s => forall r, caller s = Returned r -> r = None)).
  - discriminate.
  - clear sched. intros sched l IH r.
    pose proof (started_progress creator command streamToLog args stdout stderr
                  pipe_out pipe_err started sched) as (Hpc & Hpast & _).
    destruct (Label_is_caller l) as [->|Hl].
    + cbn [execx.step]. unfold caller_step.
      destruct (Nat.lt_ge_cases (caller_steps sched) 7) as [Hk|Hk].
      * rewrite (Hpc Hk).
        destruct (caller_steps sched) as [|[|[|[|[|[|[|k]]]]]]];
          cbn [nth to_wait]; try lia;
          rewrite ?pipe_out, ?pipe_err, ?started, ?waited; cbn; congruence.
      * destruct (Hpast Hk) as [(err & Hc & Hwait)|(r0 & Hc)]; [congruence|].
        rewrite Hc. intro Hr. apply IH. congruence.
    + destruct (step_other_caller creator command streamToLog args l
                  (run sched initial) Hl) as [Hc _].
      rewrite Hc. apply IH.
Qed.

End Success.

(** The reading of C2 that the code does not meet: whenever [Run] has
    returned, both consumers have finished. *)
Definition returns_after_drains (creator : CommandCreator) (command : string)
           (streamToLog : bool) (args : list string) : Prop :=
  forall sched r,
    let s := execx.run creator command streamToLog args sched initial in
    caller s = Returned r ->
    stdout_drain s = Finished /\ stderr_drain s = Finished.

(** C2, as amended: when the subprocess exits with status 0 ([Wait] returns
    nil after a successful start), [Run] returns success (nil is the only
    result it returns, and it has returned it once the calling goroutine
    has taken seven steps), and by then both consumers have been launched
    and [Wait] has been called.  [Run] does not wait for the consumers. *)
Theorem success_after_launching_consumers :
  forall creator command streamToLog args stdout stderr sched,
    let c := execx.cmd creator command args in
    let s := execx.run creator command streamToLog args sched initial in
    StdoutPipe c = inl stdout -> StderrPipe c = inl stderr ->
    Start c = None -> Wait c = None ->
    (forall r, caller s = Returned r ->
       r = None /\ launched (stdout_drain s) /\ launched (stderr_drain s) /\
       In CallWait (calls s)) /\
    ((7 <= caller_steps sched)%nat -> caller s = Returned None).
Proof.
  intros creator command streamToLog args stdout stderr sched c s
         Hout Herr Hstart Hwait; subst c s.
  pose proof (started_progress creator command streamToLog args stdout stderr
                Hout Herr Hstart sched) as (Hpc & Hpast & Ho & He & Hw).
  split.
  - intros r Hr.
    assert (Hk : (7 <= caller_steps sched)%nat).
    { destruct (Nat.lt_ge_cases (caller_steps sched) 7) as [Hk|Hk]; [|exact Hk].
      exfalso. rewrite (Hpc Hk) in Hr.
      destruct (caller_steps sched) as [|[|[|[|[|[|[|k]]]]]]];
        cbn in Hr; try discriminate; lia. }
    split; [now apply (success_result creator command streamToLog args stdout
                         stderr Hout Herr Hstart Hwait sched)|].
    unfold launched. repeat split.
    + intro H. apply Ho in H. lia.
    + intro H. apply He in H. lia.
    + now apply Hw.
  - intro Hk. destruct (Hpast Hk) as [(err & Hc & Hwait')|(r & Hc)]; [congruence|].
    rewrite Hc. f_equal.
    now apply (success_result creator command streamToLog args stdout stderr
                 Hout Herr Hstart Hwait sched).
Qed.

Definition reader_of (text : list byte) : iox.Reader := iox.mkReader [text] io_EOF.

(** [sh -c "echo ok"], with standard output streamed to the log. *)
Definition echo_ok : CommandCreator := fun _ _ =>
  mkCommander (inl (reader_of ["o"; "k"; x0a]%byte)) (inl (reader_of []))
              None None.

(** [execute(ctx, "sh", true, "-c", "echo ok")] scheduled so that the caller
    runs alone: it returns success with both consumers launched. *)
Lemma success_after_launching_consumers_witness :
  let s := execx.run echo_ok "sh" true ["-c"; "echo ok"]
                     (repeat (Go Caller) 7) initial in
  caller s = Returned None /\
  launched (stdout_drain s) /\ launched (stderr_drain s).
Proof.
  cbv zeta.
  destruct (success_after_launching_consumers echo_ok "sh" true ["-c"; "echo ok"]
              (reader_of ["o"; "k"; x0a]%byte) (reader_of [])
              (repeat (Go Caller) 7) eq_refl eq_refl eq_refl eq_refl)
    as [Hret Hdone].
  assert (Hr := Hdone ltac:(cbn; lia)).
  split; [exact Hr|]. destruct (Hret None Hr) as (_ & Ho & He & _).
  now split.
Defined.

(** The same run refutes the reading of C2 in which success comes only
    after the consumers have seen the end of their streams: [Run] has
    returned nil while the consumer of standard output has not read a byte
    of the line the subprocess wrote, and nothing has been logged. *)
Lemma success_before_drains_counterexample :
  let s := execx.run echo_ok "sh" true ["-c"; "echo ok"]
                     (repeat (Go Caller) 7) initial in
  caller s = Returned None /\
  stdout_drain s = streamToSlog (reader_of ["o"; "k"; x0a]%byte) slog.LevelInfo /\
  effects s = [] /\
  ~ returns_after_drains echo_ok "sh" true ["-c"; "echo ok"].
Proof.
  cbv zeta. repeat split.
  intro H. destruct (H (repeat (Go Caller) 7) None eq_refl) as [Ho _].
  discriminate Ho.
Qed.

(** ** Readers *)

Lemma read_chunks_none cs n : iox.read_chunks cs n = None <-> List.concat cs = [].
Proof.
  induction cs as [|c cs IH]; simpl; [tauto|].
  destruct c as [|b c]; simpl; [exact IH|]. split; discriminate.
Qed.

Lemma read_chunks_some cs n bs cs' :
  (0 < n)%nat -> iox.read_chunks cs n = Some (bs, cs') ->
  bs <> [] /\ bs ++ List.concat cs' = List.concat cs /\ (List.length bs <= n)%nat.
Proof.
  intro Hn. induction cs as [|c cs IH]; simpl; [discriminate|].
  destruct c as [|b c]; [exact IH|].
  intro H. injection H as <- <-. repeat split.
  - destruct n; [lia|discriminate].
  - simpl List.concat. rewrite app_assoc. now rewrite firstn_skipn.
  - apply firstn_le_length.
Qed.

(** A read into a non-empty slice either meets the end of the stream or
    delivers at least one of the unread bytes, in order. *)
Lemma Read_spec (rd : iox.Reader) (n : Z) :
  (0 < n)%Z ->
  (iox.unread rd = [] /\
   iox.Read rd n = ([], Some (iox.closing rd), iox.mkReader [] (iox.closing rd))) \/
  (exists bs rd',
     iox.Read rd n = (bs, None, rd') /\ bs <> [] /\
     bs ++ iox.unread rd' = iox.unread rd /\
     (Z.of_nat (List.length bs) <= n)%Z /\ iox.closing rd' = iox.closing rd).
Proof.
  intro Hn. unfold iox.Read, iox.unread.
  destruct (iox.read_chunks (iox.pending rd) (Z.to_nat n)) as [[bs cs]|] eqn:Hread.
  - right. exists bs, (iox.mkReader cs (iox.closing rd)).
    apply read_chunks_some in Hread; [|lia].
    destruct Hread as (Hne & Happ & Hlen). simpl. repeat split; auto. lia.
  - left. apply read_chunks_none in Hread. now split.
Qed.

(** ** Lines *)

Import bufio.

Lemma IndexByte_lt data c i : IndexByte data c = Some i -> (i < List.length data)%nat.
Proof.
  revert i. induction data as [|b data IH]; simpl; [discriminate|].
  intro i. destruct (Byte.eqb b c).
  - intro H. injection H as <-. lia.
  - destruct (IndexByte data c) as [j|]; simpl; [|discriminate].
    intro H. injection H as <-. specialize (IH j eq_refl). lia.
Qed.

Lemma IndexByte_app_found data more c i :
  IndexByte data c = Some i -> IndexByte (data ++ more) c = Some i.
Proof.
  revert i. induction data as [|b data IH]; simpl; [discriminate|].
  intro i. destruct (Byte.eqb b c); [auto|].
  destruct (IndexByte data c) as [j|]; simpl; [|discriminate].
  intro H. injection H as <-. now rewrite (IH j eq_refl).
Qed.

Lemma IndexByte_app_missing data more c :
  IndexByte data c = None ->
  IndexByte (data ++ more) c
  = option_map (fun j => (List.length data + j)%nat) (IndexByte more c).
Proof.
  induction data as [|b data IH]; simpl.
  - intros _. now destruct (IndexByte more c).
  - destruct (Byte.eqb b c); [discriminate|].
    destruct (IndexByte data c) as [j|]; simpl; [discriminate|].
    intros _. rewrite (IH eq_refl). now destruct (IndexByte more c).
Qed.

Lemma IndexByte_head more c : IndexByte (c :: more) c = Some 0%nat.
Proof. simpl. now rewrite byte_dec_lb by reflexivity. Qed.

(** In a line followed by its newline, the newline is found right after
    the line. *)
Lemma IndexByte_line line more :
  IndexByte line LF = None ->
  IndexByte (line ++ LF :: more) LF = Some (List.length line).
Proof.
  intro H. rewrite (IndexByte_app_missing _ _ _ H), IndexByte_head.
  simpl. f_equal. lia.
Qed.


Lemma dropCR_keeps line :
  last line x00 <> CR -> dropCR line = line.
Proof.
  intro H. unfold dropCR.
  destruct (Byte.eqb (last line x00) CR) eqn:E.
  - apply byte_dec_bl in E. contradiction.
  - now rewrite andb_false_r.
Qed.

Lemma dropCR_strips text : dropCR (text ++ [CR]) = text.
Proof.
  unfold dropCR. rewrite last_last, removelast_last, length_app. simpl.
  rewrite byte_dec_lb by reflexivity.
  destruct (0 <? List.length text + 1)%nat eqn:E; [reflexivity|].
  apply Nat.ltb_ge in E. lia.
Qed.

(** ** The scanner *)

(** The bytes that have not yet been returned in a token: those held in the
    buffer and those the reader has still to deliver. *)
Definition unscanned (s : Scanner) : list byte := data s ++ iox.unread (r s).

(** A scanner in the middle of a stream: no error so far, and a buffer
    within the bounds [Scanner.Buffer] and [Scan] maintain. *)
Definition scanning (s : Scanner) : Prop :=
  err s = None /\ (0 < buf_len s)%Z /\ (buf_len s <= maxTokenSize s)%Z /\
  (maxTokenSize s <= maxInt / 2)%Z /\ (0 <= start s)%Z /\
  (end_ s <= buf_len s)%Z.

(** A scanner that has returned everything and holds the error [e]. *)
Definition exhausted (s : Scanner) (e : error) : Prop :=
  err s = Some e /\ data s = [] /\ iox.unread (r s) = [].

Lemma Scan_pass_found s i :
  err s = None -> IndexByte (data s) LF = Some i ->
  Scan_pass s
  = inl (true, mkScanner (r s) (maxTokenSize s) (dropCR (firstn i (data s)))
                         (buf_len s) (start s + Z.of_nat (i + 1))
                         (skipn (i + 1) (data s)) None).
Proof.
  intros Herr Hidx. unfold Scan_pass, ScanLines.
  pose proof (IndexByte_lt _ _ _ Hidx) as Hlt.
  assert (Hcalled : (start s <? end_ s)%Z = true).
  { apply Z.ltb_lt. unfold end_. lia. }
  rewrite Hcalled, Herr, Hidx. reflexivity.
Qed.

Lemma Scan_pass_end s e :
  err s = Some e -> IndexByte (data s) LF = None ->
  match data s with
  | [] => exists s', Scan_pass s = inl (false, s') /\ err s' = Some e
  | _ :: _ =>
      exists s', Scan_pass s = inl (true, s') /\ token s' = dropCR (data s) /\
                 err s' = Some e /\ data s' = [] /\ r s' = r s
  end.
Proof.
  intros Herr Hidx. unfold Scan_pass, ScanLines.
  rewrite Herr, orb_true_r. cbn [isSome andb].
  destruct (data s) as [|b d] eqn:Hd.
  - cbn. rewrite Herr. cbn. eexists. split; reflexivity.
  - cbn [List.length Nat.eqb]. rewrite Hidx.
    eexists. split; [reflexivity|]. cbn [token err data r]. repeat split.
    apply skipn_all.
Qed.

(** One pass over a buffer without a newline, in the middle of a stream:
    either the buffer is full at its largest size and the token is too
    long, or the scanner reads into the free part of the buffer. *)
Lemma Scan_pass_fill s :
  scanning s -> IndexByte (data s) LF = None ->
  (exists s', Scan_pass s = inl (false, s') /\ err s' = Some bufio_ErrTooLong /\
              Z.of_nat (List.length (data s)) = maxTokenSize s) \/
  (exists s2, Scan_pass s = inr (fill s2) /\
              r s2 = r s /\ data s2 = data s /\ err s2 = None /\
              maxTokenSize s2 = maxTokenSize s /\
              (0 < buf_len s2)%Z /\ (buf_len s2 <= maxTokenSize s2)%Z /\
              (maxTokenSize s2 <= maxInt / 2)%Z /\
              (0 <= start s2)%Z /\ (end_ s2 < buf_len s2)%Z).
Proof.
  intros (Herr & Hlen & Hmax & Hint & Hstart & Hend) Hidx.
  unfold Scan_pass, ScanLines. rewrite Herr, Hidx. cbn [isSome andb orb].
  rewrite orb_false_r.
  assert (Hsplit : (if (start s <? end_ s)%Z then (0%nat, @None (list byte))
                    else (0%nat, None)) = (0%nat, None))
    by now destruct (start s <? end_ s)%Z.
  rewrite Hsplit.
  set (s0 := if (start s <? end_ s)%Z then set_token s [] else s).
  assert (H0 : r s0 = r s /\ data s0 = data s /\ err s0 = None /\
               maxTokenSize s0 = maxTokenSize s /\ buf_len s0 = buf_len s /\
               start s0 = start s /\ end_ s0 = end_ s).
  { unfold s0. destruct (start s <? end_ s)%Z; cbn; auto 10. }
  destruct H0 as (Hr0 & Hd0 & He0 & Hm0 & Hb0 & Hs0 & Hend0).
  rewrite He0. cbn [isSome].
  set (s1 := if ((0 <? start s0)%Z
                 && ((end_ s0 =? buf_len s0)%Z || (buf_len s0 / 2 <? start s0)%Z))%bool
             then set_buf s0 (buf_len s0) 0 else s0).
  assert (H1 : r s1 = r s /\ data s1 = data s /\ err s1 = None /\
               maxTokenSize s1 = maxTokenSize s /\ buf_len s1 = buf_len s /\
               (0 <= start s1)%Z /\ (end_ s1 <= buf_len s1)%Z /\
               ((end_ s1 = buf_len s1)%Z -> start s1 = 0%Z)).
  { unfold s1.
    destruct (0 <? start s0)%Z eqn:Hpos; cbn [andb].
    - destruct ((end_ s0 =? buf_len s0)%Z || (buf_len s0 / 2 <? start s0)%Z)%bool
        eqn:Hshift.
      + unfold set_buf, end_. cbn. rewrite Hd0.
        repeat split; auto; try lia.
        unfold end_ in Hend. lia.
      + apply orb_false_iff in Hshift. destruct Hshift as [Hne _].
        apply Z.eqb_neq in Hne.
        repeat split; auto; try lia; try (intro; lia).
    - apply Z.ltb_ge in Hpos.
      repeat split; auto; try lia. }
  destruct H1 as (Hr1 & Hd1 & He1 & Hm1 & Hb1 & Hs1 & Hend1 & Hfull).
  destruct (end_ s1 =? buf_len s1)%Z eqn:Hisfull.
  - apply Z.eqb_eq in Hisfull.
    destruct ((maxTokenSize s1 <=? buf_len s1)%Z || (maxInt / 2 <? buf_len s1)%Z)%bool
      eqn:Hbig.
    + left. eexists. split; [reflexivity|]. split.
      * unfold setErr. rewrite He1. reflexivity.
      * apply orb_true_iff in Hbig. unfold end_ in Hisfull.
        rewrite (Hfull Hisfull), Hd1 in Hisfull.
        destruct Hbig as [Hbig|Hbig];
          [apply Z.leb_le in Hbig|apply Z.ltb_lt in Hbig]; lia.
    + right. apply orb_false_iff in Hbig. destruct Hbig as [Hbig _].
      apply Z.leb_gt in Hbig.
      eexists. split; [reflexivity|]. unfold set_buf, end_. cbn.
      rewrite Hr1, Hd1, He1, Hm1.
      assert (Hne : (buf_len s1 * 2 =? 0)%Z = false) by (apply Z.eqb_neq; lia).
      rewrite Hne. unfold end_ in Hisfull.
      rewrite (Hfull Hisfull), Hd1 in Hisfull.
      repeat split; auto; lia.
  - right. apply Z.eqb_neq in Hisfull.
    exists s1. split; [reflexivity|]. repeat split; auto; lia.
Qed.

Lemma fill_spec s :
  err s = None -> (end_ s < buf_len s)%Z ->
  (iox.unread (r s) = [] /\
   err (fill s) = Some (iox.closing (r s)) /\ data (fill s) = data s /\
   iox.unread (r (fill s)) = []) \/
  (err (fill s) = None /\ unscanned (fill s) = unscanned s /\
   (List.length (iox.unread (r (fill s))) < List.length (iox.unread (r s)))%nat /\
   iox.closing (r (fill s)) = iox.closing (r s) /\
   maxTokenSize (fill s) = maxTokenSize s /\ buf_len (fill s) = buf_len s /\
   start (fill s) = start s /\ (end_ (fill s) <= buf_len s)%Z).
Proof.
  intros Herr Hfree. unfold fill.
  destruct (Read_spec (r s) (buf_len s - end_ s) ltac:(lia))
    as [[Hnone Hread]|(bs & rd' & Hread & Hne & Happ & Hlen & Hclose)];
    rewrite Hread.
  - left. unfold setErr. cbn. rewrite Herr. cbn.
    rewrite app_nil_r. auto.
  - right. destruct bs as [|b bs]; [congruence|].
    unfold unscanned, end_ in *. cbn [err data r maxTokenSize buf_len start].
    rewrite <- Happ, <- app_assoc, !length_app in *.
    cbn [List.length] in *. repeat split; auto; lia.
Qed.

(** What [Scan] finds next in the unscanned bytes [rest] when the buffer
    may grow to [max] bytes: a newline among the first [max] bytes ends a
    line; otherwise fewer than [max] bytes are the last, unterminated line
    (or the end of the stream), and [max] bytes or more are too long. *)
Inductive Next : Type :=
| NextLine (i : nat)
| NextLast
| NextEnd
| NextTooLong.

Definition next (max : Z) (rest : list byte) : Next :=
  match IndexByte rest LF with
  | Some i => if (Z.of_nat i <? max)%Z then NextLine i else NextTooLong
  | None =>
      if (Z.of_nat (List.length rest) <? max)%Z
      then match rest with [] => NextEnd | _ :: _ => NextLast end
      else NextTooLong
  end.

(** The outcome of [Scan], told from the unscanned bytes. *)
Definition Scan_outcome (s : Scanner) (res : bool * Scanner) : Prop :=
  let (more, s') := res in
  match next (maxTokenSize s) (unscanned s) with
  | NextLine i =>
      more = true /\ token s' = dropCR (firstn i (unscanned s)) /\
      unscanned s' = skipn (S i) (unscanned s) /\ scanning s' /\
      iox.closing (r s') = iox.closing (r s) /\
      maxTokenSize s' = maxTokenSize s
  | NextLast =>
      more = true /\ token s' = dropCR (unscanned s) /\
      exhausted s' (iox.closing (r s))
  | NextEnd => more = false /\ err s' = Some (iox.closing (r s))
  | NextTooLong => more = false /\ err s' = Some bufio_ErrTooLong
  end.

Lemma scanning_data_fits s :
  scanning s -> (Z.of_nat (List.length (data s)) <= maxTokenSize s)%Z.
Proof. unfold scanning, end_. intuition lia. Qed.

Lemma next_found s i :
  scanning s -> IndexByte (data s) LF = Some i ->
  next (maxTokenSize s) (unscanned s) = NextLine i.
Proof.
  intros Hs Hidx. unfold next, unscanned.
  rewrite (IndexByte_app_found _ _ _ _ Hidx).
  pose proof (IndexByte_lt _ _ _ Hidx). pose proof (scanning_data_fits s Hs).
  destruct (Z.of_nat i <? maxTokenSize s)%Z eqn:E; [reflexivity|].
  apply Z.ltb_ge in E. lia.
Qed.

Lemma next_too_long s :
  IndexByte (data s) LF = None ->
  Z.of_nat (List.length (data s)) = maxTokenSize s ->
  next (maxTokenSize s) (unscanned s) = NextTooLong.
Proof.
  intros Hidx Hfull. unfold next, unscanned.
  rewrite (IndexByte_app_missing _ _ _ Hidx), length_app.
  destruct (IndexByte (iox.unread (r s)) LF) as [j|]; cbn [option_map].
  - destruct (Z.of_nat (List.length (data s) + j) <? maxTokenSize s)%Z eqn:E;
      [|reflexivity].
    apply Z.ltb_lt in E. lia.
  - destruct (Z.of_nat (List.length (data s) + List.length (iox.unread (r s)))
              <? maxTokenSize s)%Z eqn:E; [|reflexivity].
    apply Z.ltb_lt in E. lia.
Qed.

Lemma next_at_end s :
  IndexByte (data s) LF = None -> iox.unread (r s) = [] ->
  (Z.of_nat (List.length (data s)) < maxTokenSize s)%Z ->
  next (maxTokenSize s) (unscanned s)
  = match data s with [] => NextEnd | _ :: _ => NextLast end.
Proof.
  intros Hidx Hnone Hfits. unfold next, unscanned.
  rewrite Hnone, app_nil_r, Hidx.
  destruct (Z.of_nat (List.length (data s)) <? maxTokenSize s)%Z eqn:E;
    [reflexivity|].
  apply Z.ltb_ge in E. lia.
Qed.

(** [Scan] returns, and what it returns is told by the unscanned bytes. *)
Lemma Scan_loop_spec fuel :
  forall s, scanning s ->
            (List.length (iox.unread (r s)) + 2 <= fuel)%nat ->
            exists res, Scan_loop fuel s = Some res /\ Scan_outcome s res.
Proof.
  induction fuel as [|fuel IH]; intros s Hs Hfuel; [lia|].
  cbn [Scan_loop].
  destruct (IndexByte (data s) LF) as [i|] eqn:Hidx.
  - rewrite (Scan_pass_found s i (proj1 Hs) Hidx).
    eexists. split; [reflexivity|]. unfold Scan_outcome.
    rewrite (next_found s i Hs Hidx). cbn [token r maxTokenSize].
    pose proof (IndexByte_lt _ _ _ Hidx) as Hlt.
    destruct Hs as (Herr & Hlen & Hmax & Hint & Hstart & Hend).
    unfold unscanned. cbn [data r]. repeat split; auto.
    + rewrite firstn_app.
      replace (i - List.length (data s))%nat with 0%nat by lia.
      now rewrite firstn_O, app_nil_r.
    + rewrite skipn_app.
      replace (S i - List.length (data s))%nat with 0%nat by lia.
      rewrite skipn_O. now rewrite Nat.add_1_r.
    + cbn. lia.
    + unfold end_ in *. cbn. rewrite length_skipn. lia.
  - destruct (Scan_pass_fill s Hs Hidx)
      as [(s' & Hpass & Herr' & Hfull)
         |(s2 & Hpass & Hr2 & Hd2 & He2 & Hm2 & Hlen2 & Hmax2 & Hint2 & Hstart2
           & Hfree2)];
      rewrite Hpass.
    + exists (false, s'). split; [reflexivity|]. unfold Scan_outcome.
      now rewrite (next_too_long s Hidx Hfull).
    + destruct (fill_spec s2 He2 Hfree2)
        as [(Hnone & He & Hd & Hu)
           |(He & Hrest & Hless & Hclose & Hm & Hb & Hst & Hend)].
      * destruct fuel as [|fuel]; [lia|]. cbn [Scan_loop].
        assert (Hidx' : IndexByte (data (fill s2)) LF = None)
          by now rewrite Hd, Hd2.
        pose proof (Scan_pass_end (fill s2) _ He Hidx') as Hend.
        assert (Hnext : next (maxTokenSize s) (unscanned s)
                        = match data s with [] => NextEnd | _ :: _ => NextLast end).
        { apply next_at_end; auto; [now rewrite <- Hr2|].
          unfold end_ in Hfree2. rewrite Hd2 in Hfree2. lia. }
        assert (Hun : unscanned s = data s).
        { unfold unscanned. now rewrite <- Hr2, Hnone, app_nil_r. }
        rewrite Hd, Hd2 in Hend. unfold Scan_outcome. rewrite Hnext, Hun.
        rewrite <- Hr2.
        destruct (data s) as [|b d].
        -- destruct Hend as (s' & -> & Herr'). exists (false, s'). auto.
        -- destruct Hend as (s' & -> & Htok & Herr' & Hdata' & Hr').
           exists (true, s'). split; [reflexivity|].
           unfold exhausted. rewrite Hr'. auto.
      * destruct (IH (fill s2)) as (res & Hloop & Hout).
        -- unfold scanning. rewrite He, Hm, Hb, Hst. repeat split; auto; lia.
        -- rewrite <- Hr2 in Hfuel. lia.
        -- exists res. split; [exact Hloop|].
           unfold Scan_outcome in *. destruct res as [more s'].
           assert (Hun : unscanned (fill s2) = unscanned s).
           { rewrite Hrest. unfold unscanned. now rewrite Hr2, Hd2. }
           rewrite Hun, Hm, Hm2, Hclose, Hr2 in Hout. exact Hout.
Qed.

Lemma Scan_spec s : scanning s -> Scan_outcome s (Scan s).
Proof.
  intro Hs. unfold Scan.
  destruct (Scan_loop_spec _ s Hs (Nat.le_refl _)) as (res & -> & Hout).
  exact Hout.
Qed.

(** *** [Scan] is total *)







Lemma Scan_exhausted s e :
  exhausted s e -> exists s', Scan s = (false, s') /\ err s' = Some e.
Proof.
  intros (Herr & Hdata & Hnone). unfold Scan. rewrite Hnone. cbn [List.length Nat.add Scan_loop].
  assert (Hidx : IndexByte (data s) LF = None) by now rewrite Hdata.
  pose proof (Scan_pass_end s e Herr Hidx) as Hend. rewrite Hdata in Hend.
  destruct Hend as (s' & -> & Herr'). now exists s'.
Qed.

(** ** A stream consumer on its own *)

(** [n] steps of a consumer while [ctx.Err()] stays [ctxErr]: where it is
    and what it has done. *)
Fixpoint drain_run (n : nat) (ctxErr : option error) (d : Drain)
  : Drain * list Effect :=
  match n with
  | O => (d, [])
  | S n' =>
      let (d', es) := drain_step ctxErr d in
      let (d'', es') := drain_run n' ctxErr d' in
      (d'', es ++ es')
  end.

(** The lines of a stream, each followed by its newline. *)
Definition join_lines (lines : list (list byte)) : list byte :=
  flat_map (fun line => line ++ [LF]) lines.

(** A line that fits the buffer of [streamToSlog] together with its
    newline: no newline inside, and fewer bytes than [maxCapacity]. *)
Definition fits (line : list byte) : Prop :=
  IndexByte line LF = None /\ (Z.of_nat (List.length line) < maxCapacity)%Z.

(** No newline among the first [maxCapacity] bytes. *)
Definition unbroken (tail : list byte) : Prop :=
  match IndexByte tail LF with
  | Some i => (maxCapacity <= Z.of_nat i)%Z
  | None => True
  end.

(** The record [slog.Log(ctx, level, scanner.Text())] of a line: its text
    is the line without the carriage return that may end it. *)
Definition line_record (level : slog.Level) (line : list byte) : Effect :=
  Log (slog.mkRecord level (string_of_list_byte (dropCR line)) []).

(** The record of a failed read. *)
Definition failure_record (e : error) : Effect :=
  Log (slog.mkRecord slog.LevelError "failed to read stream"
                     [("err", slog.ErrorValue (Some e))]).

(** The record of a cancelled stream. *)
Definition cancel_record (cause : error) : Effect :=
  Log (slog.mkRecord slog.LevelWarn "stream canceled"
                     [("reason", slog.ErrorValue (Some cause))]).

(** What [streamToSlog] reports when the reader has failed with [closing]:
    nothing at a regular end of stream. *)
Definition closing_report (closing : error) : list Effect :=
  match closing with
  | io_EOF => []
  | e => [failure_record e]
  end.

(** What [streamToSlog] does with the bytes [tail] that follow the last
    newline of the stream. *)
Definition tail_effects (level : slog.Level) (closing : error) (tail : list byte)
  : list Effect :=
  match next maxCapacity tail with
  | NextLine _ => []
  | NextEnd => closing_report closing
  | NextLast => line_record level tail :: closing_report closing
  | NextTooLong => [failure_record bufio_ErrTooLong]
  end.

Lemma drain_run_finished n ctxErr : drain_run n ctxErr Finished = (Finished, []).
Proof. induction n as [|n IH]; [reflexivity|]. cbn. now rewrite IH. Qed.

Lemma drain_run_app n m ctxErr d :
  drain_run (n + m) ctxErr d
  = let (d', es) := drain_run n ctxErr d in
    let (d'', es') := drain_run m ctxErr d' in
    (d'', es ++ es').
Proof.
  revert d. induction n as [|n IH]; intro d; cbn.
  - now destruct (drain_run m ctxErr d).
  - destruct (drain_step ctxErr d) as [d1 es1]. rewrite IH.
    destruct (drain_run n ctxErr d1) as [d2 es2].
    destruct (drain_run m ctxErr d2) as [d3 es3].
    now rewrite app_assoc.
Qed.

(** The step that leaves the loop of [streamToSlog]. *)
Lemma drain_step_scan_end ctxErr level s s' closing :
  Scan s = (false, s') -> err s' = Some closing ->
  drain_step ctxErr (AtScan level s) = (Finished, closing_report closing).
Proof.
  intros HScan Herr. cbn [drain_step]. rewrite HScan. unfold bufio.Err.
  rewrite Herr. now destruct closing.
Qed.

(** The two steps that log a line. *)
Lemma drain_step_scan_line ctxErr level s s' :
  Scan s = (true, s') ->
  drain_step ctxErr (AtScan level s) = (AtSelect level s', []).
Proof. intro HScan. cbn [drain_step]. now rewrite HScan. Qed.

Lemma drain_run_line m level s s' :
  Scan s = (true, s') ->
  drain_run (S (S m)) None (AtScan level s)
  = let (d, es) := drain_run m None (AtScan level s') in
    (d, Log (slog.mkRecord level (Text s') []) :: es).
Proof.
  intro HScan. cbn [drain_run]. rewrite (drain_step_scan_line _ _ _ _ HScan).
  cbn [drain_step]. now destruct (drain_run m None (AtScan level s')).
Qed.

Lemma drain_run_end m level s s' closing :
  Scan s = (false, s') -> err s' = Some closing ->
  drain_run (S m) None (AtScan level s) = (Finished, closing_report closing).
Proof.
  intros HScan Herr. cbn [drain_run].
  rewrite (drain_step_scan_end _ _ _ _ _ HScan Herr), drain_run_finished.
  now rewrite app_nil_r.
Qed.

Lemma next_line_first line more :
  fits line -> next maxCapacity (line ++ LF :: more) = NextLine (List.length line).
Proof.
  intros [Hidx Hlen]. unfold next.
  rewrite (IndexByte_line _ _ Hidx).
  destruct (Z.of_nat (List.length line) <? maxCapacity)%Z eqn:E; [reflexivity|].
  apply Z.ltb_ge in E. lia.
Qed.

(** [streamToSlog] on a stream of fitting lines followed by [tail], while
    the context is not cancelled: one record per line, in order, then what
    the tail calls for; after that the consumer has finished. *)
Lemma streamToSlog_lines lines :
  forall level s tail m,
    scanning s -> maxTokenSize s = maxCapacity ->
    unscanned s = join_lines lines ++ tail ->
    Forall fits lines ->
    unbroken tail ->
    (2 * List.length lines + 3 <= m)%nat ->
    drain_run m None (AtScan level s)
    = (Finished,
       map (line_record level) lines
       ++ tail_effects level (iox.closing (r s)) tail).
Proof.
  induction lines as [|line lines IH]; intros level s tail m Hs Hmax Hun Hfit Htail Hm.
  - cbn [join_lines flat_map app map] in *.
    pose proof (Scan_spec s Hs) as Hout. unfold Scan_outcome in Hout.
    destruct (Scan s) as [more s'] eqn:HScan.
    rewrite Hmax, Hun in Hout. unfold tail_effects.
    assert (Hnext : forall i, next maxCapacity tail <> NextLine i).
    { intro i. unfold next. unfold unbroken in Htail.
      destruct (IndexByte tail LF) as [j|].
      - destruct (Z.of_nat j <? maxCapacity)%Z eqn:E; [|discriminate].
        apply Z.ltb_lt in E. lia.
      - destruct (Z.of_nat (List.length tail) <? maxCapacity)%Z;
          [destruct tail|]; discriminate. }
    destruct (next maxCapacity tail) as [i| | |] eqn:Hn.
    + now destruct (Hnext i).
    + destruct Hout as (-> & Htok & Hex).
      destruct m as [|[|[|m]]]; try lia.
      rewrite (drain_run_line _ _ _ _ HScan).
      destruct (Scan_exhausted s' _ Hex) as (s'' & HScan' & Herr'').
      rewrite (drain_run_end _ _ _ _ _ HScan' Herr'').
      unfold line_record, Text. now rewrite Htok.
    + destruct Hout as (-> & Herr').
      destruct m as [|m]; try lia.
      now rewrite (drain_run_end _ _ _ _ _ HScan Herr').
    + destruct Hout as (-> & Herr').
      destruct m as [|m]; try lia.
      now rewrite (drain_run_end _ _ _ _ _ HScan Herr').
  - inversion Hfit as [|? ? Hline Hrest]; subst.
    assert (Hun' : unscanned s = line ++ LF :: (join_lines lines ++ tail)).
    { rewrite Hun. cbn [join_lines flat_map]. now rewrite <- !app_assoc. }
    pose proof (Scan_spec s Hs) as Hout. unfold Scan_outcome in Hout.
    destruct (Scan s) as [more s'] eqn:HScan.
    rewrite Hmax, Hun', (next_line_first _ _ Hline) in Hout.
    destruct Hout as (-> & Htok & Hun'' & Hs' & Hclose & Hmax').
    destruct m as [|[|m]]; cbn [List.length] in Hm; try lia.
    rewrite (drain_run_line _ _ _ _ HScan).
    rewrite (IH level s' tail m Hs'); auto.
    + rewrite Hclose. cbn [map app]. f_equal. f_equal.
      unfold line_record, Text. rewrite Htok. do 3 f_equal.
      rewrite firstn_app, Nat.sub_diag, firstn_all. cbn [firstn].
      now rewrite app_nil_r.
    + rewrite Hun''.
      change (S (List.length line)) with (1 + List.length line)%nat.
      rewrite Nat.add_comm.
      rewrite skipn_app, skipn_all2 by lia.
      replace (List.length line + 1 - List.length line)%nat with 1%nat by lia.
      reflexivity.
    + lia.
Qed.

(** ** Consumers in a run of [Run] *)

(** The consumer run by goroutine [t]. *)
Definition drain_of (t : Tid) (s : State) : Drain :=
  match t with
  | StdoutDrain => stdout_drain s
  | StderrDrain => stderr_drain s
  | Caller => NotStarted
  end.

(** The context is not cancelled during the schedule. *)
Definition uncancelled (sched : list Label) : Prop :=
  forall cause, ~ In (Cancel cause) sched.

(** The consumer [Run] launches on a pipe. *)
Definition consumer (streamToLog : bool) (level : slog.Level) (dst : File)
           (pipe : iox.Reader) : Drain :=
  if streamToLog then streamToSlog pipe level else AtCopy dst pipe.

Lemma by_goroutine_app t eff1 eff2 :
  by_goroutine t (eff1 ++ eff2) = by_goroutine t eff1 ++ by_goroutine t eff2.
Proof. unfold by_goroutine. now rewrite filter_app, map_app. Qed.

Lemma by_goroutine_tag t t' es :
  by_goroutine t (tag t' es) = if Tid_eqb t' t then es else [].
Proof.
  unfold by_goroutine, tag. induction es as [|e es IH]; cbn.
  - now destruct (Tid_eqb t' t).
  - destruct (Tid_eqb t' t) eqn:E; cbn; rewrite IH; reflexivity.
Qed.

Lemma drain_run_launched m ctxErr d :
  launched d -> launched (fst (drain_run m ctxErr d)).
Proof.
  revert d. induction m as [|m IH]; intros d Hd; [exact Hd|].
  cbn. destruct (drain_step ctxErr d) as [d' es] eqn:Hstep.
  specialize (IH d'). destruct (drain_run m ctxErr d') as [d'' es'']. cbn in *.
  apply IH. unfold launched. intro H.
  apply Hd. apply (drain_step_launched ctxErr). now rewrite Hstep.
Qed.

Lemma drain_run_snoc m ctxErr d :
  drain_run (S m) ctxErr d
  = let (d', es) := drain_run m ctxErr d in
    let (d'', es') := drain_step ctxErr d' in
    (d'', es ++ es').
Proof.
  replace (S m) with (m + 1)%nat by lia. rewrite drain_run_app.
  destruct (drain_run m ctxErr d) as [d' es]. cbn.
  destruct (drain_step ctxErr d') as [d'' es']. now rewrite app_nil_r.
Qed.

(** A consumer as seen in a state of the machine, against the consumer
    [d0] that [Run] launches: either it has not been started and has done
    nothing, or it is where [m] steps under a context that is not
    cancelled have taken it, having done what those steps do. *)
Definition viewed (d0 d : Drain) (es : list Effect) : Prop :=
  (d = NotStarted /\ es = []) \/ (exists m, drain_run m None d0 = (d, es)).

Lemma consumer_launched streamToLog level dst pipe :
  launched (consumer streamToLog level dst pipe).
Proof. unfold launched, consumer. destruct streamToLog; discriminate. Qed.

Lemma viewed_step d0 d es :
  viewed d0 d es ->
  viewed d0 (fst (drain_step None d)) (es ++ snd (drain_step None d)).
Proof.
  intros [[-> ->]|[m Hm]].
  - left. now split.
  - right. exists (S m). rewrite drain_run_snoc, Hm.
    now destruct (drain_step None d).
Qed.

Lemma viewed_not_started d0 es : launched d0 -> viewed d0 NotStarted es -> es = [].
Proof.
  intros Hd0 [[_ ->]|[m Hm]]; [reflexivity|].
  exfalso. apply (drain_run_launched m None d0 Hd0). now rewrite Hm.
Qed.

Section DrainView.

Variable creator : CommandCreator.
Variable command : string.
Variable streamToLog : bool.
Variable args : list string.

Local Notation "'run'" := (execx.run creator command streamToLog args).
Local Notation "'cmd'" := (execx.cmd creator command args).

Variables stdout stderr : iox.Reader.
Hypothesis pipe_out : StdoutPipe cmd = inl stdout.
Hypothesis pipe_err : StderrPipe cmd = inl stderr.
Hypothesis started : Start cmd = None.

Lemma drain_view sched :
  uncancelled sched ->
  let s := run sched initial in
  ctx_Err s = None /\
  viewed (consumer streamToLog slog.LevelInfo os_Stdout stdout)
         (stdout_drain s) (effects_of StdoutDrain s) /\
  viewed (consumer streamToLog slog.LevelError os_Stderr stderr)
         (stderr_drain s) (effects_of StderrDrain s).
Proof.
  cbv zeta.
  apply (schedule_ind creator command streamToLog args
           (fun sched s =>
              uncancelled sched ->
              ctx_Err s = None /\
              viewed (consumer streamToLog slog.LevelInfo os_Stdout stdout)
                     (stdout_drain s) (effects_of StdoutDrain s) /\
              viewed (consumer streamToLog slog.LevelError os_Stderr stderr)
                     (stderr_drain s) (effects_of StderrDrain s))).
  - intros _. cbn. repeat split; left; now split.
  - clear sched. intros sched l IH Hun.
    assert (Hun' : uncancelled sched).
    { intros cause Hin. apply (Hun cause). apply in_or_app. now left. }
    destruct (IH Hun') as (Hctx & Hvo & Hve). clear IH.
    pose proof (started_progress creator command streamToLog args stdout stderr
                  pipe_out pipe_err started sched) as (Hpc & Hpast & Ho & He & _).
    destruct l as [[| |]|cause].
    + cbn [execx.step]. unfold caller_step, effects_of in *.
      destruct (Nat.lt_ge_cases (caller_steps sched) 7) as [Hk|Hk].
      * rewrite (Hpc Hk).
        destruct (caller_steps sched) as [|[|[|[|[|[|[|k]]]]]]];
          cbn [nth to_wait]; try lia;
          rewrite ?pipe_out, ?pipe_err, ?started;
          try match goal with
              | |- context [match Wait cmd with _ => _ end] => destruct (Wait cmd)
              end;
          cbn; repeat split; auto.
        -- right. exists 0%nat. cbn. f_equal.
           assert (Hns : stdout_drain (run sched initial) = NotStarted)
             by (apply Ho; lia).
           rewrite Hns in Hvo. symmetry.
           apply (viewed_not_started _ _ (consumer_launched _ _ _ _) Hvo).
        -- right. exists 0%nat. cbn. f_equal.
           assert (Hns : stderr_drain (run sched initial) = NotStarted)
             by (apply He; lia).
           rewrite Hns in Hve. symmetry.
           apply (viewed_not_started _ _ (consumer_launched _ _ _ _) Hve).
      * destruct (Hpast Hk) as [(err & Hc & Hwait)|(r & Hc)]; rewrite Hc, ?Hctx;
          cbn; repeat split; auto.
    + cbn [execx.step]. rewrite Hctx.
      pose proof (viewed_step _ _ _ Hvo) as Hvo'.
      destruct (drain_step None (stdout_drain (run sched initial))) as [d es].
      unfold effects_of in *.
      cbn [effects stdout_drain stderr_drain ctx_Err fst snd] in *.
      rewrite !by_goroutine_app, !by_goroutine_tag. cbn [Tid_eqb].
      rewrite app_nil_r. auto.
    + cbn [execx.step]. rewrite Hctx.
      pose proof (viewed_step _ _ _ Hve) as Hve'.
      destruct (drain_step None (stderr_drain (run sched initial))) as [d es].
      unfold effects_of in *.
      cbn [effects stdout_drain stderr_drain ctx_Err fst snd] in *.
      rewrite !by_goroutine_app, !by_goroutine_tag. cbn [Tid_eqb].
      rewrite app_nil_r. auto.
    + exfalso. apply (Hun cause). apply in_or_app. right. now left.
Qed.

End DrainView.

Lemma streamToSlog_scanning pipe :
  let s := NewScanner_Buffer pipe (64 * 1024) maxCapacity in
  scanning s /\ maxTokenSize s = maxCapacity /\ unscanned s = iox.unread pipe /\
  iox.closing (r s) = iox.closing pipe.
Proof.
  cbv zeta. unfold scanning, unscanned, NewScanner_Buffer, end_, maxCapacity, maxInt.
  cbn. repeat split; lia.
Qed.

(** What a consumer of [streamToSlog] is expected to do with a stream of
    fitting lines followed by [tail]. *)
Definition expected (level : slog.Level) (pipe : iox.Reader)
           (lines : list (list byte)) (tail : list byte) : list Effect :=
  map (line_record level) lines ++ tail_effects level (iox.closing pipe) tail.

Lemma viewed_lines level pipe lines tail d es :
  iox.unread pipe = join_lines lines ++ tail ->
  Forall fits lines -> unbroken tail ->
  viewed (streamToSlog pipe level) d es ->
  (exists rest, expected level pipe lines tail = es ++ rest) /\
  (d = Finished -> es = expected level pipe lines tail) /\
  (launched d ->
   forall n, (2 * List.length lines + 3 <= n)%nat ->
             drain_run n None d = (Finished, skipn (List.length es)
                                                   (expected level pipe lines tail))).
Proof.
  intros Hun Hfit Htail Hview.
  destruct (streamToSlog_scanning pipe) as (Hs & Hmax & Hun0 & Hclose).
  assert (Hfull : forall n, (2 * List.length lines + 3 <= n)%nat ->
                            drain_run n None (streamToSlog pipe level)
                            = (Finished, expected level pipe lines tail)).
  { intros n Hn. unfold streamToSlog, expected. rewrite <- Hclose.
    apply streamToSlog_lines; auto; now rewrite Hun0. }
  destruct Hview as [[-> ->]|[m Hm]].
  - split; [exists (expected level pipe lines tail); reflexivity|].
    split; [discriminate|]. intro H. now destruct H.
  - assert (Hsplit : forall n, (2 * List.length lines + 3 <= n)%nat ->
                               drain_run n None d
                               = (Finished, skipn (List.length es)
                                              (expected level pipe lines tail)) /\
                               expected level pipe lines tail
                               = es ++ snd (drain_run n None d)).
    { intros n Hn. pose proof (Hfull (m + n)%nat ltac:(lia)) as H.
      rewrite drain_run_app, Hm in H.
      destruct (drain_run n None d) as [d' es']. injection H as -> <-.
      rewrite skipn_app, skipn_all, Nat.sub_diag. cbn. auto. }
    split; [|split].
    + destruct (Hsplit _ (Nat.le_refl _)) as [_ ->]. eauto.
    + intros ->. destruct (Hsplit _ (Nat.le_refl _)) as [_ ->].
      now rewrite drain_run_finished, app_nil_r.
    + intros _ n Hn. now apply Hsplit.
Qed.


Section DrainAlone.

Variable creator : CommandCreator.
Variable command : string.
Variable streamToLog : bool.
Variable args : list string.

Local Notation "'run'" := (execx.run creator command streamToLog args).

Lemma step_drain_fields t s :
  t <> Caller -> ctx_Err s = None ->
  let s1 := execx.step creator command streamToLog args (Go t) s in
  drain_of t s1 = fst (drain_step None (drain_of t s)) /\
  ctx_Err s1 = None /\ caller s1 = caller s /\
  (forall t', t' <> t -> drain_of t' s1 = drain_of t' s).
Proof.
  intros Ht Hctx. destruct t; [congruence| |]; cbn; rewrite Hctx.
  - destruct (drain_step None (stdout_drain s)) as [d es]. cbn.
    repeat split; auto. intros [| |] Ht'; cbn; congruence.
  - destruct (drain_step None (stderr_drain s)) as [d es]. cbn.
    repeat split; auto. intros [| |] Ht'; cbn; congruence.
Qed.

(** A consumer scheduled on its own, under a context that is not
    cancelled, takes the steps of [drain_run]; nothing else moves. *)
Lemma run_drain_only t n :
  forall s, t <> Caller -> ctx_Err s = None ->
    let s' := run (repeat (Go t) n) s in
    drain_of t s' = fst (drain_run n None (drain_of t s)) /\
    ctx_Err s' = None /\ caller s' = caller s /\
    (forall t', t' <> t -> drain_of t' s' = drain_of t' s).
Proof.
  cbv zeta. induction n as [|n IH]; intros s Ht Hctx.
  - cbn. auto.
  - change (repeat (Go t) (S n)) with ([Go t] ++ repeat (Go t) n).
    rewrite run_app. cbn [execx.run fold_left].
    destruct (step_drain_fields t s Ht Hctx) as (Hd1 & Hc1 & Hpc1 & Hother1).
    destruct (IH _ Ht Hc1) as (Hd & Hc & Hpc & Hother).
    rewrite Hd, Hc, Hpc, Hd1, Hpc1. cbn [drain_run].
    destruct (drain_step None (drain_of t s)) as [d es]. cbn [fst].
    destruct (drain_run n None d) as [d' es']. cbn [fst].
    repeat split; auto.
    intros t' Ht'. now rewrite (Hother t' Ht'), (Hother1 t' Ht').
Qed.

End DrainAlone.

Lemma uncancelled_app sched1 sched2 :
  uncancelled sched1 -> uncancelled sched2 -> uncancelled (sched1 ++ sched2).
Proof.
  intros H1 H2 cause Hin. apply in_app_or in Hin.
  destruct Hin as [Hin|Hin]; [apply (H1 cause Hin)|apply (H2 cause Hin)].
Qed.

Lemma uncancelled_repeat t n : uncancelled (repeat (Go t) n).
Proof. intros cause Hin. apply repeat_spec in Hin. discriminate. Qed.

Lemma caller_steps_repeat n : caller_steps (repeat (Go Caller) n) = n.
Proof. induction n as [|n IH]; cbn; congruence. Qed.

Section Delivery.

Variable creator : CommandCreator.
Variable command : string.
Variable args : list string.

Local Notation "'run'" := (execx.run creator command true args).
Local Notation "'cmd'" := (execx.cmd creator command args).

Variables stdout stderr : iox.Reader.
Hypothesis pipe_out : StdoutPipe cmd = inl stdout.
Hypothesis pipe_err : StderrPipe cmd = inl stderr.
Hypothesis started : Start cmd = None.

Variables out_lines err_lines : list (list byte).
Variables out_tail err_tail : list byte.
Hypothesis out_shape : iox.unread stdout = join_lines out_lines ++ out_tail.
Hypothesis err_shape : iox.unread stderr = join_lines err_lines ++ err_tail.
Hypothesis out_fit : Forall fits out_lines.
Hypothesis err_fit : Forall fits err_lines.
Hypothesis out_unbroken : unbroken out_tail.
Hypothesis err_unbroken : unbroken err_tail.

(** While the context is not cancelled, what each consumer has logged is
    a prefix of what is expected of it, and all of it once the consumer
    has finished. *)
Lemma delivery sched :
  uncancelled sched ->
  let s := run sched initial in
  let out := expected slog.LevelInfo stdout out_lines out_tail in
  let err := expected slog.LevelError stderr err_lines err_tail in
  (exists rest, out = effects_of StdoutDrain s ++ rest) /\
  (exists rest, err = effects_of StderrDrain s ++ rest) /\
  (stdout_drain s = Finished -> effects_of StdoutDrain s = out) /\
  (stderr_drain s = Finished -> effects_of StderrDrain s = err).
Proof.
  intro Hun. cbv zeta.
  destruct (drain_view creator command true args stdout stderr
              pipe_out pipe_err started sched Hun) as (_ & Hvo & Hve).
  destruct (viewed_lines _ _ _ _ _ _ out_shape out_fit out_unbroken Hvo)
    as (Hpo & Hfo & _).
  destruct (viewed_lines _ _ _ _ _ _ err_shape err_fit err_unbroken Hve)
    as (Hpe & Hfe & _).
  auto.
Qed.

(** Every run under a context that is not cancelled can go on, without
    cancellation, until both consumers have finished. *)
Lemma both_finish sched :
  uncancelled sched ->
  exists more,
    uncancelled more /\
    stdout_drain (run (sched ++ more) initial) = Finished /\
    stderr_drain (run (sched ++ more) initial) = Finished.
Proof.
  intro Hun.
  set (n1 := (2 * List.length out_lines + 3)%nat).
  set (n2 := (2 * List.length err_lines + 3)%nat).
  exists (repeat (Go Caller) 6 ++ repeat (Go StdoutDrain) n1
          ++ repeat (Go StderrDrain) n2).
  assert (Hun1 : uncancelled (sched ++ repeat (Go Caller) 6))
    by (apply uncancelled_app; [exact Hun|apply uncancelled_repeat]).
  split; [repeat apply uncancelled_app; apply uncancelled_repeat|].
  rewrite (app_assoc sched).
  rewrite (run_app _ _ _ _ (sched ++ repeat (Go Caller) 6)).
  rewrite (run_app _ _ _ _ (repeat (Go StdoutDrain) n1)).
  set (s1 := run (sched ++ repeat (Go Caller) 6) initial).
  destruct (drain_view creator command true args stdout stderr
              pipe_out pipe_err started _ Hun1) as (Hctx & Hvo & Hve).
  pose proof (started_progress creator command true args stdout stderr
                pipe_out pipe_err started (sched ++ repeat (Go Caller) 6))
    as (_ & _ & Ho & He & _).
  rewrite caller_steps_app, caller_steps_repeat in Ho, He.
  fold s1 in Hctx, Hvo, Hve, Ho, He.
  destruct (viewed_lines _ _ _ _ _ _ out_shape out_fit out_unbroken Hvo)
    as (_ & _ & Hlo).
  destruct (viewed_lines _ _ _ _ _ _ err_shape err_fit err_unbroken Hve)
    as (_ & _ & Hle).
  assert (Hlao : launched (stdout_drain s1)) by (intro H; apply Ho in H; lia).
  assert (Hlae : launched (stderr_drain s1)) by (intro H; apply He in H; lia).
  destruct (run_drain_only creator command true args StdoutDrain n1 s1
              ltac:(discriminate) Hctx) as (Hd2 & Hctx2 & _ & Hother2).
  set (s2 := run (repeat (Go StdoutDrain) n1) s1) in *.
  destruct (run_drain_only creator command true args StderrDrain n2 s2
              ltac:(discriminate) Hctx2) as (Hd3 & _ & _ & Hother3).
  split.
  - change (stdout_drain ?x) with (drain_of StdoutDrain x).
    rewrite (Hother3 StdoutDrain ltac:(discriminate)), Hd2.
    cbn [drain_of]. now rewrite (Hlo Hlao n1 (Nat.le_refl _)).
  - change (stderr_drain ?x) with (drain_of StderrDrain x).
    rewrite Hd3, (Hother2 StderrDrain ltac:(discriminate)).
    cbn [drain_of]. now rewrite (Hle Hlae n2 (Nat.le_refl _)).
Qed.

End Delivery.

(** ** Independence of the streams *)

Section Independence.

Variable command : string.
Variable streamToLog : bool.
Variable args : list string.
Variables creator1 creator2 : CommandCreator.

Local Notation "'run1'" := (execx.run creator1 command streamToLog args).
Local Notation "'run2'" := (execx.run creator2 command streamToLog args).
Local Notation "'cmd1'" := (execx.cmd creator1 command args).
Local Notation "'cmd2'" := (execx.cmd creator2 command args).

Variables stdout1 stderr1 stdout2 stderr2 : iox.Reader.
Hypothesis pipe_out1 : StdoutPipe cmd1 = inl stdout1.
Hypothesis pipe_err1 : StderrPipe cmd1 = inl stderr1.
Hypothesis pipe_out2 : StdoutPipe cmd2 = inl stdout2.
Hypothesis pipe_err2 : StderrPipe cmd2 = inl stderr2.
Hypothesis started1 : Start cmd1 = None.
Hypothesis started2 : Start cmd2 = None.
Hypothesis same_wait : Wait cmd1 = Wait cmd2.



End Independence.

(** ** Lines within the cap, lines beyond it *)

(** The lines of a stream: those that end in a newline and, when the
    stream ends without one, the bytes after the last newline. *)
Definition all_lines (lines : list (list byte)) (last : list byte)
  : list (list byte) :=
  lines ++ match last with [] => [] | _ :: _ => [last] end.

Lemma expected_lines level pipe lines last :
  fits last ->
  unbroken last /\
  expected level pipe lines last
  = map (line_record level) (all_lines lines last)
    ++ closing_report (iox.closing pipe).
Proof.
  intros [Hidx Hlen]. unfold unbroken, expected, tail_effects, next, all_lines.
  rewrite Hidx, map_app, <- app_assoc. split; [exact I|].
  destruct (Z.ltb_spec (Z.of_nat (List.length last)) maxCapacity); [|lia].
  now destruct last.
Qed.

Lemma expected_too_long level pipe lines long rest :
  IndexByte long LF = None -> (maxCapacity <= Z.of_nat (List.length long))%Z ->
  unbroken (long ++ rest) /\
  expected level pipe lines (long ++ rest)
  = map (line_record level) lines ++ [failure_record bufio_ErrTooLong].
Proof.
  intros Hidx Hlen. unfold unbroken, expected, tail_effects, next.
  rewrite (IndexByte_app_missing _ _ _ Hidx), length_app.
  destruct (IndexByte rest LF) as [j|]; cbn [option_map].
  - split; [lia|].
    destruct (Z.ltb_spec (Z.of_nat (List.length long + j)) maxCapacity);
      [lia|reflexivity].
  - split; [exact I|].
    destruct (Z.ltb_spec (Z.of_nat (List.length long + List.length rest))
                         maxCapacity); [lia|reflexivity].
Qed.

Lemma IndexByte_repeat b c n : b <> c -> IndexByte (repeat b n) c = None.
Proof.
  intro Hne. induction n as [|n IH]; [reflexivity|]. cbn.
  destruct (Byte.eqb b c) eqn:E; [apply byte_dec_bl in E; contradiction|].
  now rewrite IH.
Qed.

(** The stream that goroutine [t] consumes, the level at which its lines
    are logged, and the other consumer. *)
Definition pipe_of (t : Tid) (stdout stderr : iox.Reader) : iox.Reader :=
  match t with StderrDrain => stderr | _ => stdout end.

Definition level_of (t : Tid) : slog.Level :=
  match t with StderrDrain => slog.LevelError | _ => slog.LevelInfo end.


(** C5, as amended: with [streamToLog] true and a context that is not
    cancelled, each consumer logs one record per line that its pipe
    delivers, in order, the lines of standard output at [LevelInfo] and
    those of standard error at [LevelError], provided every line is shorter
    than [maxCapacity] (1 MiB), so that it fits the buffer with its
    newline; the buffer starts at 64 KiB.  The text of a record is the line
    without its end-of-line marker.  The only other record of a consumer is
    the last one, [failed to read stream] at [LevelError], and it is there
    exactly when the pipe ends with an error other than [io.EOF], as a pipe
    does that [Wait] has closed before it was read to its end; the bytes
    that were not delivered are not logged.  What a consumer has logged at
    any moment is a prefix of these records, it is all of them once the
    consumer has finished, and every run can go on until both have. *)
Theorem each_line_is_logged_once :
  forall creator command args stdout stderr out_lines out_last err_lines err_last
         sched,
    let c := execx.cmd creator command args in
    let run := execx.run creator command true args in
    let s := run sched initial in
    let out := map (line_record slog.LevelInfo) (all_lines out_lines out_last)
               ++ closing_report (iox.closing stdout) in
    let err := map (line_record slog.LevelError) (all_lines err_lines err_last)
               ++ closing_report (iox.closing stderr) in
    StdoutPipe c = inl stdout -> StderrPipe c = inl stderr -> Start c = None ->
    iox.unread stdout = join_lines out_lines ++ out_last ->
    iox.unread stderr = join_lines err_lines ++ err_last ->
    Forall fits (out_last :: out_lines) -> Forall fits (err_last :: err_lines) ->
    uncancelled sched ->
    (exists rest, out = effects_of StdoutDrain s ++ rest) /\
    (exists rest, err = effects_of StderrDrain s ++ rest) /\
    (stdout_drain s = Finished -> effects_of StdoutDrain s = out) /\
    (stderr_drain s = Finished -> effects_of StderrDrain s = err) /\
    (exists more,
       uncancelled more /\
       stdout_drain (run (sched ++ more) initial) = Finished /\
       stderr_drain (run (sched ++ more) initial) = Finished).
Proof.
  intros creator command args stdout stderr out_lines out_last err_lines err_last
         sched c run s out err Hout Herr Hstart Hso Hse Hfo Hfe Hun.
  subst c run s out err.
  inversion Hfo as [|? ? Hlo Hlso]; inversion Hfe as [|? ? Hle Hlse]; subst.
  destruct (expected_lines slog.LevelInfo stdout out_lines out_last Hlo)
    as [Huo Heo].
  destruct (expected_lines slog.LevelError stderr err_lines err_last Hle)
    as [Hue Hee].
  rewrite <- Heo, <- Hee.
  destruct (delivery creator command args stdout stderr Hout Herr Hstart
              out_lines err_lines out_last err_last Hso Hse Hlso Hlse Huo Hue
              sched Hun) as (H1 & H2 & H3 & H4).
  repeat split; auto.
  apply (both_finish creator command args stdout stderr Hout Herr Hstart
           out_lines err_lines out_last err_last Hso Hse Hlso Hlse Huo Hue
           sched Hun).
Qed.

Lemma fits_repeat b n :
  b <> LF -> (Z.of_nat n < maxCapacity)%Z -> fits (repeat b n).
Proof.
  intros Hb Hn. split; [now apply IndexByte_repeat|]. now rewrite repeat_length.
Qed.

Ltac short_fits :=
  split; [reflexivity|unfold maxCapacity; cbn [List.length]; lia].

(** The error of a read from a pipe that [Wait] has closed. *)
Definition os_ErrClosed : error := external_error "file already closed".

(** A subprocess that writes [ok] and then a line of 100000 bytes, more
    than the initial buffer holds, to standard output, and to standard
    error a line that ends in CR LF followed by a line without newline;
    the pipe of standard error is closed once these have been read. *)
Definition wide_line : list byte := repeat "a"%byte (Z.to_nat 100000).

Definition chatty : CommandCreator := fun _ _ =>
  mkCommander
    (inl (reader_of (join_lines [["o"; "k"]%byte; wide_line] ++ [])))
    (inl (iox.mkReader [join_lines [["w"; "a"; "r"; "n"; x0d]%byte]
                        ++ ["e"; "n"; "d"]%byte] os_ErrClosed))
    None None.

Lemma unread_reader_of text : iox.unread (reader_of text) = text.
Proof. unfold iox.unread, reader_of. cbn. apply app_nil_r. Qed.

Lemma each_line_is_logged_once_witness :
  let sched := repeat (Go Caller) 6 ++ repeat (Go StdoutDrain) 5 in
  let run := execx.run chatty "sh" true ["-c"; "script"] in
  let s := run sched initial in
  let out := map (line_record slog.LevelInfo) [["o"; "k"]%byte; wide_line] in
  let err := map (line_record slog.LevelError)
                 [["w"; "a"; "r"; "n"; x0d]%byte; ["e"; "n"; "d"]%byte]
             ++ [failure_record os_ErrClosed] in
  (exists rest, out = effects_of StdoutDrain s ++ rest) /\
  (exists rest, err = effects_of StderrDrain s ++ rest) /\
  (stdout_drain s = Finished -> effects_of StdoutDrain s = out) /\
  (stderr_drain s = Finished -> effects_of StderrDrain s = err) /\
  (exists more,
     uncancelled more /\
     stdout_drain (run (sched ++ more) initial) = Finished /\
     stderr_drain (run (sched ++ more) initial) = Finished).
Proof.
  cbv zeta.
  apply (each_line_is_logged_once chatty "sh" ["-c"; "script"]
           (reader_of (join_lines [["o"; "k"]%byte; wide_line] ++ []))
           (iox.mkReader [join_lines [["w"; "a"; "r"; "n"; x0d]%byte]
                          ++ ["e"; "n"; "d"]%byte] os_ErrClosed)
           [["o"; "k"]%byte; wide_line] []
           [["w"; "a"; "r"; "n"; x0d]%byte] ["e"; "n"; "d"]%byte).
  - reflexivity.
  - reflexivity.
  - reflexivity.
  - apply unread_reader_of.
  - reflexivity.
  - apply Forall_cons; [short_fits|].
    apply Forall_cons; [short_fits|].
    apply Forall_cons; [|apply Forall_nil].
    apply fits_repeat; [discriminate|]. unfold maxCapacity. lia.
  - apply Forall_cons; [short_fits|].
    apply Forall_cons; [short_fits|apply Forall_nil].
  - apply uncancelled_app; apply uncancelled_repeat.
Defined.

(** The state in which the caller is about to wait. *)
Lemma after_launch creator command streamToLog args stdout stderr :
  let c := execx.cmd creator command args in
  StdoutPipe c = inl stdout -> StderrPipe c = inl stderr -> Start c = None ->
  execx.run creator command streamToLog args (repeat (Go Caller) 6) initial
  = mkState AtWait
            (consumer streamToLog slog.LevelInfo os_Stdout stdout)
            (consumer streamToLog slog.LevelError os_Stderr stderr)
            None []
            [CallCommandContext command args; CallSetStdin; CallStdoutPipe;
             CallStderrPipe; CallStart].
Proof.
  cbv zeta. intros Hout Herr Hstart.
  unfold execx.run. cbn [repeat fold_left execx.step].
  unfold caller_step at 6. cbn [caller initial goto].
  unfold caller_step at 5. cbn [caller goto]. rewrite Hout.
  unfold caller_step at 4. cbn [caller goto]. rewrite Herr.
  unfold caller_step at 3. cbn [caller goto]. rewrite Hstart.
  unfold caller_step at 2. cbn [caller goto].
  unfold caller_step. cbn. reflexivity.
Qed.

(** A subprocess that writes one line and its newline to standard output
    and exits with status 0. *)
Definition one_line (line : list byte) : CommandCreator := fun _ _ =>
  mkCommander (inl (reader_of (line ++ [LF]))) (inl (reader_of [])) None None.

(** A line of [maxCapacity] bytes or more is not logged: the consumer
    reports [bufio.ErrTooLong] and finishes. *)
Lemma long_line_is_not_logged (line : list byte) :
  IndexByte line LF = None -> (maxCapacity <= Z.of_nat (List.length line))%Z ->
  let sched := repeat (Go Caller) 6 ++ repeat (Go StdoutDrain) 3 in
  let s := execx.run (one_line line) "sh" true [] sched initial in
  uncancelled sched /\
  stdout_drain s = Finished /\
  effects_of StdoutDrain s = [failure_record bufio_ErrTooLong] /\
  effects_of StdoutDrain s <> map (line_record slog.LevelInfo) [line].
Proof.
  intros Hidx Hlen. cbv zeta.
  assert (Hun : uncancelled (repeat (Go Caller) 6 ++ repeat (Go StdoutDrain) 3))
    by (apply uncancelled_app; apply uncancelled_repeat).
  destruct (expected_too_long slog.LevelInfo (reader_of (line ++ [LF])) []
              line [LF] Hidx Hlen) as [Hbroken Hexp].
  destruct (delivery (one_line line) "sh" [] (reader_of (line ++ [LF]))
              (reader_of []) eq_refl eq_refl eq_refl [] [] (line ++ [LF]) []
              (unread_reader_of _) (unread_reader_of _) (Forall_nil _)
              (Forall_nil _) Hbroken I _ Hun) as (_ & _ & Hfin & _).
  rewrite Hexp in Hfin. cbn [map app] in Hfin.
  assert (Hdone : stdout_drain
                    (execx.run (one_line line) "sh" true []
                       (repeat (Go Caller) 6 ++ repeat (Go StdoutDrain) 3)
                       initial) = Finished).
  { rewrite run_app.
    rewrite (after_launch (one_line line) "sh" true [] (reader_of (line ++ [LF]))
               (reader_of []) eq_refl eq_refl eq_refl).
    match goal with
    | |- stdout_drain (execx.run _ _ _ _ _ ?s1) = _ =>
        destruct (run_drain_only (one_line line) "sh" true [] StdoutDrain 3 s1
                    ltac:(discriminate) eq_refl) as (Hd & _)
    end.
    cbn [drain_of] in Hd. rewrite Hd. cbn [stdout_drain consumer].
    unfold streamToSlog.
    destruct (streamToSlog_scanning (reader_of (line ++ [LF])))
      as (Hs & Hmax & Hu & _).
    rewrite (streamToSlog_lines [] slog.LevelInfo _ (line ++ [LF]) 3 Hs Hmax);
      auto.
    rewrite Hu. apply unread_reader_of. }
  repeat split; auto.
  rewrite (Hfin Hdone). discriminate.
Qed.

(** A line of exactly 1 MiB. *)
Definition mib_line : list byte := repeat "a"%byte (Z.to_nat maxCapacity).

(** C5 does not hold as it is stated, for two reasons.  A line of exactly
    1 MiB is not delivered: with the context not cancelled, the consumer of
    standard output reports [bufio.ErrTooLong] and finishes, and the line
    is not logged.  And a line read under a cancelled context is not
    delivered either: in [execute(ctx, "sh", true, "-c", "echo ok")],
    cancelled after the consumer has read the line [ok], the consumer logs
    the cancellation notice and finishes without logging the line. *)
Lemma some_lines_are_not_logged :
  (Z.of_nat (List.length mib_line) = (1024 * 1024)%Z /\
   IndexByte mib_line LF = None /\
   let sched := repeat (Go Caller) 6 ++ repeat (Go StdoutDrain) 3 in
   let s := execx.run (one_line mib_line) "sh" true [] sched initial in
   uncancelled sched /\
   stdout_drain s = Finished /\
   effects_of StdoutDrain s = [failure_record bufio_ErrTooLong] /\
   effects_of StdoutDrain s <> map (line_record slog.LevelInfo) [mib_line]) /\
  (let sched := repeat (Go Caller) 6
                ++ [Go StdoutDrain; Cancel context_Canceled; Go StdoutDrain] in
   let s := execx.run echo_ok "sh" true ["-c"; "echo ok"] sched initial in
   stdout_drain s = Finished /\
   effects_of StdoutDrain s = [cancel_record context_Canceled] /\
   effects_of StdoutDrain s
   <> map (line_record slog.LevelInfo) [["o"; "k"]%byte]).
Proof.
  assert (Hlen : Z.of_nat (List.length mib_line) = maxCapacity).
  { unfold mib_line. rewrite repeat_length. unfold maxCapacity. lia. }
  assert (Hidx : IndexByte mib_line LF = None)
    by (apply IndexByte_repeat; discriminate).
  split.
  - split; [exact Hlen|]. split; [exact Hidx|].
    apply (long_line_is_not_logged mib_line Hidx). lia.
  - cbv zeta.
    assert (Heff : effects_of StdoutDrain
                     (execx.run echo_ok "sh" true ["-c"; "echo ok"]
                        (repeat (Go Caller) 6
                         ++ [Go StdoutDrain; Cancel context_Canceled;
                             Go StdoutDrain]) initial)
                   = [cancel_record context_Canceled])
      by (vm_compute; reflexivity).
    split; [vm_compute; reflexivity|]. split; [exact Heff|].
    rewrite Heff. discriminate.
Qed.

(** *** The scanners of a run *)



















(** ** Cancellation seen by the consumers *)




(** A consumer of [streamToSlog], or none yet. *)
Definition logging (d : Drain) : Prop :=
  match d with
  | AtCopy _ _ => False
  | _ => True
  end.

Lemma drain_step_logging ctxErr d : logging d -> logging (fst (drain_step ctxErr d)).
Proof.
  destruct d as [|level sc|level sc|dst src|]; cbn; auto.
  - intros _. destruct (bufio.Scan sc) as [[|] sc']; cbn; auto.
    now destruct (bufio.Err sc').
  - intros _. now destruct ctxErr.
  - intros [].
Qed.


Section Cancelled.

Variable creator : CommandCreator.
Variable command : string.
Variable args : list string.

Local Notation "'run'" := (execx.run creator command true args).
Local Notation "'step'" := (execx.step creator command true args).

Lemma step_logging l s :
  logging (stdout_drain s) -> logging (stderr_drain s) ->
  logging (stdout_drain (step l s)) /\ logging (stderr_drain (step l s)).
Proof.
  intros Ho He. destruct l as [[| |]|cause]; cbn.
  - unfold caller_step, goto.
    destruct (caller s); cbn; auto;
      repeat match goal with
             | |- context [match ?x with _ => _ end] => destruct x; cbn; auto
             end.
  - pose proof (drain_step_logging (ctx_Err s) _ Ho).
    now destruct (drain_step (ctx_Err s) (stdout_drain s)).
  - pose proof (drain_step_logging (ctx_Err s) _ He).
    now destruct (drain_step (ctx_Err s) (stderr_drain s)).
  - now destruct (ctx_Err s).
Qed.

Lemma run_logging sched :
  logging (stdout_drain (run sched initial)) /\
  logging (stderr_drain (run sched initial)).
Proof.
  apply (schedule_ind creator command true args
           (fun _ s => logging (stdout_drain s) /\ logging (stderr_drain s))).
  - cbn. auto.
  - intros sched' l [Ho He]. now apply step_logging.
Qed.



End Cancelled.




(** * Further properties of the code *)

(** ** [Exec.Run]: the calls on the command and the result *)

(** The calls of a run of [Run] that gets as far as [Wait], in order. *)
Definition all_calls (command : string) (args : list string) : list Method :=
  [CallCommandContext command args; CallSetStdin; CallStdoutPipe;
   CallStderrPipe; CallStart; CallWait].

(** How many of them [Run] makes before it returns: it stops at the first
    of [StdoutPipe], [StderrPipe] and [Start] that fails. *)
Definition calls_made (c : Commander) : nat :=
  match StdoutPipe c with
  | inr _ => 3
  | inl _ =>
      match StderrPipe c with
      | inr _ => 4
      | inl _ => match Start c with Some _ => 5 | None => 6 end
      end
  end.

(** The result of [Run], given what the command answers and what
    [ctx.Err()] is when [Run] looks at it. *)
Definition outcome (command : string) (c : Commander) (ctxErr : option error)
  : option error :=
  match StdoutPipe c with
  | inr e => Some (Errorf_w "failed to get stdout pipe: %w" [] e)
  | inl _ =>
      match StderrPipe c with
      | inr e => Some (Errorf_w "failed to get stderr pipe: %w" [] e)
      | inl _ =>
          match Start c with
          | Some e => Some (Errorf_w "failed to start command %q: %w" [command] e)
          | None =>
              match Wait c with
              | Some e => Some (classified command ctxErr e)
              | None => None
              end
          end
      end
  end.

(** Where a run is after [k] steps of the calling goroutine: the calls
    made so far, what the command has answered, and which consumers have
    been launched. *)
Definition on_track (creator : CommandCreator) (command : string)
           (args : list string) (k : nat) (s : State) : Prop :=
  let c := execx.cmd creator command args in
  let full := all_calls command args in
  let idle := stdout_drain s = NotStarted /\ stderr_drain s = NotStarted in
  let busy := launched (stdout_drain s) /\ launched (stderr_drain s) in
  match caller s with
  | AtEntry => k = 0%nat /\ calls s = [] /\ idle
  | AtStdoutPipe => k = 1%nat /\ calls s = firstn 2 full /\ idle
  | AtStderrPipe stdout =>
      k = 2%nat /\ calls s = firstn 3 full /\ idle /\ calls_made c <> 3%nat
  | AtStart stdout stderr =>
      k = 3%nat /\ calls s = firstn 4 full /\ idle /\ (5 <= calls_made c)%nat
  | AtGoStdout stdout stderr =>
      k = 4%nat /\ calls s = firstn 5 full /\ idle /\ calls_made c = 6%nat
  | AtGoStderr stderr =>
      k = 5%nat /\ calls s = firstn 5 full /\ calls_made c = 6%nat /\
      launched (stdout_drain s) /\ stderr_drain s = NotStarted
  | AtWait =>
      k = 6%nat /\ calls s = firstn 5 full /\ calls_made c = 6%nat /\ busy
  | AtCtxErr e =>
      k = 7%nat /\ calls s = full /\ calls_made c = 6%nat /\ busy /\
      Wait c = Some e
  | Returned r =>
      calls s = firstn (calls_made c) full /\
      (r = outcome command c None \/ r = outcome command c (ctx_Err s)) /\
      (if (calls_made c =? 6)%nat then busy else idle)
  end.

Lemma drain_step_keeps_launched ctxErr d :
  launched d -> launched (fst (drain_step ctxErr d)).
Proof.
  unfold launched. intros Hd H. apply Hd.
  now apply (drain_step_launched ctxErr).
Qed.

Lemma drain_step_keeps_idle ctxErr d :
  d = NotStarted -> fst (drain_step ctxErr d) = NotStarted.
Proof. intros ->. reflexivity. Qed.

Section Protocol.

Variable creator : CommandCreator.
Variable command : string.
Variable streamToLog : bool.
Variable args : list string.

Local Notation "'run'" := (execx.run creator command streamToLog args).
Local Notation "'step'" := (execx.step creator command streamToLog args).
Local Notation "'cmd'" := (execx.cmd creator command args).

Lemma on_track_other l s k :
  l <> Go Caller -> on_track creator command args k s ->
  on_track creator command args k (step l s).
Proof.
  intros Hl H. unfold on_track in *.
  destruct (step_other_caller creator command streamToLog args l s Hl)
    as [Hc Hcalls].
  rewrite Hc, Hcalls.
  assert (Hidle : stdout_drain s = NotStarted /\ stderr_drain s = NotStarted ->
                  stdout_drain (step l s) = NotStarted /\
                  stderr_drain (step l s) = NotStarted).
  { intros [Ho He].
    destruct (step_drains_not_started creator command streamToLog args l s
                Hl Ho He) as (Ho' & He' & _). now split. }
  assert (Hout : launched (stdout_drain s) -> launched (stdout_drain (step l s))).
  { destruct l as [[| |]|cause]; try congruence; cbn; auto.
    - intro Hd. apply (drain_step_keeps_launched (ctx_Err s)) in Hd.
      now destruct (drain_step (ctx_Err s) (stdout_drain s)).
    - now destruct (drain_step (ctx_Err s) (stderr_drain s)).
    - now destruct (ctx_Err s). }
  assert (Herr : launched (stderr_drain s) -> launched (stderr_drain (step l s))).
  { destruct l as [[| |]|cause]; try congruence; cbn; auto.
    - now destruct (drain_step (ctx_Err s) (stdout_drain s)).
    - intro Hd. apply (drain_step_keeps_launched (ctx_Err s)) in Hd.
      now destruct (drain_step (ctx_Err s) (stderr_drain s)).
    - now destruct (ctx_Err s). }
  assert (Herr0 : stderr_drain s = NotStarted ->
                  stderr_drain (step l s) = NotStarted).
  { destruct l as [[| |]|cause]; try congruence; cbn; auto.
    - now destruct (drain_step (ctx_Err s) (stdout_drain s)).
    - intro Hd. apply (drain_step_keeps_idle (ctx_Err s)) in Hd.
      now destruct (drain_step (ctx_Err s) (stderr_drain s)).
    - now destruct (ctx_Err s). }
  assert (Hctx : forall r,
             r = outcome command cmd None \/ r = outcome command cmd (ctx_Err s) ->
             r = outcome command cmd None \/
             r = outcome command cmd (ctx_Err (step l s))).
  { intros r [Hr|Hr]; [now left|].
    destruct l as [[| |]|cause]; try congruence; cbn.
    - right. now destruct (drain_step (ctx_Err s) (stdout_drain s)).
    - right. now destruct (drain_step (ctx_Err s) (stderr_drain s)).
    - destruct (ctx_Err s) eqn:E; cbn; rewrite ?E; auto. }
  destruct (caller s); intuition auto;
    destruct (calls_made cmd =? 6)%nat; intuition auto.
Qed.

Lemma on_track_caller s k :
  on_track creator command args k s ->
  on_track creator command args (S k)
           (caller_step creator command streamToLog args s).
Proof.
  unfold on_track, caller_step, calls_made, outcome, all_calls, launched.
  destruct (caller s) as [| |stdout|stdout stderr|stdout stderr|stderr| |e|r] eqn:Hpc.
  9: { now rewrite Hpc. }
  all: intro H.
  - destruct H as (-> & Hcalls & Ho & He). cbn. rewrite Hcalls. auto.
  - destruct H as (-> & Hcalls & Ho & He).
    destruct (StdoutPipe cmd) as [stdout|e]; cbn; rewrite Hcalls; cbn;
      repeat split; auto;
      repeat match goal with
             | |- context [match ?x with _ => _ end] => destruct x
             end; discriminate.
  - destruct H as (-> & Hcalls & (Ho & He) & Hmade).
    destruct (StdoutPipe cmd) as [stdout'|e]; [|congruence].
    destruct (StderrPipe cmd) as [stderr|e]; cbn; rewrite Hcalls; cbn;
      repeat split; auto; destruct (Start cmd); lia.
  - destruct H as (-> & Hcalls & (Ho & He) & Hmade).
    destruct (StdoutPipe cmd) as [stdout'|e]; [|lia].
    destruct (StderrPipe cmd) as [stderr'|e]; [|lia].
    destruct (Start cmd) as [e|]; cbn; rewrite Hcalls; cbn; repeat split; auto.
  - destruct H as (-> & Hcalls & (Ho & He) & Hmade).
    cbn. repeat split; auto. destruct streamToLog; discriminate.
  - destruct H as (-> & Hcalls & Hmade & Ho & He).
    cbn. repeat split; auto. destruct streamToLog; discriminate.
  - destruct H as (-> & Hcalls & Hmade & Ho & He).
    destruct (StdoutPipe cmd) as [stdout'|e]; [|lia].
    destruct (StderrPipe cmd) as [stderr'|e]; [|lia].
    destruct (Start cmd) as [e|]; [lia|].
    destruct (Wait cmd) as [e|]; cbn; rewrite Hcalls; cbn; repeat split; auto.
  - destruct H as (-> & Hcalls & Hmade & (Ho & He) & Hwait).
    destruct (StdoutPipe cmd) as [stdout'|e']; [|lia].
    destruct (StderrPipe cmd) as [stderr'|e']; [|lia].
    destruct (Start cmd) as [e'|]; [lia|].
    rewrite Hwait.
    destruct (ctx_Err s) as [cause|] eqn:Hctx; cbn; rewrite Hcalls, ?Hctx; cbn;
      rewrite ?app_nil_r; repeat split; auto.
Qed.

(** A run stays on track, whatever the schedule. *)
Lemma run_on_track sched :
  on_track creator command args (caller_steps sched) (run sched initial).
Proof.
  apply (schedule_ind creator command streamToLog args
           (fun sched s => on_track creator command args (caller_steps sched) s)).
  - cbn. auto.
  - clear sched. intros sched l Htrack.
    rewrite caller_steps_app.
    destruct (Label_is_caller l) as [->|Hl].
    + cbn [caller_steps execx.step]. rewrite Nat.add_1_r.
      now apply on_track_caller.
    + assert (Hsteps : caller_steps [l] = 0%nat)
        by (destruct l as [[| |]|cause]; cbn; congruence).
      rewrite Hsteps, Nat.add_0_r. now apply on_track_other.
Qed.

End Protocol.

(** A consumer that has not been launched has done nothing, and the
    calling goroutine itself neither logs nor writes. *)
Lemma caller_step_drains creator command streamToLog args s :
  let s' := caller_step creator command streamToLog args s in
  effects s' = effects s /\
  (stdout_drain s' = NotStarted -> stdout_drain s = NotStarted) /\
  (stderr_drain s' = NotStarted -> stderr_drain s = NotStarted).
Proof.
  cbv zeta. unfold caller_step, goto.
  destruct (caller s); cbn; auto;
    repeat match goal with
           | |- context [match ?x with _ => _ end] => destruct x; cbn; auto
           end;
    repeat split; auto; discriminate.
Qed.

Lemma unlaunched_silent creator command streamToLog args sched :
  let s := execx.run creator command streamToLog args sched initial in
  (stdout_drain s = NotStarted -> effects_of StdoutDrain s = []) /\
  (stderr_drain s = NotStarted -> effects_of StderrDrain s = []) /\
  effects_of Caller s = [].
Proof.
  cbv zeta.
  apply (schedule_ind creator command streamToLog args
           (fun _ s =>
              (stdout_drain s = NotStarted -> effects_of StdoutDrain s = []) /\
              (stderr_drain s = NotStarted -> effects_of StderrDrain s = []) /\
              effects_of Caller s = [])).
  - cbn. auto.
  - clear sched. intros sched l (Ho & He & Hc).
    set (s := execx.run creator command streamToLog args sched initial) in *.
    unfold effects_of in *.
    destruct l as [[| |]|cause]; cbn [execx.step].
    + destruct (caller_step_drains creator command streamToLog args s)
        as (Heff & Ho' & He').
      rewrite Heff. auto.
    + pose proof (drain_step_launched (ctx_Err s) (stdout_drain s)) as Hl.
      destruct (drain_step (ctx_Err s) (stdout_drain s)) as [d es] eqn:Hd.
      cbn [effects stdout_drain stderr_drain fst] in *.
      rewrite !by_goroutine_app, !by_goroutine_tag. cbn [Tid_eqb].
      rewrite !app_nil_r. repeat split; auto.
      intros ->. destruct Hl as [Hl _]. specialize (Hl eq_refl).
      rewrite Hl in Hd. cbn in Hd. injection Hd as <-.
      rewrite app_nil_r. auto.
    + pose proof (drain_step_launched (ctx_Err s) (stderr_drain s)) as Hl.
      destruct (drain_step (ctx_Err s) (stderr_drain s)) as [d es] eqn:Hd.
      cbn [effects stdout_drain stderr_drain fst] in *.
      rewrite !by_goroutine_app, !by_goroutine_tag. cbn [Tid_eqb].
      rewrite !app_nil_r. repeat split; auto.
      intros ->. destruct Hl as [Hl _]. specialize (Hl eq_refl).
      rewrite Hl in Hd. cbn in Hd. injection Hd as <-.
      rewrite app_nil_r. auto.
    + destruct (ctx_Err s); cbn; auto.
Qed.

(** A context that is not cancelled during the schedule is not cancelled
    at its end. *)
Lemma uncancelled_ctx creator command streamToLog args sched :
  uncancelled sched ->
  ctx_Err (execx.run creator command streamToLog args sched initial) = None.
Proof.
  apply (schedule_ind creator command streamToLog args
           (fun sched s => uncancelled sched -> ctx_Err s = None)).
  - reflexivity.
  - clear sched. intros sched l IH Hun.
    assert (Hun' : uncancelled sched).
    { intros cause Hin. apply (Hun cause), in_or_app. now left. }
    specialize (IH Hun').
    destruct l as [[| |]|cause]; cbn [execx.step].
    + unfold caller_step, goto.
      destruct (caller _); cbn; auto;
        repeat match goal with
               | |- context [match ?x with _ => _ end] => destruct x; cbn; auto
               end.
    + now destruct (drain_step _ (stdout_drain _)).
    + now destruct (drain_step _ (stderr_drain _)).
    + exfalso. apply (Hun cause), in_or_app. right. now left.
Qed.

(** X1: [Run] creates one command and calls [SetStdin], [StdoutPipe],
    [StderrPipe], [Start] and [Wait] on it in this order, each at most
    once: under every schedule the calls made so far are an initial part
    of that sequence, and once [Run] has returned they are the part that
    ends with the first call that failed (or with [Wait]). *)
Theorem calls_are_made_once_and_in_order :
  forall creator command streamToLog args sched,
    let c := execx.cmd creator command args in
    let s := execx.run creator command streamToLog args sched initial in
    (exists n, (n <= calls_made c)%nat /\
               calls s = firstn n (all_calls command args)) /\
    (forall r, caller s = Returned r ->
               calls s = firstn (calls_made c) (all_calls command args)).
Proof.
  intros creator command streamToLog args sched c s. subst c s.
  pose proof (run_on_track creator command streamToLog args sched) as H.
  unfold on_track in H.
  assert (Hmin : (3 <= calls_made (execx.cmd creator command args))%nat).
  { unfold calls_made.
    repeat match goal with
           | |- context [match ?x with _ => _ end] => destruct x
           end; lia. }
  destruct (caller _) eqn:Hpc.
  9: { destruct H as (Hcalls & _). split; [eexists; split; [|exact Hcalls]; lia|].
       intros r' _. exact Hcalls. }
  all: split; [|discriminate].
  - exists 0%nat. split; [lia|]. now destruct H as (_ & -> & _).
  - exists 2%nat. split; [lia|]. now destruct H as (_ & -> & _).
  - exists 3%nat. split; [lia|]. now destruct H as (_ & -> & _).
  - exists 4%nat. split; [|now destruct H as (_ & -> & _)].
    destruct H as (_ & _ & _ & H). lia.
  - exists 5%nat. split; [|now destruct H as (_ & -> & _)].
    destruct H as (_ & _ & _ & H). lia.
  - exists 5%nat. split; [|now destruct H as (_ & -> & _)].
    destruct H as (_ & _ & H & _). lia.
  - exists 5%nat. split; [|now destruct H as (_ & -> & _)].
    destruct H as (_ & _ & H & _). lia.
  - exists 6%nat. split; [|now destruct H as (_ & -> & _)].
    destruct H as (_ & _ & H & _). lia.
Qed.

(** X2: the consumers run between [Start] and [Wait].  Under every
    schedule and for every command: a consumer has been launched only
    after [Start] has been called and has succeeded, the consumer of
    standard output before that of standard error; by the time [Wait] is
    called both have been launched; and a consumer that has not been
    launched has logged and written nothing. *)
Theorem consumers_are_launched_between_Start_and_Wait :
  forall creator command streamToLog args sched,
    let c := execx.cmd creator command args in
    let s := execx.run creator command streamToLog args sched initial in
    (launched (stdout_drain s) -> In CallStart (calls s) /\ Start c = None) /\
    (launched (stderr_drain s) -> launched (stdout_drain s)) /\
    (In CallWait (calls s) ->
     launched (stdout_drain s) /\ launched (stderr_drain s)) /\
    (forall t, drain_of t s = NotStarted -> effects_of t s = []).
Proof.
  intros creator command streamToLog args sched c s. subst c s.
  pose proof (run_on_track creator command streamToLog args sched) as H.
  pose proof (unlaunched_silent creator command streamToLog args sched)
    as (Hso & Hse & Hsc).
  unfold on_track in H.
  assert (Hstart : calls_made (execx.cmd creator command args) = 6%nat ->
                   Start (execx.cmd creator command args) = None).
  { unfold calls_made.
    repeat match goal with
           | |- context [match ?x with _ => _ end] => destruct x
           end; auto; discriminate. }
  split; [|split; [|split]].
  4: { intros [| |] Hd; cbn [drain_of] in Hd; auto. }
  all: destruct (Nat.eqb_spec (calls_made (execx.cmd creator command args)) 6)
         as [Hsix|Hsix].
  all: destruct (caller _) eqn:Hpc.
  all: unfold launched in *; cbn [all_calls firstn] in *.
  all: intros;
    repeat match goal with Hc : _ /\ _ |- _ => destruct Hc end;
    repeat match goal with
           | Hc : calls _ = _ |- _ => rewrite Hc in *; clear Hc
           end;
    rewrite ?Hsix in *; cbn in *; intuition (try congruence; try lia; auto).
  all: exfalso;
    assert (Hmade : (calls_made (execx.cmd creator command args) <= 5)%nat)
      by (unfold calls_made in *;
          repeat match goal with
                 | |- context [match ?x with _ => _ end] => destruct x
                 end; lia);
    match goal with
    | Hin : In CallWait _ |- _ =>
        destruct (calls_made (execx.cmd creator command args))
          as [|[|[|[|[|[|n]]]]]]; cbn in Hin; intuition (try congruence; lia)
    end.
Qed.

(** X3: [Run] does not wait for its consumers and succeeds only if
    every call does.  Under every schedule, cancelled or not, [Run] has
    returned once its goroutine has taken eight steps, whatever the
    consumers have done; the result is nil exactly when [StdoutPipe],
    [StderrPipe], [Start] and [Wait] have all succeeded; and once
    returned, the result stays. *)
Theorem run_returns_and_succeeds_only_if_every_call_does :
  forall creator command streamToLog args sched,
    let c := execx.cmd creator command args in
    let s := execx.run creator command streamToLog args sched initial in
    ((8 <= caller_steps sched)%nat -> exists r, caller s = Returned r) /\
    (forall r, caller s = Returned r ->
       (r = None <->
        (exists stdout stderr,
           StdoutPipe c = inl stdout /\ StderrPipe c = inl stderr) /\
        Start c = None /\ Wait c = None)) /\
    (forall r more,
       caller s = Returned r ->
       caller (execx.run creator command streamToLog args (sched ++ more) initial)
       = Returned r).
Proof.
  intros creator command streamToLog args sched c s. subst c s.
  pose proof (run_on_track creator command streamToLog args sched) as H.
  unfold on_track in H.
  split; [|split].
  - intro H8. destruct (caller _) eqn:Hpc; eauto; exfalso; intuition lia.
  - intros r Hr. rewrite Hr in H. destruct H as (_ & Hres & _).
    unfold outcome, classified in Hres.
    destruct (StdoutPipe _) as [stdout|e1]; [destruct (StderrPipe _) as [stderr|e2];
      [destruct (Start _) as [e3|]; [|destruct (Wait _) as [e4|]]|]|].
    all: split; [intros ->|intros ((so & se & Ho & He) & Hs & Hw)];
      try discriminate.
    all: try (destruct Hres as [Hres|Hres]; [discriminate|];
              destruct (ctx_Err _); discriminate).
    all: try (destruct Hres; discriminate).
    + repeat split; eauto.
    + destruct Hres; congruence.
  - intros r more Hr. rewrite run_app. now apply run_returned.
Qed.

(** X4: under a context that is never cancelled, such as the
    [context.Background()] that the runners of [golang], [kox] and [helmx]
    pass, the result of [Run] is decided by what the command answers and
    by nothing else: whatever the schedule, the result [Run] returns is
    [outcome command c None], it has returned it after eight steps, and it
    is never the error of a cancelled command. *)
Theorem result_without_cancellation :
  forall creator command streamToLog args sched,
    let c := execx.cmd creator command args in
    let s := execx.run creator command streamToLog args sched initial in
    uncancelled sched ->
    (forall r, caller s = Returned r -> r = outcome command c None) /\
    ((8 <= caller_steps sched)%nat ->
     caller s = Returned (outcome command c None)) /\
    (forall cause,
       outcome command c None
       <> Some (Errorf_w "command %q canceled: %w" [command] cause)).
Proof.
  intros creator command streamToLog args sched c s Hun. subst c s.
  pose proof (run_on_track creator command streamToLog args sched) as H.
  pose proof (uncancelled_ctx creator command streamToLog args sched Hun) as Hctx.
  unfold on_track in H.
  assert (Hres : forall r,
             caller (execx.run creator command streamToLog args sched initial)
             = Returned r ->
             r = outcome command (execx.cmd creator command args) None).
  { intros r Hr. rewrite Hr, Hctx in H. destruct H as (_ & [Hres|Hres] & _); auto. }
  split; [exact Hres|]. split.
  - intro H8. destruct (caller _) eqn:Hpc; try (exfalso; intuition lia).
    f_equal. now apply Hres.
  - intro cause. unfold outcome, classified.
    repeat match goal with
           | |- context [match ?x with _ => _ end] => destruct x
           end; discriminate.
Qed.

(** A command that starts and exits with status 1, run under a context
    that is not cancelled, the consumers being scheduled in between. *)
Definition exit_1 : CommandCreator := fun _ _ =>
  mkCommander (inl (reader_of ["o"; "k"; x0a]%byte)) (inl (reader_of []))
              None (Some (external_error "exit status 1")).

Lemma result_without_cancellation_witness :
  let sched := repeat (Go Caller) 6 ++ [Go StdoutDrain; Go StderrDrain]
               ++ repeat (Go Caller) 2 in
  caller (execx.run exit_1 "false" true [] sched initial)
  = Returned (Some (Errorf_w "command %q failed: %w" ["false"]
                             (external_error "exit status 1"))).
Proof.
  cbv zeta.
  destruct (result_without_cancellation exit_1 "false" true []
              (repeat (Go Caller) 6 ++ [Go StdoutDrain; Go StderrDrain]
               ++ repeat (Go Caller) 2)) as (_ & Hdone & _).
  - intros cause Hin. cbn in Hin. intuition discriminate.
  - apply Hdone. cbn. lia.
Defined.

(** ** The consumers under any schedule *)

(** A consumer as seen in a state of the machine when the context may
    have been cancelled: it is as in [viewed], or it has met the cancelled
    context at its check, after some steps taken as if the context were
    not cancelled, and has logged the notice and finished. *)
Definition viewed_any (ctxErr : option error) (d0 d : Drain) (es : list Effect)
  : Prop :=
  viewed d0 d es \/
  (exists m level sc es' cause,
     drain_run m None d0 = (AtSelect level sc, es') /\
     ctxErr = Some cause /\ d = Finished /\ es = es' ++ [cancel_record cause]).

Lemma drain_step_before_select cause d :
  (forall level sc, d <> AtSelect level sc) ->
  drain_step (Some cause) d = drain_step None d.
Proof.
  destruct d as [|level sc|level sc|dst src|]; intro H; try reflexivity.
  now destruct (H level sc).
Qed.

Lemma viewed_any_step ctxErr d0 d es :
  viewed_any ctxErr d0 d es ->
  viewed_any ctxErr d0 (fst (drain_step ctxErr d)) (es ++ snd (drain_step ctxErr d)).
Proof.
  intros [Hv|(m & level & sc & es' & cause & Hm & Hctx & -> & ->)].
  - destruct ctxErr as [cause|]; [|left; now apply viewed_step].
    destruct d as [|level sc|level sc|dst src|].
    3: { destruct Hv as [[Hd _]|[m Hm]]; [discriminate|].
         right. exists m, level, sc, es, cause. cbn. auto. }
    all: rewrite drain_step_before_select by discriminate;
      left; now apply viewed_step.
  - right. exists m, level, sc, es', cause. cbn. rewrite app_nil_r. auto.
Qed.

Lemma viewed_any_cancel cause ctxErr d0 d es :
  viewed_any ctxErr d0 d es ->
  viewed_any (match ctxErr with Some c => Some c | None => Some cause end) d0 d es.
Proof.
  intros [Hv|(m & level & sc & es' & c & Hm & -> & -> & ->)]; [now left|].
  right. exists m, level, sc, es', c. auto.
Qed.

Section DrainViewAny.

Variable creator : CommandCreator.
Variable command : string.
Variable streamToLog : bool.
Variable args : list string.

Local Notation "'run'" := (execx.run creator command streamToLog args).
Local Notation "'cmd'" := (execx.cmd creator command args).

Variables stdout stderr : iox.Reader.
Hypothesis pipe_out : StdoutPipe cmd = inl stdout.
Hypothesis pipe_err : StderrPipe cmd = inl stderr.
Hypothesis started : Start cmd = None.

(** Under every schedule each consumer is where some steps of its own
    have taken it from its launch, and has done what those steps do. *)
Lemma drain_view_any sched :
  let s := run sched initial in
  viewed_any (ctx_Err s) (consumer streamToLog slog.LevelInfo os_Stdout stdout)
             (stdout_drain s) (effects_of StdoutDrain s) /\
  viewed_any (ctx_Err s) (consumer streamToLog slog.LevelError os_Stderr stderr)
             (stderr_drain s) (effects_of StderrDrain s).
Proof.
  cbv zeta.
  apply (schedule_ind creator command streamToLog args
           (fun sched s =>
              viewed_any (ctx_Err s)
                         (consumer streamToLog slog.LevelInfo os_Stdout stdout)
                         (stdout_drain s) (effects_of StdoutDrain s) /\
              viewed_any (ctx_Err s)
                         (consumer streamToLog slog.LevelError os_Stderr stderr)
                         (stderr_drain s) (effects_of StderrDrain s))).
  - cbn. split; left; left; now split.
  - clear sched. intros sched l (Hvo & Hve).
    pose proof (started_progress creator command streamToLog args stdout stderr
                  pipe_out pipe_err started sched) as (Hpc & Hpast & Ho & He & _).
    pose proof (unlaunched_silent creator command streamToLog args sched)
      as (Hso & Hse & _).
    set (s := run sched initial) in *.
    destruct l as [[| |]|cause].
    + cbn [execx.step]. unfold caller_step, effects_of in *.
      destruct (Nat.lt_ge_cases (caller_steps sched) 7) as [Hk|Hk].
      * rewrite (Hpc Hk).
        destruct (caller_steps sched) as [|[|[|[|[|[|[|k]]]]]]];
          cbn [nth to_wait]; try lia;
          rewrite ?pipe_out, ?pipe_err, ?started;
          try match goal with
              | |- context [match Wait cmd with _ => _ end] => destruct (Wait cmd)
              end;
          cbn; repeat split; auto.
        -- left. right. exists 0%nat. cbn. f_equal. symmetry.
           apply Hso, Ho. lia.
        -- left. right. exists 0%nat. cbn. f_equal. symmetry.
           apply Hse, He. lia.
      * destruct (Hpast Hk) as [(err & Hc & Hwait)|(r & Hc)]; rewrite Hc;
          [destruct (ctx_Err s) eqn:E|];
          cbn [goto ctx_Err stdout_drain stderr_drain effects];
          rewrite ?E; split; assumption.
    + cbn [execx.step].
      pose proof (viewed_any_step _ _ _ _ Hvo) as Hvo'.
      destruct (drain_step (ctx_Err s) (stdout_drain s)) as [d es].
      unfold effects_of in *.
      cbn [effects stdout_drain stderr_drain ctx_Err fst snd] in *.
      rewrite !by_goroutine_app, !by_goroutine_tag. cbn [Tid_eqb].
      rewrite app_nil_r. auto.
    + cbn [execx.step].
      pose proof (viewed_any_step _ _ _ _ Hve) as Hve'.
      destruct (drain_step (ctx_Err s) (stderr_drain s)) as [d es].
      unfold effects_of in *.
      cbn [effects stdout_drain stderr_drain ctx_Err fst snd] in *.
      rewrite !by_goroutine_app, !by_goroutine_tag. cbn [Tid_eqb].
      rewrite app_nil_r. auto.
    + cbn [execx.step].
      pose proof (viewed_any_cancel cause _ _ _ _ Hvo) as Hvo'.
      pose proof (viewed_any_cancel cause _ _ _ _ Hve) as Hve'.
      destruct (ctx_Err s) eqn:E;
        cbn [ctx_Err stdout_drain stderr_drain effects effects_of];
        rewrite ?E; split; assumption.
Qed.

End DrainViewAny.
(** ** [streamToSlog]: cancellation *)

(** X5: cancellation only cuts the log of a consumer short.  With
    [streamToLog] true, under every schedule and wherever the context is
    cancelled in it, what a consumer has logged is an initial part of
    what it logs when the context is not cancelled, followed by at most
    one cancellation notice; the notice carries [ctx.Err()], it is the
    last thing the consumer does, and it stands in for records that are
    then never logged. *)
Theorem cancellation_only_cuts_the_log_short :
  forall creator command args stdout stderr t lines tail sched,
    let c := execx.cmd creator command args in
    let s := execx.run creator command true args sched initial in
    let pipe := pipe_of t stdout stderr in
    t <> Caller ->
    StdoutPipe c = inl stdout -> StderrPipe c = inl stderr -> Start c = None ->
    iox.unread pipe = join_lines lines ++ tail ->
    Forall fits lines -> unbroken tail ->
    exists logged rest,
      expected (level_of t) pipe lines tail = logged ++ rest /\
      (effects_of t s = logged \/
       exists cause,
         ctx_Err s = Some cause /\ drain_of t s = Finished /\ rest <> [] /\
         effects_of t s = logged ++ [cancel_record cause]).
Proof.
  intros creator command args stdout stderr t lines tail sched c s pipe
         Ht Hout Herr Hstart Hshape Hfit Htail.
  subst c s pipe.
  destruct (drain_view_any creator command true args stdout stderr
              Hout Herr Hstart sched) as [Hvo Hve].
  assert (Hv : viewed_any
                 (ctx_Err (execx.run creator command true args sched initial))
                 (streamToSlog (pipe_of t stdout stderr) (level_of t))
                 (drain_of t (execx.run creator command true args sched initial))
                 (effects_of t (execx.run creator command true args sched initial)))
    by (destruct t; [congruence| |]; assumption).
  clear Hvo Hve.
  destruct Hv as [Hv|(m & level & sc & es' & cause & Hm & Hctx & Hd & Hes)].
  - destruct (viewed_lines _ _ _ _ _ _ Hshape Hfit Htail Hv) as ([rest Hpre] & _).
    exists (effects_of t (execx.run creator command true args sched initial)), rest.
    auto.
  - assert (Hv : viewed (streamToSlog (pipe_of t stdout stderr) (level_of t))
                        (AtSelect level sc) es') by (right; now exists m).
    destruct (viewed_lines _ _ _ _ _ _ Hshape Hfit Htail Hv)
      as ([rest Hpre] & _ & Hrun).
    exists es', rest. split; [exact Hpre|]. right. exists cause.
    repeat split; auto.
    intros ->. rewrite app_nil_r in Hpre.
    specialize (Hrun ltac:(discriminate) _ (Nat.le_refl _)).
    rewrite Hpre, skipn_all in Hrun.
    replace (2 * List.length lines + 3)%nat
      with (S (2 * List.length lines + 2))%nat in Hrun by lia.
    cbn [drain_run drain_step] in Hrun.
    destruct (drain_run _ None (AtScan level sc)) as [d' es''].
    discriminate Hrun.
Qed.

(** [sh -c "echo ok"] streamed to the log and cancelled after the
    consumer of standard output has read the line: the notice is all the
    consumer logs. *)
Lemma cancellation_only_cuts_the_log_short_witness :
  let sched := repeat (Go Caller) 6
               ++ [Go StdoutDrain; Cancel context_Canceled; Go StdoutDrain] in
  let s := execx.run echo_ok "sh" true ["-c"; "echo ok"] sched initial in
  exists logged rest,
    expected (level_of StdoutDrain)
             (pipe_of StdoutDrain (reader_of ["o"; "k"; x0a]%byte) (reader_of []))
             [["o"; "k"]%byte] []
    = logged ++ rest /\
    (effects_of StdoutDrain s = logged \/
     exists cause,
       ctx_Err s = Some cause /\ drain_of StdoutDrain s = Finished /\
       rest <> [] /\ effects_of StdoutDrain s = logged ++ [cancel_record cause]).
Proof.
  cbv zeta.
  apply (cancellation_only_cuts_the_log_short echo_ok "sh" ["-c"; "echo ok"]
           (reader_of ["o"; "k"; x0a]%byte) (reader_of []) StdoutDrain
           [["o"; "k"]%byte] []).
  - discriminate.
  - reflexivity.
  - reflexivity.
  - reflexivity.
  - reflexivity.
  - apply Forall_cons; [short_fits|apply Forall_nil].
  - exact I.
Defined.

(** ** Terminal passthrough: the consumers around [io.Copy] *)




(** A step of the loop of [io.Copy]: at the end of the stream, or when the
    read fails, the consumer finishes without writing; otherwise it writes
    the bytes read, at least one and at most [copyBufSize]. *)
Lemma drain_step_copy ctxErr dst src :
  (iox.unread src = [] /\ drain_step ctxErr (AtCopy dst src) = (Finished, [])) \/
  (exists bs src',
     drain_step ctxErr (AtCopy dst src) = (AtCopy dst src', [Write dst bs]) /\
     bs <> [] /\ (Z.of_nat (List.length bs) <= copyBufSize)%Z /\
     bs ++ iox.unread src' = iox.unread src).
Proof.
  cbn [drain_step].
  destruct (Read_spec src copyBufSize ltac:(reflexivity))
    as [[Hend ->]|(bs & src' & -> & Hne & Happ & Hlen & _)].
  - left. now split.
  - right. exists bs, src'. destruct bs as [|b bs]; [congruence|]. auto.
Qed.






Section Passthrough.

Variable creator : CommandCreator.
Variable command : string.
Variable args : list string.

Local Notation "'run'" := (execx.run creator command false args).
Local Notation "'cmd'" := (execx.cmd creator command args).

Variables stdout stderr : iox.Reader.
Hypothesis pipe_out : StdoutPipe cmd = inl stdout.
Hypothesis pipe_err : StderrPipe cmd = inl stderr.
Hypothesis started : Start cmd = None.




End Passthrough.




(** ** One sink for each mode *)

(** Effects that are all records logged by the consumers. *)
Definition log_only (eff : list (Tid * Effect)) : Prop :=
  Forall (fun te => fst te <> Caller /\ exists rec, snd te = Log rec) eff.

(** Effects that are all writes of the consumers to the terminal, those
    of the consumer of standard output to [os.Stdout] and those of the
    consumer of standard error to [os.Stderr]. *)
Definition terminal_only (eff : list (Tid * Effect)) : Prop :=
  Forall (fun te =>
            exists bs,
              te = (StdoutDrain, Write os_Stdout bs) \/
              te = (StderrDrain, Write os_Stderr bs)) eff.

(** A consumer that copies to [f], or none yet. *)
Definition copying (f : File) (d : Drain) : Prop :=
  match d with
  | AtScan _ _ | AtSelect _ _ => False
  | AtCopy dst _ => dst = f
  | _ => True
  end.

Lemma drain_step_logs ctxErr d :
  logging d -> Forall (fun e => exists rec, e = Log rec) (snd (drain_step ctxErr d)).
Proof.
  destruct d as [|level sc|level sc|dst src|]; cbn; auto.
  - intros _. destruct (bufio.Scan sc) as [[|] sc']; cbn; auto.
    destruct (bufio.Err sc'); cbn; eauto.
  - intros _. destruct ctxErr; cbn; eauto.
  - intros [].
Qed.

Lemma drain_step_copies ctxErr f d :
  copying f d ->
  copying f (fst (drain_step ctxErr d)) /\
  Forall (fun e => exists bs, e = Write f bs) (snd (drain_step ctxErr d)).
Proof.
  destruct d as [|level sc|level sc|dst src|]; cbn [copying];
    try contradiction; try (cbn; now auto).
  intros ->.
  destruct (drain_step_copy ctxErr f src)
    as [[_ ->]|(bs & src' & -> & _)]; cbn; eauto 10.
Qed.

Lemma caller_step_copying creator command args s :
  let s' := caller_step creator command false args s in
  copying os_Stdout (stdout_drain s) -> copying os_Stderr (stderr_drain s) ->
  copying os_Stdout (stdout_drain s') /\ copying os_Stderr (stderr_drain s').
Proof.
  cbv zeta. intros Ho He. unfold caller_step, goto.
  destruct (caller s); cbn; auto;
    repeat match goal with
           | |- context [match ?x with _ => _ end] => destruct x; cbn; auto
           end.
Qed.

Lemma Forall_tagged {P : Effect -> Prop} {Q : Tid * Effect -> Prop} t es :
  (forall e, P e -> Q (t, e)) -> Forall P es -> Forall Q (tag t es).
Proof.
  intros HPQ H. unfold tag. apply Forall_map.
  eapply Forall_impl; [|exact H]. exact HPQ.
Qed.

(** X7: each mode has its own sink.  Whatever the command and the
    schedule, with [streamToLog] true the consumers only log and nothing
    is written to the terminal; with [streamToLog] false nothing is
    logged, not even when a read fails or the context is cancelled, and
    the consumers only write to the terminal, the consumer of standard
    output to [os.Stdout] and that of standard error to [os.Stderr].  The
    goroutine that calls [Run] neither logs nor writes. *)
Theorem each_mode_has_its_own_sink :
  forall creator command streamToLog args sched,
    let s := execx.run creator command streamToLog args sched initial in
    if streamToLog then log_only (effects s) else terminal_only (effects s).
Proof.
  intros creator command [|] args sched; cbv zeta.
  - apply (schedule_ind creator command true args
             (fun sched s => log_only (effects s))).
    + constructor.
    + clear sched. intros sched l IH.
      destruct (run_logging creator command args sched) as [Ho He].
      set (s := execx.run creator command true args sched initial) in *.
      destruct l as [[| |]|cause]; cbn [execx.step].
      * destruct (caller_step_drains creator command true args s) as (-> & _).
        exact IH.
      * pose proof (drain_step_logs (ctx_Err s) _ Ho) as Hes.
        destruct (drain_step (ctx_Err s) (stdout_drain s)) as [d es].
        cbn [effects snd] in *. apply Forall_app. split; [exact IH|].
        refine (Forall_tagged StdoutDrain es _ Hes).
        intros e [rec ->]. split; [discriminate|now exists rec].
      * pose proof (drain_step_logs (ctx_Err s) _ He) as Hes.
        destruct (drain_step (ctx_Err s) (stderr_drain s)) as [d es].
        cbn [effects snd] in *. apply Forall_app. split; [exact IH|].
        refine (Forall_tagged StderrDrain es _ Hes).
        intros e [rec ->]. split; [discriminate|now exists rec].
      * now destruct (ctx_Err s).
  - assert (H : copying os_Stdout
                        (stdout_drain (execx.run creator command false args sched
                                                 initial)) /\
                copying os_Stderr
                        (stderr_drain (execx.run creator command false args sched
                                                 initial)) /\
                terminal_only (effects (execx.run creator command false args sched
                                                  initial))).
    2: { now destruct H as (_ & _ & H). }
    apply (schedule_ind creator command false args
             (fun sched s =>
                copying os_Stdout (stdout_drain s) /\
                copying os_Stderr (stderr_drain s) /\
                terminal_only (effects s))).
    + cbn. repeat split; auto. constructor.
    + clear sched. intros sched l (Ho & He & IH).
      set (s := execx.run creator command false args sched initial) in *.
      destruct l as [[| |]|cause]; cbn [execx.step].
      * destruct (caller_step_drains creator command false args s) as (-> & _).
        destruct (caller_step_copying creator command args s Ho He). auto.
      * destruct (drain_step_copies (ctx_Err s) _ _ Ho) as [Ho' Hes].
        destruct (drain_step (ctx_Err s) (stdout_drain s)) as [d es].
        cbn [effects stdout_drain stderr_drain fst snd] in *.
        repeat split; auto. apply Forall_app. split; [exact IH|].
        refine (Forall_tagged StdoutDrain es _ Hes).
        intros e (bs & ->). exists bs. auto.
      * destruct (drain_step_copies (ctx_Err s) _ _ He) as [He' Hes].
        destruct (drain_step (ctx_Err s) (stderr_drain s)) as [d es].
        cbn [effects stdout_drain stderr_drain fst snd] in *.
        repeat split; auto. apply Forall_app. split; [exact IH|].
        refine (Forall_tagged StderrDrain es _ Hes).
        intros e (bs & ->). exists bs. auto.
      * destruct (ctx_Err s); cbn; auto.
Qed.

(** ** The buffer of [streamToSlog] *)

(** A scanner whose buffer has between the 64 KiB it is given at first
    and [maxCapacity] bytes, and holds its data and its token within
    them. *)
Definition within_cap (sc : Scanner) : Prop :=
  (64 * 1024 <= buf_len sc)%Z /\ (buf_len sc <= maxCapacity)%Z /\
  maxTokenSize sc = maxCapacity /\
  (0 <= start sc)%Z /\ (end_ sc <= buf_len sc)%Z /\
  (Z.of_nat (List.length (token sc)) <= buf_len sc)%Z.

Definition capped (d : Drain) : Prop :=
  match d with
  | AtScan _ sc | AtSelect _ sc => within_cap sc
  | _ => True
  end.

(** Records whose text has at most [maxCapacity] bytes. *)
Definition short_records (eff : list (Tid * Effect)) : Prop :=
  Forall (fun te =>
            match snd te with
            | Log rec =>
                slog.attrs rec = [] ->
                (Z.of_nat (String.length (slog.message rec)) <= maxCapacity)%Z
            | Write _ _ => True
            end) eff.

Lemma read_chunks_length cs n bs cs' :
  iox.read_chunks cs n = Some (bs, cs') -> (List.length bs <= n)%nat.
Proof.
  induction cs as [|c cs IH]; cbn; [discriminate|].
  destruct c as [|b c]; [exact IH|].
  intro H. injection H as <- _. apply firstn_le_length.
Qed.

Lemma Read_length rd n :
  (List.length (fst (fst (iox.Read rd n))) <= Z.to_nat n)%nat.
Proof.
  unfold iox.Read.
  destruct (iox.read_chunks (iox.pending rd) (Z.to_nat n)) as [[bs cs]|] eqn:H;
    cbn; [|lia].
  now apply read_chunks_length in H.
Qed.

Lemma dropCR_length data : (List.length (dropCR data) <= List.length data)%nat.
Proof.
  unfold dropCR.
  destruct ((0 <? List.length data)%nat && Byte.eqb (last data x00) CR); [|lia].
  rewrite removelast_firstn_len, length_firstn. lia.
Qed.

Lemma ScanLines_length data atEOF advance t :
  ScanLines data atEOF = (advance, Some t) ->
  (advance <= List.length data)%nat /\ (List.length t <= List.length data)%nat.
Proof.
  unfold ScanLines.
  destruct (atEOF && (List.length data =? 0)%nat); [discriminate|].
  destruct (IndexByte data LF) as [i|] eqn:Hidx.
  - intro H. injection H as <- <-. apply IndexByte_lt in Hidx.
    split; [lia|]. etransitivity; [apply dropCR_length|].
    rewrite length_firstn. lia.
  - destruct atEOF; [|discriminate].
    intro H. injection H as <- <-. split; [lia|apply dropCR_length].
Qed.

Lemma string_of_list_byte_length l :
  String.length (string_of_list_byte l) = List.length l.
Proof.
  unfold string_of_list_byte. induction l as [|b l IH]; cbn; congruence.
Qed.

Lemma setErr_within s e : within_cap s -> within_cap (setErr s e).
Proof. unfold setErr. destruct (err s) as [[]|]; auto. Qed.

Lemma fill_within s : within_cap s -> within_cap (fill s).
Proof.
  intros (Hmin & Hcap & Hmax & Hstart & Hend & Htok).
  unfold fill. pose proof (Read_length (r s) (buf_len s - end_ s)) as Hlen.
  destruct (iox.Read (r s) (buf_len s - end_ s)) as [[bs e] rd].
  cbn [fst] in Hlen.
  assert (H : within_cap (mkScanner rd (maxTokenSize s) (token s) (buf_len s)
                                    (start s) (data s ++ bs) (err s))).
  { unfold within_cap, end_ in *. cbn. rewrite length_app.
    repeat split; auto; lia. }
  destruct e as [e|]; [now apply setErr_within|].
  destruct bs; [now apply setErr_within|exact H].
Qed.

Lemma Scan_pass_within s :
  within_cap s ->
  match Scan_pass s with
  | inl (_, s') | inr s' => within_cap s'
  end.
Proof.
  intros (Hmin & Hcap & Hmax & Hstart & Hend & Htok).
  unfold Scan_pass.
  destruct (if ((start s <? end_ s)%Z || isSome (err s))%bool
            then ScanLines (data s) (isSome (err s)) else (0%nat, None))
    as [advance [t|]] eqn:Hsplit.
  - destruct ((start s <? end_ s)%Z || isSome (err s))%bool; [|discriminate].
    apply ScanLines_length in Hsplit. destruct Hsplit as [Hadv Ht].
    unfold within_cap, end_ in *. cbn. rewrite length_skipn.
    repeat split; auto; lia.
  - set (s0 := if ((start s <? end_ s)%Z || isSome (err s))%bool
               then set_token s [] else s).
    assert (H0 : within_cap s0).
    { unfold s0. destruct ((start s <? end_ s)%Z || isSome (err s))%bool;
        unfold within_cap, end_ in *; cbn; repeat split; auto; lia. }
    destruct (isSome (err s0)).
    { destruct H0 as (? & ? & ? & ? & ? & ?).
      unfold within_cap, end_ in *. cbn. repeat split; auto; lia. }
    set (s1 := if ((0 <? start s0)%Z
                   && ((end_ s0 =? buf_len s0)%Z || (buf_len s0 / 2 <? start s0)%Z))%bool
               then set_buf s0 (buf_len s0) 0 else s0).
    assert (H1 : within_cap s1).
    { unfold s1.
      destruct ((0 <? start s0)%Z
                && ((end_ s0 =? buf_len s0)%Z || (buf_len s0 / 2 <? start s0)%Z))%bool;
        [|exact H0].
      destruct H0 as (? & ? & ? & ? & ? & ?).
      unfold within_cap, end_ in *. cbn. repeat split; auto; lia. }
    destruct (end_ s1 =? buf_len s1)%Z eqn:Hfull; [|now apply fill_within].
    destruct ((maxTokenSize s1 <=? buf_len s1)%Z || (maxInt / 2 <? buf_len s1)%Z)%bool
      eqn:Hbig; [now apply setErr_within|].
    apply fill_within.
    apply orb_false_iff in Hbig. destruct Hbig as [Hbig _].
    apply Z.leb_gt in Hbig. apply Z.eqb_eq in Hfull.
    destruct H1 as (? & ? & Hm1 & ? & ? & ?).
    rewrite Hm1 in *.
    destruct (buf_len s1 * 2 =? 0)%Z eqn:Hzero;
      [apply Z.eqb_eq in Hzero; lia|].
    unfold within_cap, end_, set_buf in *.
    cbn [buf_len start data maxTokenSize token].
    repeat split; auto; lia.
Qed.

Lemma Scan_loop_within fuel :
  forall s res, within_cap s -> Scan_loop fuel s = Some res -> within_cap (snd res).
Proof.
  induction fuel as [|fuel IH]; intros s res Hs; cbn [Scan_loop]; [discriminate|].
  pose proof (Scan_pass_within s Hs) as Hpass.
  destruct (Scan_pass s) as [[more s']|s'].
  - intro H. now injection H as <-.
  - now apply IH.
Qed.

Lemma Scan_within s : within_cap s -> within_cap (snd (Scan s)).
Proof.
  intro Hs. unfold Scan.
  destruct (Scan_loop _ s) as [res|] eqn:Hloop; [|exact Hs].
  now apply (Scan_loop_within _ _ _ Hs Hloop).
Qed.

Lemma drain_step_capped ctxErr d t :
  capped d ->
  capped (fst (drain_step ctxErr d)) /\
  short_records (tag t (snd (drain_step ctxErr d))).
Proof.
  destruct d as [|level sc|level sc|dst src|]; cbn [drain_step capped].
  - intros _. split; [exact I|constructor].
  - intro Hs. apply Scan_within in Hs.
    destruct (Scan sc) as [[|] sc']; cbn [snd fst capped] in *.
    + split; [exact Hs|constructor].
    + destruct (bufio.Err sc'); cbn; split; auto; repeat constructor.
      cbn. discriminate.
  - intro Hs. destruct ctxErr; cbn; split; auto; repeat constructor.
    + cbn. discriminate.
    + cbn. intros _. unfold Text. rewrite string_of_list_byte_length.
      destruct Hs as (_ & ? & _ & _ & _ & ?). unfold maxCapacity in *. lia.
  - intros _.
    destruct (drain_step_copy ctxErr dst src)
      as [[_ Hstep]|(bs & src' & Hstep & _)];
      cbn [drain_step] in Hstep; rewrite Hstep; cbn;
      split; auto; repeat constructor.
  - intros _. split; [exact I|constructor].
Qed.

(** X8: the buffer of a log-streaming consumer stays within its cap.
    Whatever the command and the schedule, the scanner of each consumer
    has a buffer of at least 64 KiB and at most [maxCapacity] (1 MiB),
    which holds its unread data and its token; and the text of every
    line that has been logged has at most [maxCapacity] bytes. *)
Theorem scanner_buffer_stays_within_cap :
  forall creator command streamToLog args sched,
    let s := execx.run creator command streamToLog args sched initial in
    capped (stdout_drain s) /\ capped (stderr_drain s) /\
    short_records (effects s).
Proof.
  intros creator command streamToLog args sched. cbv zeta.
  apply (schedule_ind creator command streamToLog args
           (fun _ s => capped (stdout_drain s) /\ capped (stderr_drain s) /\
                       short_records (effects s))).
  - cbn. repeat split; auto. constructor.
  - intros sched' l (Ho & He & Heff).
    set (s := execx.run creator command streamToLog args sched' initial) in *.
    destruct l as [[| |]|cause]; cbn [execx.step].
    + assert (Hlaunch : forall pipe level, capped (streamToSlog pipe level)).
      { intros pipe level. cbn. unfold within_cap, end_, maxCapacity. cbn.
        repeat split; lia. }
      destruct (caller_step_drains creator command streamToLog args s) as (-> & _).
      split; [|split; [|exact Heff]]; unfold caller_step, goto;
        destruct (caller s); cbn [stdout_drain stderr_drain]; auto;
        repeat match goal with
               | |- context [match ?x with _ => _ end] =>
                   destruct x; cbn [stdout_drain stderr_drain]; auto
               end;
        exact I.
    + destruct (drain_step_capped (ctx_Err s) _ StdoutDrain Ho) as [Ho' Hes].
      destruct (drain_step (ctx_Err s) (stdout_drain s)) as [d es].
      cbn [effects stdout_drain stderr_drain fst snd] in *.
      repeat split; auto. apply Forall_app. now split.
    + destruct (drain_step_capped (ctx_Err s) _ StderrDrain He) as [He' Hes].
      destruct (drain_step (ctx_Err s) (stderr_drain s)) as [d es].
      cbn [effects stdout_drain stderr_drain fst snd] in *.
      repeat split; auto. apply Forall_app. now split.
    + destruct (ctx_Err s); cbn; auto.
Qed.

(** ** The runners: one command each *)

(** The operation [c] runs the one command [program argv] through the
    executor [ex]: it logs a record at [LevelInfo], calls [Executor.Run]
    once, with [streamToLog] false, and returns what the executor
    answers, as it is; it logs a second record at [LevelInfo] when, and
    only when, the answer is nil; it creates no directory. *)
Definition runs_once (ex : Executor) (c : M (option error))
           (program : string) (argv : list string) : Prop :=
  forall w : World,
    let call := mkCall program false argv in
    let answer := ex (ran w) call in
    fst (c w) = answer /\
    ran (snd (c w)) = ran w ++ [call] /\
    mkdirs (snd (c w)) = mkdirs w /\
    exists before after : slog.Record,
      slog.level before = slog.LevelInfo /\ slog.level after = slog.LevelInfo /\
      logged (snd (c w))
      = logged w ++ before :: match answer with
                              | None => [after]
                              | Some _ => []
                              end.

Lemma runs_once_intro ex program argv msg kv msg' kv' :
  runs_once ex
    (Info msg kv ;;
     err <- Executor_Run ex program false argv ;;
     match err with
     | Some e => ret (Some e)
     | None => Info msg' kv' ;; ret None
     end)
    program argv.
Proof.
  intro w. cbv zeta. unfold bind, Info, Executor_Run, ret. cbn.
  destruct (ex (ran w) (mkCall program false argv)) as [e|]; cbn.
  - repeat split.
    exists (slog.mkRecord slog.LevelInfo msg kv),
           (slog.mkRecord slog.LevelInfo msg' kv').
    repeat split; reflexivity.
  - repeat split.
    exists (slog.mkRecord slog.LevelInfo msg kv),
           (slog.mkRecord slog.LevelInfo msg' kv').
    rewrite <- app_assoc. repeat split; reflexivity.
Qed.

(** X9: the runners of [golang] that run one command.  Each of
    [RunTests], [RunLint], [Run], [RunTestsWithCoverage], [RunVet],
    [RunFormat] and [RunFormatImports] calls the executor exactly once,
    with its own default arguments followed by the arguments of the
    caller, and returns the error of the executor unwrapped; the record of
    completion is logged only on success. *)
Theorem go_runners_run_one_command :
  forall (ex : Executor) (args : list string),
    let g := golang.mkGoRunner ex in
    runs_once ex (golang.RunTests g args) "go" (["test"; "./..."] ++ args) /\
    runs_once ex (golang.RunLint g args) "golangci-lint"
              (["run"; "--timeout=5m"] ++ args) /\
    runs_once ex (golang.Run g) "go" ["mod"; "tidy"] /\
    runs_once ex (golang.RunTestsWithCoverage g args) "go"
              (["test"; "-cover"; "-coverprofile=coverage.out"; "./..."] ++ args) /\
    runs_once ex (golang.RunVet g args) "go" (["vet"; "./..."] ++ args) /\
    runs_once ex (golang.RunFormat g args) "gofmt" (["-w"; "."] ++ args) /\
    runs_once ex (golang.RunFormatImports g args) "goimports"
              (["-w"; "."] ++ args).
Proof.
  intros ex args g. subst g.
  repeat split; apply runs_once_intro.
Qed.

(** ** The command lines of [helm] and [ko] *)

(** A flag that is present when [b] holds. *)
Definition flag (name : string) (b : bool) : list string :=
  if b then [name] else [].

(** A flag with its value, left out when the value is empty. *)
Definition flag_value (name value : string) : list string :=
  if String.eqb value "" then [] else [name; value].

(** A flag repeated for each of [values], in their order. *)
Definition flag_values (name : string) (values : list string) : list string :=
  flat_map (fun value => [name; value]) values.

Lemma append_flag (name : string) (b : bool) (l : list string) :
  (if b then l ++ [name] else l) = l ++ flag name b.
Proof. destruct b; cbn; [reflexivity|now rewrite app_nil_r]. Qed.

Lemma append_flag_value (name value : string) (l : list string) :
  (if negb (String.eqb value "") then l ++ [name; value] else l)
  = l ++ flag_value name value.
Proof.
  unfold flag_value. destruct (String.eqb value ""); cbn;
    [now rewrite app_nil_r|reflexivity].
Qed.

Lemma append_flag_values (name : string) (values l : list string) :
  fold_left (fun args value => args ++ [name; value]) values l
  = l ++ flag_values name values.
Proof. apply fold_left_append. Qed.

Ltac command_line :=
  rewrite ?append_flag, ?append_flag_value, ?append_flag_values,
    <- ?app_assoc.

(** The arguments of [helm install], [helm upgrade], [ko build],
    [ko apply] and [ko delete] for given options. *)
Definition install_args (o : helmx.InstallOptions.t) : list string :=
  ["install"; helmx.InstallOptions.ReleaseName o; helmx.InstallOptions.Chart o]
  ++ flag_value "--namespace" (helmx.InstallOptions.Namespace o)
  ++ flag "--create-namespace" (helmx.InstallOptions.CreateNamespace o)
  ++ flag_values "--values" (helmx.InstallOptions.Values o)
  ++ flag_values "--set" (helmx.InstallOptions.Set_ o)
  ++ flag "--wait" (helmx.InstallOptions.Wait o)
  ++ flag_value "--timeout" (helmx.InstallOptions.Timeout_ o).

Definition upgrade_args (o : helmx.UpgradeOptions.t) : list string :=
  ["upgrade"; helmx.UpgradeOptions.ReleaseName o; helmx.UpgradeOptions.Chart o]
  ++ flag_value "--namespace" (helmx.UpgradeOptions.Namespace o)
  ++ flag "--install" (helmx.UpgradeOptions.Install o)
  ++ flag_values "--values" (helmx.UpgradeOptions.Values o)
  ++ flag_values "--set" (helmx.UpgradeOptions.Set_ o)
  ++ flag "--wait" (helmx.UpgradeOptions.Wait o)
  ++ flag_value "--timeout" (helmx.UpgradeOptions.Timeout_ o).

Definition build_args (o : kox.BuildOptions.t) : list string :=
  ["build"; kox.BuildOptions.ImportPath o]
  ++ flag_values "--tags" (kox.BuildOptions.Tags o)
  ++ flag_values "--platform" (kox.BuildOptions.Platform o)
  ++ flag_value "--base-import-paths" (kox.BuildOptions.BaseImage o)
  ++ flag "--bare" (kox.BuildOptions.Bare o)
  ++ flag "--local" (kox.BuildOptions.Local_ o)
  ++ flag "--push" (kox.BuildOptions.Push o)
  ++ flag "--preserve-import-paths" (kox.BuildOptions.PreserveImportPaths o).

Definition apply_args (o : kox.ApplyOptions.t) : list string :=
  ["apply"]
  ++ flag_values "-f" (kox.ApplyOptions.Filenames o)
  ++ flag "--recursive" (kox.ApplyOptions.Recursive o)
  ++ flag_value "--selector" (kox.ApplyOptions.Selector o)
  ++ flag_value "--base-import-paths" (kox.ApplyOptions.BaseImage o)
  ++ flag_values "--platform" (kox.ApplyOptions.Platform o)
  ++ flag "--local" (kox.ApplyOptions.Local_ o)
  ++ flag "--bare" (kox.ApplyOptions.Bare o)
  ++ flag "--preserve-import-paths" (kox.ApplyOptions.PreserveImportPaths o).

Definition delete_args (o : kox.DeleteOptions.t) : list string :=
  ["delete"]
  ++ flag_values "-f" (kox.DeleteOptions.Filenames o)
  ++ flag "--recursive" (kox.DeleteOptions.Recursive o)
  ++ flag_value "--selector" (kox.DeleteOptions.Selector o).

Lemma eqb_nonempty s : s <> "" -> String.eqb s "" = false.
Proof. intro H. now apply String.eqb_neq. Qed.

Lemma length_nonempty {A} (l : list A) : l <> [] -> Nat.eqb (List.length l) 0 = false.
Proof. destruct l; [congruence|reflexivity]. Qed.

Ltac valid :=
  repeat match goal with
         | H : ?s <> "" |- context [String.eqb ?s ""] =>
             rewrite (eqb_nonempty s H)
         | H : ?l <> [] |- context [Nat.eqb (List.length ?l) 0] =>
             rewrite (length_nonempty l H)
         end.

Ltac one_command :=
  match goal with
  | |- runs_once ?ex (bind (Info ?msg ?kv) _) ?program ?argv =>
      command_line; cbn [app]; apply runs_once_intro
  end.

Section OneCommand.

Variable ex : Executor.

Lemma Install_once o :
  helmx.InstallOptions.ReleaseName o <> "" ->
  helmx.InstallOptions.Chart o <> "" ->
  runs_once ex (helmx.Install (helmx.mkHelmRunner ex) o) "helm" (install_args o).
Proof.
  intros. unfold helmx.Install, install_args. valid. cbn [helmx.executor].
  one_command.
Qed.

Lemma Upgrade_once o :
  helmx.UpgradeOptions.ReleaseName o <> "" ->
  helmx.UpgradeOptions.Chart o <> "" ->
  runs_once ex (helmx.Upgrade (helmx.mkHelmRunner ex) o) "helm" (upgrade_args o).
Proof.
  intros. unfold helmx.Upgrade, upgrade_args. valid. cbn [helmx.executor].
  one_command.
Qed.









Lemma Build_once o :
  kox.BuildOptions.ImportPath o <> "" ->
  runs_once ex (kox.Build (kox.mkKoRunner ex) o) "ko" (build_args o).
Proof.
  intros. unfold kox.Build, build_args. valid. cbn [kox.executor]. one_command.
Qed.

Lemma Apply_once o :
  kox.ApplyOptions.Filenames o <> [] ->
  runs_once ex (kox.Apply (kox.mkKoRunner ex) o) "ko" (apply_args o).
Proof.
  intros. unfold kox.Apply, apply_args. valid. cbn [kox.executor]. one_command.
Qed.

Lemma Delete_once o :
  kox.DeleteOptions.Filenames o <> [] ->
  runs_once ex (kox.Delete (kox.mkKoRunner ex) o) "ko" (delete_args o).
Proof.
  intros. unfold kox.Delete, delete_args. valid. cbn [kox.executor]. one_command.
Qed.



End OneCommand.





(** ** Options can be read back from the command line *)

(** A list that is empty or begins with one of [names]. *)
Definition begins_with (names l : list string) : Prop :=
  match l with
  | [] => True
  | x :: _ => In x names
  end.

Lemma begins_weaken name names l :
  begins_with names l -> begins_with (name :: names) l.
Proof. destruct l; cbn; auto. Qed.

Lemma begins_flag name b names l :
  begins_with names l -> begins_with (name :: names) (flag name b ++ l).
Proof. destruct b; cbn; [auto|apply begins_weaken]. Qed.

Lemma begins_flag_value name value names l :
  begins_with names l -> begins_with (name :: names) (flag_value name value ++ l).
Proof.
  unfold flag_value. destruct (String.eqb value ""); cbn;
    [apply begins_weaken|auto].
Qed.

Lemma begins_flag_values name values names l :
  begins_with names l -> begins_with (name :: names) (flag_values name values ++ l).
Proof. destruct values; cbn; [apply begins_weaken|auto]. Qed.

Lemma begins_not name names l : ~ In name names -> begins_with names (name :: l) -> False.
Proof. cbn. auto. Qed.

Lemma flag_inj name names b1 b2 l1 l2 :
  ~ In name names -> begins_with names l1 -> begins_with names l2 ->
  flag name b1 ++ l1 = flag name b2 ++ l2 -> b1 = b2 /\ l1 = l2.
Proof.
  intros Hname H1 H2. destruct b1, b2; cbn; intro H.
  - injection H as H. auto.
  - subst l2. now destruct (begins_not _ _ _ Hname H2).
  - subst l1. now destruct (begins_not _ _ _ Hname H1).
  - auto.
Qed.

Lemma flag_value_inj name names v1 v2 l1 l2 :
  ~ In name names -> begins_with names l1 -> begins_with names l2 ->
  flag_value name v1 ++ l1 = flag_value name v2 ++ l2 -> v1 = v2 /\ l1 = l2.
Proof.
  intros Hname H1 H2. unfold flag_value.
  destruct (String.eqb_spec v1 ""), (String.eqb_spec v2 ""); cbn; intro H.
  - split; congruence.
  - subst l1. now destruct (begins_not _ _ _ Hname H1).
  - subst l2. now destruct (begins_not _ _ _ Hname H2).
  - injection H as H. auto.
Qed.

Lemma flag_values_inj name names vs1 :
  forall vs2 l1 l2,
    ~ In name names -> begins_with names l1 -> begins_with names l2 ->
    flag_values name vs1 ++ l1 = flag_values name vs2 ++ l2 ->
    vs1 = vs2 /\ l1 = l2.
Proof.
  induction vs1 as [|v vs1 IH]; intros [|v' vs2] l1 l2 Hname H1 H2; cbn; intro H.
  - auto.
  - subst l1. now destruct (begins_not _ _ _ Hname H1).
  - subst l2. now destruct (begins_not _ _ _ Hname H2).
  - injection H as -> H.
    destruct (IH vs2 l1 l2 Hname H1 H2 H) as [-> ->]. auto.
Qed.

Ltac begins :=
  repeat first [ exact I
               | apply begins_flag
               | apply begins_flag_value
               | apply begins_flag_values ].

Ltac other_flag := cbn; intuition discriminate.

(** Takes the first segment off both sides of an equation between
    command lines; [names] are the flags that can follow it. *)
Ltac peel H names :=
  first [ apply (flag_inj _ names) in H; [|other_flag|begins|begins]
        | apply (flag_value_inj _ names) in H; [|other_flag|begins|begins]
        | apply (flag_values_inj _ names) in H; [|other_flag|begins|begins] ];
  let Heq := fresh "Heq" in
  destruct H as [Heq H]; try subst.

Lemma install_args_inj o1 o2 : install_args o1 = install_args o2 -> o1 = o2.
Proof.
  destruct o1, o2. unfold install_args. cbn. intro H.
  apply (f_equal (fun l => l ++ [])) in H. cbn [app] in H.
  rewrite <- !app_assoc in H. injection H as -> -> H.
  peel H ["--create-namespace"; "--values"; "--set"; "--wait"; "--timeout"].
  peel H ["--values"; "--set"; "--wait"; "--timeout"].
  peel H ["--set"; "--wait"; "--timeout"].
  peel H ["--wait"; "--timeout"].
  peel H ["--timeout"].
  peel H (@nil string).
  reflexivity.
Qed.

Lemma upgrade_args_inj o1 o2 : upgrade_args o1 = upgrade_args o2 -> o1 = o2.
Proof.
  destruct o1, o2. unfold upgrade_args. cbn. intro H.
  apply (f_equal (fun l => l ++ [])) in H. cbn [app] in H.
  rewrite <- !app_assoc in H. injection H as -> -> H.
  peel H ["--install"; "--values"; "--set"; "--wait"; "--timeout"].
  peel H ["--values"; "--set"; "--wait"; "--timeout"].
  peel H ["--set"; "--wait"; "--timeout"].
  peel H ["--wait"; "--timeout"].
  peel H ["--timeout"].
  peel H (@nil string).
  reflexivity.
Qed.

Lemma build_args_inj o1 o2 : build_args o1 = build_args o2 -> o1 = o2.
Proof.
  destruct o1, o2. unfold build_args. cbn. intro H.
  apply (f_equal (fun l => l ++ [])) in H. cbn [app] in H.
  rewrite <- !app_assoc in H. injection H as -> H.
  peel H ["--platform"; "--base-import-paths"; "--bare"; "--local"; "--push";
          "--preserve-import-paths"].
  peel H ["--base-import-paths"; "--bare"; "--local"; "--push";
          "--preserve-import-paths"].
  peel H ["--bare"; "--local"; "--push"; "--preserve-import-paths"].
  peel H ["--local"; "--push"; "--preserve-import-paths"].
  peel H ["--push"; "--preserve-import-paths"].
  peel H ["--preserve-import-paths"].
  peel H (@nil string).
  reflexivity.
Qed.

Lemma apply_args_inj o1 o2 : apply_args o1 = apply_args o2 -> o1 = o2.
Proof.
  destruct o1, o2. unfold apply_args. cbn. intro H.
  apply (f_equal (fun l => l ++ [])) in H. cbn [app] in H.
  rewrite <- !app_assoc in H. injection H as H.
  peel H ["--recursive"; "--selector"; "--base-import-paths"; "--platform";
          "--local"; "--bare"; "--preserve-import-paths"].
  peel H ["--selector"; "--base-import-paths"; "--platform"; "--local"; "--bare";
          "--preserve-import-paths"].
  peel H ["--base-import-paths"; "--platform"; "--local"; "--bare";
          "--preserve-import-paths"].
  peel H ["--platform"; "--local"; "--bare"; "--preserve-import-paths"].
  peel H ["--local"; "--bare"; "--preserve-import-paths"].
  peel H ["--bare"; "--preserve-import-paths"].
  peel H ["--preserve-import-paths"].
  peel H (@nil string).
  reflexivity.
Qed.

Lemma delete_args_inj o1 o2 : delete_args o1 = delete_args o2 -> o1 = o2.
Proof.
  destruct o1, o2. unfold delete_args. cbn. intro H.
  apply (f_equal (fun l => l ++ [])) in H. cbn [app] in H.
  rewrite <- !app_assoc in H. injection H as H.
  peel H ["--recursive"; "--selector"].
  peel H ["--selector"].
  peel H (@nil string).
  reflexivity.
Qed.

Lemma same_call ex c1 c2 program argv1 argv2 w :
  runs_once ex c1 program argv1 -> runs_once ex c2 program argv2 ->
  ran (snd (c1 w)) = ran (snd (c2 w)) -> argv1 = argv2.
Proof.
  intros H1 H2 Hran.
  destruct (H1 w) as (_ & Hr1 & _). destruct (H2 w) as (_ & Hr2 & _).
  rewrite Hr1, Hr2 in Hran. apply app_inv_head in Hran. congruence.
Qed.

(** X12: the options of [helm install] and [helm upgrade] can be read
    back from the command line: options that pass validation and differ
    in any field lead to different calls of the executor, so that no
    setting is lost or confused with another on its way to [helm]. *)
Theorem helm_options_are_told_apart :
  forall (ex : Executor) (w : World),
    let h := helmx.mkHelmRunner ex in
    (forall o1 o2,
       helmx.InstallOptions.ReleaseName o1 <> "" ->
       helmx.InstallOptions.Chart o1 <> "" ->
       helmx.InstallOptions.ReleaseName o2 <> "" ->
       helmx.InstallOptions.Chart o2 <> "" ->
       o1 <> o2 ->
       ran (snd (helmx.Install h o1 w)) <> ran (snd (helmx.Install h o2 w))) /\
    (forall o1 o2,
       helmx.UpgradeOptions.ReleaseName o1 <> "" ->
       helmx.UpgradeOptions.Chart o1 <> "" ->
       helmx.UpgradeOptions.ReleaseName o2 <> "" ->
       helmx.UpgradeOptions.Chart o2 <> "" ->
       o1 <> o2 ->
       ran (snd (helmx.Upgrade h o1 w)) <> ran (snd (helmx.Upgrade h o2 w))).
Proof.
  intros ex w h. subst h. split; intros o1 o2 Hr1 Hc1 Hr2 Hc2 Hne Hran; apply Hne.
  - apply install_args_inj.
    exact (same_call ex _ _ _ _ _ w (Install_once ex o1 Hr1 Hc1)
                     (Install_once ex o2 Hr2 Hc2) Hran).
  - apply upgrade_args_inj.
    exact (same_call ex _ _ _ _ _ w (Upgrade_once ex o1 Hr1 Hc1)
                     (Upgrade_once ex o2 Hr2 Hc2) Hran).
Qed.

(** An installation that waits and one that does not. *)
Lemma helm_options_are_told_apart_witness :
  ran (snd (helmx.Install (helmx.mkHelmRunner (fun _ _ => None))
              (helmx.InstallOptions.mk "example" "./charts/example" "default"
                                       ["values.yaml"] [] true true "5m")
              (mkWorld [] [] [])))
  <> ran (snd (helmx.Install (helmx.mkHelmRunner (fun _ _ => None))
                 (helmx.InstallOptions.mk "example" "./charts/example" "default"
                                          ["values.yaml"] [] true false "5m")
                 (mkWorld [] [] []))).
Proof.
  destruct (helm_options_are_told_apart (fun _ _ => None) (mkWorld [] [] []))
    as (HInstall & _).
  apply HInstall; discriminate.
Defined.

(** X13: the options of [ko build], [ko apply] and [ko delete] can be
    read back from the command line: options that pass validation and
    differ in any field lead to different calls of the executor. *)
Theorem ko_options_are_told_apart :
  forall (ex : Executor) (w : World),
    let k := kox.mkKoRunner ex in
    (forall o1 o2,
       kox.BuildOptions.ImportPath o1 <> "" ->
       kox.BuildOptions.ImportPath o2 <> "" ->
       o1 <> o2 ->
       ran (snd (kox.Build k o1 w)) <> ran (snd (kox.Build k o2 w))) /\
    (forall o1 o2,
       kox.ApplyOptions.Filenames o1 <> [] ->
       kox.ApplyOptions.Filenames o2 <> [] ->
       o1 <> o2 ->
       ran (snd (kox.Apply k o1 w)) <> ran (snd (kox.Apply k o2 w))) /\
    (forall o1 o2,
       kox.DeleteOptions.Filenames o1 <> [] ->
       kox.DeleteOptions.Filenames o2 <> [] ->
       o1 <> o2 ->
       ran (snd (kox.Delete k o1 w)) <> ran (snd (kox.Delete k o2 w))).
Proof.
  intros ex w k. subst k.
  repeat match goal with |- _ /\ _ => split end;
    intros o1 o2 H1 H2 Hne Hran; apply Hne.
  - apply build_args_inj.
    exact (same_call ex _ _ _ _ _ w (Build_once ex o1 H1) (Build_once ex o2 H2)
                     Hran).
  - apply apply_args_inj.
    exact (same_call ex _ _ _ _ _ w (Apply_once ex o1 H1) (Apply_once ex o2 H2)
                     Hran).
  - apply delete_args_inj.
    exact (same_call ex _ _ _ _ _ w (Delete_once ex o1 H1) (Delete_once ex o2 H2)
                     Hran).
Qed.

(** A build that is kept local and one that is pushed. *)
Lemma ko_options_are_told_apart_witness :
  ran (snd (kox.Build (kox.mkKoRunner (fun _ _ => None))
              (kox.BuildOptions.mk "./cmd/app" ["latest"] ["linux/amd64"]
                                   "distroless" false true false false)
              (mkWorld [] [] [])))
  <> ran (snd (kox.Build (kox.mkKoRunner (fun _ _ => None))
                 (kox.BuildOptions.mk "./cmd/app" ["latest"] ["linux/amd64"]
                                      "distroless" false false true false)
                 (mkWorld [] [] []))).
Proof.
  destruct (ko_options_are_told_apart (fun _ _ => None) (mkWorld [] [] []))
    as (HBuild & _).
  apply HBuild; discriminate.
Defined.

(** ** [RunBuild] *)

(** X14: [RunBuild] makes the output directory, then builds into it.
    With a binary name given, [RunBuild] calls [os.MkdirAll] exactly
    once, for the directory named after the operating system and the
    architecture under the destination ([dist/binaries] when none is
    given); when that fails it returns the error and does not call the
    executor.
    Otherwise it calls the executor once, with the program [env], and
    returns its error unwrapped: the output path is the binary name
    inside the directory just created, the linker strips the binary
    unless [Debug] is set, and the packages are those given, or [.] when
    none is.  The record of completion is logged only on success. *)
Theorem RunBuild_makes_the_directory_then_builds :
  forall (filepath_Join : list string -> string)
         (os_MkdirAll : string -> option error)
         (ex : Executor) (opts : golang.BuildOptions) (w : World),
    let out := golang.RunBuild filepath_Join os_MkdirAll (golang.mkGoRunner ex)
                               opts w in
    let destDir :=
      if String.eqb (golang.DestinationDir opts) "" then "dist/binaries"
      else golang.DestinationDir opts in
    let outDir :=
      filepath_Join [destDir; (golang.OS opts ++ "_" ++ golang.Arch opts)%string] in
    let outPath := filepath_Join [outDir; golang.Binary opts] in
    let version := ("-X main.version=" ++ golang.Version opts)%string in
    let ldflags :=
      if golang.Debug opts then version else (version ++ " -s -w")%string in
    let packages :=
      match golang.Packages opts with
      | [] => ["."]
      | _ :: _ => golang.Packages opts
      end in
    let call :=
      mkCall "env" false
             ([("GOOS=" ++ golang.OS opts)%string;
               ("GOARCH=" ++ golang.Arch opts)%string;
               "CGO_ENABLED=0"; "go"; "build"; "-ldflags"; ldflags;
               "-o"; outPath] ++ packages) in
    golang.Binary opts <> "" ->
    mkdirs (snd out) = mkdirs w ++ [outDir] /\
    match os_MkdirAll outDir with
    | Some e => fst out = Some e /\ ran (snd out) = ran w
    | None => fst out = ex (ran w) call /\ ran (snd out) = ran w ++ [call]
    end /\
    exists before after : slog.Record,
      logged (snd out)
      = logged w ++ before :: match fst out with
                              | None => [after]
                              | Some _ => []
                              end.
Proof.
  intros filepath_Join os_MkdirAll ex opts w out destDir outDir outPath version
         ldflags packages call Hbinary.
  subst out. unfold golang.RunBuild. rewrite (eqb_nonempty _ Hbinary).
  assert (Hpk : (if Nat.eqb (List.length (golang.Packages opts)) 0 then ["."]
                 else golang.Packages opts) = packages).
  { subst packages. now destruct (golang.Packages opts). }
  rewrite Hpk.
  assert (Hld : (if negb (golang.Debug opts)
                 then (("-X main.version=" ++ golang.Version opts) ++ " -s -w")%string
                 else ("-X main.version=" ++ golang.Version opts)%string) = ldflags).
  { subst ldflags version. now destruct (golang.Debug opts). }
  rewrite Hld. fold destDir. fold outDir. fold outPath.
  cbn [golang.executor]. unfold bind, Info, golang.MkdirAll, Executor_Run, ret.
  cbn [fst snd mkdirs ran logged].
  destruct (os_MkdirAll outDir) as [e|]; cbn [fst snd mkdirs ran logged].
  - repeat split. eexists (slog.mkRecord _ _ _), (slog.mkRecord slog.LevelInfo "env" []).
    reflexivity.
  - fold call. destruct (ex (ran w) call) as [e|]; cbn [fst snd mkdirs ran logged].
    + repeat split.
      eexists (slog.mkRecord _ _ _), (slog.mkRecord slog.LevelInfo "env" []).
      reflexivity.
    + repeat split. eexists (slog.mkRecord _ _ _), (slog.mkRecord _ _ _).
      rewrite <- app_assoc. reflexivity.
Qed.

(** A release build for linux/amd64 with nothing else given, on a file
    system where the directory can be made. *)
Lemma RunBuild_makes_the_directory_then_builds_witness :
  let join := String.concat "/" in
  let out := golang.RunBuild join (fun _ => None)
                             (golang.mkGoRunner (fun _ _ => None))
                             (golang.mkBuildOptions "app" "v1.2.3" "linux" "amd64"
                                                    false [] "")
                             (mkWorld [] [] []) in
  mkdirs (snd out) = ["dist/binaries/linux_amd64"] /\
  fst out = None /\
  ran (snd out)
  = [mkCall "env" false
            ["GOOS=linux"; "GOARCH=amd64"; "CGO_ENABLED=0"; "go"; "build";
             "-ldflags"; "-X main.version=v1.2.3 -s -w";
             "-o"; "dist/binaries/linux_amd64/app"; "."]].
Proof.
  cbv zeta.
  destruct (RunBuild_makes_the_directory_then_builds
              (String.concat "/") (fun _ => None) (fun _ _ => None)
              (golang.mkBuildOptions "app" "v1.2.3" "linux" "amd64" false [] "")
              (mkWorld [] [] [])) as (Hdir & (Hres & Hran) & _).
  - discriminate.
  - repeat split; assumption.
Defined.
